(** * QueryProcessor: the arithmetic-expression evaluator

    A shallow embedding of [src/utils/QueryProcessor.tsx]: the function
    [evaluateExpression] (tokenizer, shunting-yard conversion to postfix
    form, postfix evaluation) and its caller [QueryProcessor].

    JavaScript numbers are IEEE-754 binary64 values.  They are modelled by
    the Standard Library's [spec_float] at precision 53 and maximal
    exponent 1024, whose operations are the correctly rounded
    (round-to-nearest-even) ones; strings are sequences of code units. *)

From Stdlib Require Import ZArith List String Ascii Bool Lia QArith.
From Stdlib Require Import SpecFloat.
Import ListNotations.

Local Open Scope Z_scope.
Local Open Scope bool_scope.

(** ** Outcomes: a returned value, a thrown [Error], or a loop cut short *)

(** The [Error] objects thrown by the source, one constructor per message. *)
Inductive Error : Type :=
| InvalidNumber                       (* 'Invalid number' *)
| InvalidCharacter (ch : ascii)       (* 'Invalid character in expression: ' + ch *)
| MismatchedParentheses               (* 'Mismatched parentheses' *)
| DivisionByZero                      (* 'Division by zero' *)
| MalformedExpression                 (* 'Invalid expression' *)
| UnknownOperator (op : ascii).       (* 'Unknown operator ' + t.value *)

Definition message (e : Error) : string :=
  match e with
  | InvalidNumber => "Invalid number"
  | InvalidCharacter ch => "Invalid character in expression: " ++ String ch EmptyString
  | MismatchedParentheses => "Mismatched parentheses"
  | DivisionByZero => "Division by zero"
  | MalformedExpression => "Invalid expression"
  | UnknownOperator op => "Unknown operator " ++ String op EmptyString
  end%string.

(** [OutOfFuel] is not a behaviour of the program: it marks a run of the
    tokenizer's [while] loop that was given too few iterations. *)
Inductive outcome (A : Type) : Type :=
| Return (a : A)
| Throw (e : Error)
| OutOfFuel.

Arguments Return {A} a.
Arguments Throw {A} e.
Arguments OutOfFuel {A}.

Definition bind {A B : Type} (m : outcome A) (k : A -> outcome B) : outcome B :=
  match m with
  | Return a => k a
  | Throw e => Throw e
  | OutOfFuel => OutOfFuel
  end.

Notation "x <- m ;; k" := (bind m (fun x => k))
  (at level 61, m at next level, right associativity).
Notation "' p <- m ;; k" := (bind m (fun x => match x with p => k end))
  (at level 61, p pattern, m at next level, right associativity).

(** [try { body } catch (e) { handler }] *)
Definition try_catch {A : Type} (body : outcome A) (handler : Error -> outcome A)
  : outcome A :=
  match body with
  | Throw e => handler e
  | other => other
  end.

(** The longest prefix of [l] whose elements satisfy [f]. *)
Fixpoint takeWhile {A : Type} (f : A -> bool) (l : list A) : list A :=
  match l with
  | [] => []
  | x :: r => if f x then x :: takeWhile f r else []
  end.

(** ** Numbers *)

Module JS.

Definition prec : Z := 53.
Definition emax : Z := 1024.

Definition number : Type := spec_float.

Definition add : number -> number -> number := SFadd prec emax.
Definition sub : number -> number -> number := SFsub prec emax.
Definition mul : number -> number -> number := SFmul prec emax.
Definition div : number -> number -> number := SFdiv prec emax.

(** [Number.isNaN] *)
Definition isNaN (x : number) : bool :=
  match x with S754_nan => true | _ => false end.

(** [Number.isFinite] *)
Definition isFinite (x : number) : bool :=
  match x with S754_zero _ | S754_finite _ _ _ => true | _ => false end.

(** The sign bit: set for negative numbers and for [-0]. *)
Definition signBit (x : number) : bool :=
  match x with
  | S754_zero s | S754_infinity s | S754_finite s _ _ => s
  | S754_nan => false
  end.

(** [x === y] on numbers: [NaN] differs from everything, [-0 === 0]. *)
Definition strictEq (x y : number) : bool := SFeqb x y.

Definition zero : number := S754_zero false.

(** The double nearest to the integer [z]. *)
Definition ofZ (z : Z) : number := binary_normalize prec emax z 0 false.

(** [Math.floor] *)
Definition floor (x : number) : number :=
  match x with
  | S754_finite s m e =>
      if 0 <=? e then x
      else binary_normalize prec emax
             ((if s then Z.neg m else Z.pos m) / 2 ^ (- e)) 0 s
  | _ => x
  end.

(** [Math.max] of two numbers: [NaN] wins, and [+0] is larger than [-0]. *)
Definition max2 (x y : number) : number :=
  if isNaN x || isNaN y then S754_nan
  else if SFltb x y then y
  else if SFltb y x then x
  else if signBit x then y else x.

(** [Math.max(...nums)] *)
Definition max (nums : list number) : number :=
  fold_left max2 nums (S754_infinity true).

(** The real number a finite double stands for. *)
Definition realValue (x : number) : option Q :=
  match x with
  | S754_zero _ => Some 0%Q
  | S754_finite s m e =>
      let a := if s then Z.neg m else Z.pos m in
      Some (if 0 <=? e then inject_Z (a * 2 ^ e) else Qmake a (Z.to_pos (2 ^ (- e))))
  | _ => None
  end.

(** *** [Number(string)] on the strings this program builds

    The tokenizer only converts an optional ['-'] followed by characters of
    [[0-9.]]; on these ECMAScript's StringToNumber accepts
    [digits], [digits.], [digits.digits] and [.digits], gives [+0] for the
    empty string and [NaN] for everything else, and rounds the decimal value
    to the nearest double. *)

Definition isDigit (c : ascii) : bool :=
  let n := nat_of_ascii c in (48 <=? n)%nat && (n <=? 57)%nat.

Definition digitValue (c : ascii) : Z := Z.of_nat (nat_of_ascii c) - 48.

Definition decimalValue (ds : list ascii) : Z :=
  fold_left (fun acc c => 10 * acc + digitValue c) ds 0.

(** Splits at the first ['.']: the characters before it, and those after it
    when there is one. *)
Fixpoint splitAtDot (s : list ascii) : list ascii * option (list ascii) :=
  match s with
  | [] => ([], None)
  | c :: r =>
      if Ascii.eqb c "." then ([], Some r)
      else let '(a, b) := splitAtDot r in (c :: a, b)
  end.

(** The double nearest to [m / 10^k], for [m >= 0]. *)
Definition decimalToNumber (m : Z) (k : nat) : number :=
  match m with
  | Z.pos p => SFdiv prec emax (S754_finite false p 0)
                 (S754_finite false (Z.to_pos (10 ^ Z.of_nat k)) 0)
  | _ => S754_zero false
  end.

(** [digits], [digits.], [digits.digits] or [.digits] *)
Definition isDecimalLiteral (s : list ascii) : bool :=
  let '(int, frac) := splitAtDot s in
  let frac' := match frac with Some f => f | None => [] end in
  forallb isDigit int && forallb isDigit frac'
  && negb (Nat.eqb (List.length int + List.length frac') 0).

Definition unsignedLiteral (s : list ascii) : number :=
  let '(int, frac) := splitAtDot s in
  let frac' := match frac with Some f => f | None => [] end in
  if isDecimalLiteral s
  then decimalToNumber (decimalValue (int ++ frac')) (List.length frac')
  else S754_nan.

Definition Number (s : list ascii) : number :=
  match s with
  | [] => S754_zero false
  | c :: r =>
      if Ascii.eqb c "-" then SFopp (unsignedLiteral r) else unsignedLiteral s
  end.


(** *** Numbers to strings *)

Definition digitChar (d : Z) : ascii := ascii_of_nat (48 + Z.to_nat d).

Fixpoint digitsOf (steps : nat) (n : Z) (acc : list ascii) : list ascii :=
  match steps with
  | O => acc
  | S steps' =>
      let acc' := digitChar (n mod 10) :: acc in
      if n <? 10 then acc' else digitsOf steps' (n / 10) acc'
  end.

(** The decimal digits of [n >= 0], most significant first. *)
Definition decimalDigits (n : Z) : list ascii :=
  digitsOf (S (Z.to_nat (Z.log2 n))) n [].

Fixpoint stripTrailingZeros (ds : list ascii) : list ascii :=
  match ds with
  | [] => []
  | d :: r =>
      match stripTrailingZeros r with
      | [] => if Ascii.eqb d "0" then [] else [d]
      | r' => d :: r'
      end
  end.

(** A positive finite double [m * 2^e] as the fraction [num / den]. *)
Definition fraction (m : positive) (e : Z) : Z * Z :=
  if 0 <=? e then (Z.pos m * 2 ^ e, 1) else (Z.pos m, 2 ^ (- e)).

Fixpoint leadingZeros (steps : nat) (num den : Z) : nat :=
  match steps with
  | O => O
  | S steps' =>
      if den <=? num then O else S (leadingZeros steps' (10 * num) den)
  end.

(** The integer [n] with [10^(n-1) <= num/den < 10^n]. *)
Definition decimalExponent (num den : Z) : Z :=
  if den <=? num then Z.of_nat (List.length (decimalDigits (num / den)))
  else 1 - Z.of_nat (leadingZeros (S (Z.to_nat (Z.log2 den))) num den).

(** The double nearest to [s * 10^p]. *)
Definition ofDecimal (s p : Z) : number :=
  if 0 <=? p then ofZ (s * 10 ^ p) else decimalToNumber s (Z.to_nat (- p)).

Definition sameNumber (x y : number) : bool :=
  match x, y with
  | S754_finite sx mx ex, S754_finite sy my ey =>
      Bool.eqb sx sy && Pos.eqb mx my && Z.eqb ex ey
  | _, _ => false
  end.

(** The shortest decimal [s * 10^p] that converts back to the double
    [m * 2^e], the nearest one if there are two, trying [k], [k+1], ...
    digits. *)
Fixpoint shortestDecimal (steps : nat) (k : Z) (m : positive) (e : Z) (n : Z)
  : Z * Z :=
  let '(num, den) := fraction m e in
  let p := n - k in
  let lo := if 0 <=? p then num / (den * 10 ^ p) else (num * 10 ^ (- p)) / den in
  let hi := lo + 1 in
  let x := S754_finite false m e in
  let okLo := sameNumber (ofDecimal lo p) x in
  let okHi := sameNumber (ofDecimal hi p) x in
  (* twice the value against the middle of [lo] and [hi] *)
  let middle :=
    if 0 <=? p then Z.compare (2 * num) ((lo + hi) * 10 ^ p * den)
    else Z.compare (2 * num * 10 ^ (- p)) ((lo + hi) * den) in
  let nearest :=
    match middle with
    | Lt => lo
    | Gt => hi
    | Eq => if Z.even lo then lo else hi
    end in
  match steps with
  | O => (nearest, p)
  | S steps' =>
      if okLo && okHi then (nearest, p)
      else if okLo then (lo, p)
      else if okHi then (hi, p)
      else shortestDecimal steps' (k + 1) m e n
  end.

Definition zeros (n : Z) : list ascii := repeat "0"%char (Z.to_nat n).

(** [Number::toString(x)] in radix 10 for a positive finite double. *)
Definition positiveToString (m : positive) (e : Z) : list ascii :=
  let '(num, den) := fraction m e in
  let '(s, p) := shortestDecimal 16 1 m e (decimalExponent num den) in
  let all := decimalDigits s in
  let n := p + Z.of_nat (List.length all) in
  let digits := stripTrailingZeros all in
  let k := Z.of_nat (List.length digits) in
  if (k <=? n) && (n <=? 21) then digits ++ zeros (n - k)
  else if (0 <? n) && (n <=? 21) then
    firstn (Z.to_nat n) digits ++ "."%char :: skipn (Z.to_nat n) digits
  else if (-6 <? n) && (n <=? 0) then
    "0"%char :: "."%char :: zeros (- n) ++ digits
  else
    let exponent :=
      "e"%char :: (if n - 1 <? 0 then "-"%char else "+"%char)
               :: decimalDigits (Z.abs (n - 1)) in
    match digits with
    | [d] => d :: exponent
    | d :: r => d :: "."%char :: r ++ exponent
    | [] => exponent
    end.

(** [String(x)], [x.toString()] *)
Definition toString (x : number) : list ascii :=
  match x with
  | S754_nan => list_ascii_of_string "NaN"
  | S754_zero _ => list_ascii_of_string "0"
  | S754_infinity s =>
      (if s then ["-"%char] else []) ++ list_ascii_of_string "Infinity"
  | S754_finite s m e =>
      (if s then ["-"%char] else []) ++ positiveToString m e
  end.

(** [x.toFixed(f)] *)
Definition toFixed (x : number) (f : nat) : list ascii :=
  match x with
  | S754_finite s m e =>
      let '(num, den) := fraction m e in
      if 10 ^ 21 * den <=? num then toString x
      else
        (* the integer nearest to [x * 10^f], the larger of two *)
        let n := (2 * num * 10 ^ Z.of_nat f + den) / (2 * den) in
        let digits := decimalDigits n in
        let padded :=
          repeat "0"%char (S f - List.length digits) ++ digits in
        let k := (List.length padded - f)%nat in
        (if s then ["-"%char] else [])
        ++ match f with
           | O => padded
           | _ => firstn k padded ++ "."%char :: skipn k padded
           end
  | S754_zero _ =>
      match f with
      | O => ["0"%char]
      | _ => "0"%char :: "."%char :: repeat "0"%char f
      end
  | _ => toString x
  end.

(** [parseFloat(s)]: the longest prefix of [s], after leading white space,
    that is a decimal literal with an optional sign and exponent. *)
Definition isTrimmable (c : ascii) : bool :=
  let n := nat_of_ascii c in
  ((9 <=? n) && (n <=? 13))%nat || (n =? 32)%nat || (n =? 160)%nat.

Fixpoint skipTrimmable (s : list ascii) : list ascii :=
  match s with
  | c :: r => if isTrimmable c then skipTrimmable r else s
  | [] => []
  end.

Definition readSign (s : list ascii) : bool * list ascii :=
  match s with
  | c :: r =>
      if Ascii.eqb c "-" then (true, r)
      else if Ascii.eqb c "+" then (false, r)
      else (false, s)
  | [] => (false, s)
  end.

Fixpoint startsWith (p s : list ascii) : bool :=
  match p, s with
  | [], _ => true
  | a :: p', b :: s' => Ascii.eqb a b && startsWith p' s'
  | _ :: _, [] => false
  end.

Definition parseFloat (input : list ascii) : number :=
  let '(sign, s) := readSign (skipTrimmable input) in
  let withSign (x : number) := if sign then SFopp x else x in
  let int := takeWhile isDigit s in
  let s1 := skipn (List.length int) s in
  let '(frac, s2) :=
    match s1 with
    | c :: r =>
        if Ascii.eqb c "."
        then (takeWhile isDigit r, skipn (List.length (takeWhile isDigit r)) r)
        else ([], s1)
    | [] => ([], s1)
    end in
  match int ++ frac with
  | [] =>
      if startsWith (list_ascii_of_string "Infinity") s
      then withSign (S754_infinity false) else S754_nan
  | mantissa =>
      let exponent :=
        match s2 with
        | c :: r =>
            if Ascii.eqb c "e" || Ascii.eqb c "E" then
              let '(esign, r') := readSign r in
              match takeWhile isDigit r' with
              | [] => 0
              | ds => if esign then - decimalValue ds else decimalValue ds
              end
            else 0
        | [] => 0
        end in
      let m := decimalValue mantissa in
      withSign (if m =? 0 then S754_zero false
                else ofDecimal m (exponent - Z.of_nat (List.length frac)))
  end.

End JS.

(** ** Tokens *)

(** [type Token = { type: 'number'; value: number }
               | { type: 'op'; value: string }
               | { type: 'paren'; value: string }];
    the [value] of an operator or parenthesis is a single character. *)
Inductive Token : Type :=
| TNumber (value : JS.number)
| TOp (value : ascii)
| TParen (value : ascii).

Definition isOpenParen (t : Token) : bool :=
  match t with TParen v => Ascii.eqb v "(" | _ => false end.

(** ** Tokenizer: the first [while] loop of [evaluateExpression] *)

(** [/[0-9.]/.test(c)] *)
Definition isNumChar (c : ascii) : bool := JS.isDigit c || Ascii.eqb c ".".

Definition isParenChar (ch : ascii) : bool := Ascii.eqb ch "(" || Ascii.eqb ch ")".

Definition isOperatorChar (ch : ascii) : bool :=
  Ascii.eqb ch "+" || Ascii.eqb ch "*" || Ascii.eqb ch "/" || Ascii.eqb ch "-".

(** [tokens.length ? tokens[tokens.length - 1] : null] *)
Definition lastToken (tokens : list Token) : option Token :=
  nth_error tokens (List.length tokens - 1).

(** [!prev || (prev.type === 'op' || (prev.type === 'paren' && prev.value === '('))] *)
Definition unaryPosition (prev : option Token) : bool :=
  match prev with
  | None => true
  | Some (TOp _) => true
  | Some (TParen v) => Ascii.eqb v "("
  | Some (TNumber _) => false
  end.

(** [while (j < len && /[0-9.]/.test(expr[j])) { numStr += expr[j]; j++; }]
    The loop runs at most [len - j] times, which is the [steps] it is given. *)
Fixpoint scanNumber (steps : nat) (expr : list ascii) (j : nat) (numStr : list ascii)
  : nat * list ascii :=
  match steps with
  | O => (j, numStr)
  | S steps' =>
      match nth_error expr j with
      | Some c =>
          if isNumChar c then scanNumber steps' expr (S j) (numStr ++ [c])
          else (j, numStr)
      | None => (j, numStr)
      end
  end.

(** One turn of [while (i < len)]: the tokens and the index after it. *)
Definition tokenizeStep (expr : list ascii) (i : nat) (ch : ascii)
    (tokens : list Token) : outcome (list Token * nat) :=
  let len := List.length expr in
  if isParenChar ch then Return (tokens ++ [TParen ch], S i)
  else if isOperatorChar ch then
    let prev := lastToken tokens in
    if Ascii.eqb ch "-" && unaryPosition prev then
      let '(j, numStr) := scanNumber (len - (i + 1)) expr (i + 1) ["-"%char] in
      if list_eq_dec ascii_dec numStr ["-"%char] then
        Return (tokens ++ [TOp ch], S i)
      else
        let value := JS.Number numStr in
        if JS.isNaN value then Throw InvalidNumber
        else Return (tokens ++ [TNumber value], j)
    else Return (tokens ++ [TOp ch], S i)
  else if isNumChar ch then
    let '(j, numStr) := scanNumber (len - i) expr i [] in
    let value := JS.Number numStr in
    if JS.isNaN value then Throw InvalidNumber
    else Return (tokens ++ [TNumber value], j)
  else Throw (InvalidCharacter ch).

(** [while (i < len) { ... }], cut after [fuel] turns. *)
Fixpoint tokenizeLoop (fuel : nat) (expr : list ascii) (i : nat)
    (tokens : list Token) : outcome (list Token) :=
  match nth_error expr i with
  | None => Return tokens
  | Some ch =>
      match fuel with
      | O => OutOfFuel
      | S fuel' =>
          '(tokens', i') <- tokenizeStep expr i ch tokens ;;
          tokenizeLoop fuel' expr i' tokens'
      end
  end.

(** Every turn consumes at least one character, so [expr.length] turns are
    enough (lemma [tokenizeLoop_fuel] below). *)
Definition tokenize (expr : list ascii) : outcome (list Token) :=
  tokenizeLoop (List.length expr) expr 0 [].

(** ** Shunting-yard: tokens to postfix form

    [output] grows at its end, as the array does.  The operator stack [ops]
    and the operand stack are only pushed and popped: they are lists with
    the top of the stack (the last array element) at the head. *)

Definition precedence (op : ascii) : nat :=
  if Ascii.eqb op "+" || Ascii.eqb op "-" then 1%nat else 2%nat.

(** The [while (ops.length)] loop of the operator case. *)
Fixpoint popOperators (value : ascii) (ops output : list Token)
  : list Token * list Token :=
  match ops with
  | TOp top :: ops' =>
      if (precedence value <? precedence top)%nat
         || (precedence top =? precedence value)%nat
      then popOperators value ops' (output ++ [TOp top])
      else (ops, output)
  | _ => (ops, output)
  end.

(** The closing-parenthesis case: pop to the output until ['('] is popped. *)
Fixpoint popToOpenParen (ops output : list Token)
  : outcome (list Token * list Token) :=
  match ops with
  | [] => Throw MismatchedParentheses
  | popped :: ops' =>
      if isOpenParen popped then Return (ops', output)
      else popToOpenParen ops' (output ++ [popped])
  end.

(** [for (const t of tokens) { ... }] *)
Fixpoint shuntingYard (tokens ops output : list Token)
  : outcome (list Token * list Token) :=
  match tokens with
  | [] => Return (ops, output)
  | t :: rest =>
      match t with
      | TNumber _ => shuntingYard rest ops (output ++ [t])
      | TOp value =>
          let '(ops', output') := popOperators value ops output in
          shuntingYard rest (t :: ops') output'
      | TParen value =>
          if Ascii.eqb value "(" then shuntingYard rest (t :: ops) output
          else
            '(ops', output') <- popToOpenParen ops output ;;
            shuntingYard rest ops' output'
      end
  end.

(** [while (ops.length) { ... }] after the tokens are consumed. *)
Fixpoint drainOperators (ops output : list Token) : outcome (list Token) :=
  match ops with
  | [] => Return output
  | popped :: ops' =>
      match popped with
      | TParen _ => Throw MismatchedParentheses
      | _ => drainOperators ops' (output ++ [popped])
      end
  end.

Definition toPostfix (tokens : list Token) : outcome (list Token) :=
  '(ops, output) <- shuntingYard tokens [] [] ;;
  drainOperators ops output.

(** ** Postfix evaluation *)

(** The [switch (t.value)] of the operator case. *)
Definition applyOperator (value : ascii) (a b : JS.number) : outcome JS.number :=
  if Ascii.eqb value "+" then Return (JS.add a b)
  else if Ascii.eqb value "-" then Return (JS.sub a b)
  else if Ascii.eqb value "*" then Return (JS.mul a b)
  else if Ascii.eqb value "/" then
    if JS.strictEq b JS.zero then Throw DivisionByZero
    else Return (JS.div a b)
  else Throw (UnknownOperator value).

(** [for (const t of output) { ... }] *)
Fixpoint evalPostfix (output : list Token) (stack : list JS.number)
  : outcome (list JS.number) :=
  match output with
  | [] => Return stack
  | t :: rest =>
      match t with
      | TNumber value => evalPostfix rest (value :: stack)
      | TOp value =>
          match stack with
          | b :: a :: stack' =>
              res <- applyOperator value a b ;;
              evalPostfix rest (res :: stack')
          | _ => Throw MalformedExpression
          end
      | TParen _ => evalPostfix rest stack
      end
  end.

(** [if (stack.length !== 1) throw ...; return stack[0];] *)
Definition finalValue (stack : list JS.number) : outcome JS.number :=
  match stack with
  | [v] => Return v
  | _ => Throw MalformedExpression
  end.

Definition evaluateTokens (tokens : list Token) : outcome JS.number :=
  output <- toPostfix tokens ;;
  stack <- evalPostfix output [] ;;
  finalValue stack.

Definition evaluateChars (expr : list ascii) : outcome JS.number :=
  tokens <- tokenize expr ;;
  evaluateTokens tokens.

Definition evaluateExpression (expr : string) : outcome JS.number :=
  evaluateChars (list_ascii_of_string expr).

(** [Returns o q]: the outcome is a finite number whose value is [q]. *)
Definition Returns (o : outcome JS.number) (q : Q) : Prop :=
  match o with
  | Return v =>
      match JS.realValue v with
      | Some r => Qeq r q
      | None => False
      end
  | _ => False
  end.

(** ** The caller: [QueryProcessor]

    Strings are sequences of the code units below 256, on which the string
    methods and regular expressions used by [QueryProcessor] are modelled. *)

Definition codeOf (c : ascii) : nat := nat_of_ascii c.

(** [String.prototype.toLowerCase], one code unit at a time. *)
Definition toLowerChar (c : ascii) : ascii :=
  let n := codeOf c in
  if ((65 <=? n) && (n <=? 90))%nat
     || ((192 <=? n) && (n <=? 222) && negb (n =? 215))%nat
  then ascii_of_nat (n + 32) else c.

Definition toLowerCase (s : list ascii) : list ascii := map toLowerChar s.

(** [\s] *)
Definition isWhitespace (c : ascii) : bool :=
  let n := codeOf c in
  ((9 <=? n) && (n <=? 13))%nat || (n =? 32)%nat || (n =? 160)%nat.

(** [\w] *)
Definition isWordChar (c : ascii) : bool :=
  let n := codeOf c in
  ((48 <=? n) && (n <=? 57))%nat || ((65 <=? n) && (n <=? 90))%nat
  || ((97 <=? n) && (n <=? 122))%nat || (n =? 95)%nat.

Fixpoint isPrefixOf (p s : list ascii) : bool :=
  match p, s with
  | [], _ => true
  | _ :: _, [] => false
  | a :: p', b :: s' => Ascii.eqb a b && isPrefixOf p' s'
  end.

(** [s.includes(p)] *)
Fixpoint includes (s p : list ascii) : bool :=
  isPrefixOf p s
  || match s with
     | [] => false
     | _ :: s' => includes s' p
     end.

(** *** [q.matchAll(/-?\d+\.?\d*/g)] *)

(** The length of the match of [-?\d+\.?\d*] at the start of [s], if any. *)
Definition matchNumberAt (s : list ascii) : option nat :=
  let '(sign, s1) :=
    match s with
    | c :: r => if Ascii.eqb c "-" then (1%nat, r) else (O, s)
    | [] => (O, s)
    end in
  let int := takeWhile JS.isDigit s1 in
  match int with
  | [] => None
  | _ =>
      let s2 := skipn (List.length int) s1 in
      let frac :=
        match s2 with
        | c :: r => if Ascii.eqb c "." then S (List.length (takeWhile JS.isDigit r)) else O
        | [] => O
        end in
      Some (sign + List.length int + frac)%nat
  end.

(** The matches, left to right; [skip] characters of the last match are
    still to be passed over. *)
Fixpoint matchAllNumbers (skip : nat) (s : list ascii) : list (list ascii) :=
  match s with
  | [] => []
  | _ :: r =>
      match skip with
      | S k => matchAllNumbers k r
      | O =>
          match matchNumberAt s with
          | Some n => firstn n s :: matchAllNumbers (n - 1) r
          | None => matchAllNumbers O r
          end
      end
  end.

(** *** [s.replace(/\bw1\b|\bw2\b|.../gmi, replacement)] *)

(** A lower-case pattern character against a subject character, ignoring case. *)
Definition eqbIgnoreCase (p c : ascii) : bool :=
  let n := codeOf c in
  Ascii.eqb p (if ((65 <=? n) && (n <=? 90))%nat then ascii_of_nat (n + 32) else c).

(** Matches the literal [pattern] at the start of [s]: the last matched
    character and the rest of [s]. *)
Fixpoint matchLiteral (pattern s : list ascii) (last : option ascii)
  : option (option ascii * list ascii) :=
  match pattern with
  | [] => Some (last, s)
  | p :: pattern' =>
      match s with
      | c :: s' => if eqbIgnoreCase p c then matchLiteral pattern' s' (Some c) else None
      | [] => None
      end
  end.

Definition isWord (c : option ascii) : bool :=
  match c with Some c => isWordChar c | None => false end.

(** [\b] between the characters [before] and [after]. *)
Definition wordBoundary (before after : option ascii) : bool :=
  xorb (isWord before) (isWord after).

(** The length of the first of the alternatives [\bword\b] that matches at
    the start of [s], which [prev] precedes. *)
Fixpoint matchWordAt (words : list (list ascii)) (prev : option ascii)
    (s : list ascii) : option nat :=
  match words with
  | [] => None
  | word :: words' =>
      match matchLiteral word s None with
      | Some (last, rest) =>
          if wordBoundary prev (hd_error s) && wordBoundary last (hd_error rest)
          then Some (List.length word)
          else matchWordAt words' prev s
      | None => matchWordAt words' prev s
      end
  end.

Fixpoint replaceWords (words : list (list ascii)) (replacement : list ascii)
    (prev : option ascii) (skip : nat) (s : list ascii) : list ascii :=
  match s with
  | [] => []
  | c :: r =>
      match skip with
      | S k => replaceWords words replacement (Some c) k r
      | O =>
          match matchWordAt words prev s with
          | Some (S k) => replacement ++ replaceWords words replacement (Some c) k r
          | _ => c :: replaceWords words replacement (Some c) O r
          end
      end
  end.

Definition lit (s : string) : list ascii := list_ascii_of_string s.

(** The four [replace] calls; the alternatives are listed in the order in
    which the regular expression tries them. *)
Definition preprocessWords (q : list ascii) : list ascii :=
  let s1 := replaceWords [lit "plus"; lit "added to"; lit "add"] (lit "+") None O q in
  let s2 := replaceWords [lit "minus"; lit "subtracted from"; lit "subtracted";
                          lit "subtract from"; lit "subtract"] (lit "-") None O s1 in
  let s3 := replaceWords [lit "times"; lit "multiplied by"; lit "multiply"]
              (lit "*") None O s2 in
  replaceWords [lit "divided by"; lit "divide"] (lit "/") None O s3.

(** *** The candidate expression *)

(** [[0-9+\-*/().]] *)
Definition isExpressionChar (c : ascii) : bool :=
  JS.isDigit c || isOperatorChar c || isParenChar c || Ascii.eqb c ".".

(** [preprocess.match(/[0-9(][0-9+\-*/().\s]*/)] *)
Fixpoint matchCandidate (s : list ascii) : option (list ascii) :=
  match s with
  | [] => None
  | c :: r =>
      if JS.isDigit c || Ascii.eqb c "("
      then Some (c :: takeWhile (fun x => isExpressionChar x || isWhitespace x) r)
      else matchCandidate r
  end.

Fixpoint dropWhile {A : Type} (f : A -> bool) (l : list A) : list A :=
  match l with
  | [] => []
  | x :: r => if f x then dropWhile f r else l
  end.

(** [s.trim()] *)
Definition trim (s : list ascii) : list ascii :=
  rev (dropWhile isWhitespace (rev (dropWhile isWhitespace s))).

(** [s.replace(/\s+/g, '')]: white space is removed. *)
Definition removeWhitespace (s : list ascii) : list ascii :=
  filter (fun c => negb (isWhitespace c)) s.

(** [/^[0-9+\-*/().]+$/.test(expr)] *)
Definition isExpression (expr : list ascii) : bool :=
  match expr with
  | [] => false
  | _ => forallb isExpressionChar expr
  end.

(** *** The body of [QueryProcessor] *)

(** [if (Math.floor(x) === x) return String(x);
     return String(parseFloat(x.toFixed(10)).toString());] *)
Definition formatNumber (x : JS.number) : list ascii :=
  if JS.strictEq (JS.floor x) x then JS.toString x
  else JS.toString (JS.parseFloat (JS.toFixed x 10)).

(** The first [if]: the value returned from it, if any. *)
Definition largestAnswer (q lower : list ascii) : option (list ascii) :=
  if includes lower (lit "largest") || includes lower (lit "largest:")
     || includes lower (lit "which of the following numbers is the largest")
  then
    let nums := filter (fun n => negb (JS.isNaN n))
                  (map JS.Number (matchAllNumbers O q)) in
    match nums with
    | [] => None
    | _ => Some (formatNumber (JS.max nums))
    end
  else None.

(** The [try] block with its [catch]: the value returned from inside the
    block, if any; an error thrown by [evaluateExpression] is caught and
    nothing is returned. *)
Definition tryEvaluate (expr : list ascii) : outcome (option (list ascii)) :=
  try_catch
    (value <- evaluateChars expr ;;
     if JS.isFinite value then Return (Some (formatNumber value))
     else Return None)
    (fun _ => Return None).

(** The second [if]: the value returned from it, if any. *)
Definition mathAnswer (q : list ascii) : outcome (option (list ascii)) :=
  match matchCandidate (preprocessWords q) with
  | Some candidate =>
      let expr := removeWhitespace (trim candidate) in
      if isExpression expr then tryEvaluate expr else Return None
  | None => Return None
  end.

(** The keyword handlers and the final return of the empty string. *)
Definition keywordAnswer (lower : list ascii) : list ascii :=
  if includes lower (lit "shakespeare") then
    lit ("William Shakespeare (26 April 1564 - 23 April 1616) was an "
         ++ "English poet, playwright, and actor, widely regarded as the greatest "
         ++ "writer in the English language and the world's pre-eminent dramatist.")
  else if includes lower (lit "gameid") then lit "5f34a61a"
  else if includes lower (lit "playerid") then lit "97b91e1a"
  else if includes lower (lit "your name") then lit "Rohan"
  else if includes lower (lit "name") then lit "andremildeluxe"
  else if includes lower (lit "my andrewid") then lit "andremil"
  else [].

Definition QueryProcessor (query : string) : outcome string :=
  let q := list_ascii_of_string query in     (* query, or the empty string *)
  let lower := toLowerCase q in
  match largestAnswer q lower with
  | Some answer => Return (string_of_list_ascii answer)
  | None =>
      answer <- mathAnswer q ;;
      match answer with
      | Some answer => Return (string_of_list_ascii answer)
      | None => Return (string_of_list_ascii (keywordAnswer lower))
      end
  end.

(** ** Specification-side notions *)

(** The maximal run of [[0-9.]] characters of [expr] that starts at index [j]. *)
Definition numberRun (expr : list ascii) (j : nat) : list ascii :=
  takeWhile isNumChar (skipn j expr).

(** The tokenizer loop with the iterations it needs. *)
Definition tokenizeFrom (expr : list ascii) (i : nat) (tokens : list Token)
  : outcome (list Token) :=
  tokenizeLoop (List.length expr - i) expr i tokens.

(** What one turn of the tokenizer does, with the scans replaced by the
    maximal runs they collect. *)
Definition tokenizeStepSpec (expr : list ascii) (i : nat) (ch : ascii)
    (tokens : list Token) : outcome (list Token * nat) :=
  if isParenChar ch then Return (tokens ++ [TParen ch], S i)
  else if isOperatorChar ch then
    if Ascii.eqb ch "-" && unaryPosition (lastToken tokens) then
      match numberRun expr (S i) with
      | [] => Return (tokens ++ [TOp ch], S i)
      | run =>
          let value := JS.Number ("-"%char :: run) in
          if JS.isNaN value then Throw InvalidNumber
          else Return (tokens ++ [TNumber value], (S i + List.length run)%nat)
      end
    else Return (tokens ++ [TOp ch], S i)
  else if isNumChar ch then
    let run := numberRun expr i in
    let value := JS.Number run in
    if JS.isNaN value then Throw InvalidNumber
    else Return (tokens ++ [TNumber value], (i + List.length run)%nat)
  else Throw (InvalidCharacter ch).

(** Where a run of number characters stops. *)
Definition stops (rest : list ascii) : Prop :=
  match rest with
  | [] => True
  | c :: _ => isNumChar c = false
  end.

(** The number of decimal points of a run of characters. *)
Definition countDots (s : list ascii) : nat := count_occ ascii_dec s "."%char.

(** Operators of the two precedence levels. *)
Definition isAdditive (op : ascii) : bool := Ascii.eqb op "+" || Ascii.eqb op "-".
Definition isMultiplicative (op : ascii) : bool := Ascii.eqb op "*" || Ascii.eqb op "/".

(** Parentheses of a token sequence nest properly, [depth] of them being
    open at its start. *)
Fixpoint balanced (depth : nat) (tokens : list Token) : bool :=
  match tokens with
  | [] => Nat.eqb depth 0
  | TParen v :: rest =>
      if Ascii.eqb v "(" then balanced (S depth) rest
      else match depth with
           | O => false
           | S depth' => balanced depth' rest
           end
  | _ :: rest => balanced depth rest
  end.

(** The number of parentheses waiting on the operator stack. *)
Fixpoint parenCount (ops : list Token) : nat :=
  match ops with
  | [] => O
  | TParen _ :: ops' => S (parenCount ops')
  | _ :: ops' => parenCount ops'
  end.

(** What the operator stack holds: operators and opening parentheses. *)
Definition opsEntry (t : Token) : bool :=
  match t with
  | TOp _ => true
  | TParen v => Ascii.eqb v "("
  | TNumber _ => false
  end.

(** *** Well-formed expressions

    [[
      expression ::= operand (operator operand)*
      operand    ::= number | '-' number | '(' expression ')'
      number     ::= digit+ ('.' digit+)?
      operator   ::= '+' | '-' | '*' | '/'
    ]]
    recognised by an automaton that reads the characters from left to right
    and counts the parentheses that are open. *)
Inductive Reading : Type :=
| ExpectOperand     (* at the start of an operand *)
| AfterSign         (* after the sign of a number *)
| InInteger         (* in the digits before the decimal point *)
| AfterPoint        (* after the decimal point *)
| InFraction        (* in the digits after the decimal point *)
| AfterClose.       (* after a closing parenthesis *)

Fixpoint wellFormedFrom (st : Reading) (depth : nat) (s : list ascii) : bool :=
  match s with
  | [] =>
      match st with
      | InInteger | InFraction | AfterClose => Nat.eqb depth 0
      | _ => false
      end
  | c :: r =>
      let afterOperand :=
        if isOperatorChar c then wellFormedFrom ExpectOperand depth r
        else if Ascii.eqb c ")" then
          match depth with
          | O => false
          | S depth' => wellFormedFrom AfterClose depth' r
          end
        else false in
      match st with
      | ExpectOperand =>
          if Ascii.eqb c "(" then wellFormedFrom ExpectOperand (S depth) r
          else if Ascii.eqb c "-" then wellFormedFrom AfterSign depth r
          else if JS.isDigit c then wellFormedFrom InInteger depth r
          else false
      | AfterSign =>
          if JS.isDigit c then wellFormedFrom InInteger depth r else false
      | InInteger =>
          if JS.isDigit c then wellFormedFrom InInteger depth r
          else if Ascii.eqb c "." then wellFormedFrom AfterPoint depth r
          else afterOperand
      | AfterPoint =>
          if JS.isDigit c then wellFormedFrom InFraction depth r else false
      | InFraction =>
          if JS.isDigit c then wellFormedFrom InFraction depth r
          else afterOperand
      | AfterClose => afterOperand
      end
  end.

Definition wellFormed (expr : string) : bool :=
  wellFormedFrom ExpectOperand 0 (list_ascii_of_string expr).

(** The same on tokens: operands and operators alternate, and the
    parentheses nest; [operand] tells whether an operand is expected next. *)
Fixpoint wellFormedTokens (operand : bool) (depth : nat) (tokens : list Token)
  : bool :=
  match tokens with
  | [] => negb operand && Nat.eqb depth 0
  | TNumber _ :: rest => operand && wellFormedTokens false depth rest
  | TOp value :: rest =>
      negb operand && isOperatorChar value && wellFormedTokens true depth rest
  | TParen value :: rest =>
      if Ascii.eqb value "(" then operand && wellFormedTokens true (S depth) rest
      else negb operand
           && match depth with
              | O => false
              | S depth' => wellFormedTokens false depth' rest
              end
  end.

(** The height of the operand stack after the postfix sequence [output] is
    evaluated on a stack of height [h], when no operator lacks an operand. *)
Fixpoint postfixHeight (output : list Token) (h : nat) : option nat :=
  match output with
  | [] => Some h
  | TNumber _ :: rest => postfixHeight rest (S h)
  | TOp value :: rest =>
      if isOperatorChar value then
        match h with
        | S (S h') => postfixHeight rest (S h')
        | _ => None
        end
      else None
  | TParen _ :: rest => None
  end.

(** The operators waiting on the operator stack. *)
Fixpoint operatorCount (ops : list Token) : nat :=
  match ops with
  | [] => O
  | TOp _ :: ops' => S (operatorCount ops')
  | _ :: ops' => operatorCount ops'
  end.

(** Operator-stack entries of a well-formed expression. *)
Definition knownEntry (t : Token) : bool :=
  match t with
  | TOp value => isOperatorChar value
  | TParen value => Ascii.eqb value "("
  | TNumber _ => false
  end.

(** The shunting-yard loop on a well-formed expression: the operator stack
    holds known entries, and the output evaluates to one value for each
    waiting operator, plus [pending]: 1 when the operand in progress is
    complete, 0 when it is still to come. *)
Definition invariant (pending : nat) (ops output : list Token) : Prop :=
  forallb knownEntry ops = true
  /\ postfixHeight output 0 = Some (operatorCount ops + pending)%nat.

(** The first value pushed on the operand stack that is not finite, while
    the postfix sequence [output] is evaluated on [stack]. *)
Fixpoint firstNonFinite (output : list Token) (stack : list JS.number)
  : option JS.number :=
  match output with
  | [] => None
  | TNumber value :: rest =>
      if JS.isFinite value then firstNonFinite rest (value :: stack)
      else Some value
  | TOp value :: rest =>
      match stack with
      | b :: a :: stack' =>
          match applyOperator value a b with
          | Return res =>
              if JS.isFinite res then firstNonFinite rest (res :: stack')
              else Some res
          | _ => None
          end
      | _ => None
      end
  | TParen _ :: rest => firstNonFinite rest stack
  end.

(** A token that is not a [NaN] number. *)
Definition notNaN (t : Token) : Prop :=
  match t with
  | TNumber value => JS.isNaN value = false
  | _ => True
  end.

(** The product of [n + 1] factors [10], written out: ["10*10*...*10"]. *)
Fixpoint tenTimes (n : nat) : string :=
  match n with
  | O => "10"
  | S n' => "10*" ++ tenTimes n'
  end%string.

(** *** Expression trees

    An expression as a tree: a literal with an optional sign, a binary
    operation, or a parenthesised expression. *)
Inductive Expr : Type :=
| Literal (negative : bool) (digits : list ascii)
| Binary (op : ascii) (lhs rhs : Expr)
| Group (inner : Expr).

(** The binding strength of a tree: that of its operator, and 3 for a
    literal or a group. *)
Definition level (e : Expr) : nat :=
  match e with
  | Binary op _ _ => precedence op
  | _ => 3%nat
  end.

(** The trees that are what they look like when written without redundant
    parentheses: the first operand binds at least as tightly as the
    operator, the second operand more tightly, and the literals are decimal
    literals. *)
Fixpoint properExpr (e : Expr) : bool :=
  match e with
  | Literal _ digits => JS.isDecimalLiteral digits
  | Binary op lhs rhs =>
      isOperatorChar op
      && (precedence op <=? level lhs)%nat && (precedence op <? level rhs)%nat
      && properExpr lhs && properExpr rhs
  | Group inner => properExpr inner
  end.

(** The expression written out. *)
Fixpoint render (e : Expr) : list ascii :=
  match e with
  | Literal negative digits => (if negative then ["-"%char] else []) ++ digits
  | Binary op lhs rhs => render lhs ++ op :: render rhs
  | Group inner => "("%char :: render inner ++ [")"%char]
  end.

Definition literalValue (negative : bool) (digits : list ascii) : JS.number :=
  if negative then SFopp (JS.unsignedLiteral digits) else JS.unsignedLiteral digits.

(** Its tokens. *)
Fixpoint tokensOf (e : Expr) : list Token :=
  match e with
  | Literal negative digits => [TNumber (literalValue negative digits)]
  | Binary op lhs rhs => tokensOf lhs ++ TOp op :: tokensOf rhs
  | Group inner => TParen "(" :: tokensOf inner ++ [TParen ")"]
  end.

(** Its postfix form. *)
Fixpoint postfixOf (e : Expr) : list Token :=
  match e with
  | Literal negative digits => [TNumber (literalValue negative digits)]
  | Binary op lhs rhs => postfixOf lhs ++ postfixOf rhs ++ [TOp op]
  | Group inner => postfixOf inner
  end.

(** Its value: the operands in order, then the operator. *)
Fixpoint valueOf (e : Expr) : outcome JS.number :=
  match e with
  | Literal negative digits => Return (literalValue negative digits)
  | Binary op lhs rhs =>
      a <- valueOf lhs ;;
      b <- valueOf rhs ;;
      applyOperator op a b
  | Group inner => valueOf inner
  end.

(** The precedence of the operator on top of the operator stack, 0 when
    the top is a parenthesis or the stack is empty. *)
Definition topPrecedence (ops : list Token) : nat :=
  match ops with
  | TOp top :: _ => precedence top
  | _ => O
  end.

(** A waiting operator of precedence at least [p]. *)
Definition operatorAtLeast (p : nat) (t : Token) : Prop :=
  match t with
  | TOp op => (p <= precedence op)%nat
  | _ => False
  end.

(** The tokens the tokenizer builds: a number that is not [NaN], one of
    the four operators, one of the two parentheses. *)
Definition validToken (t : Token) : bool :=
  match t with
  | TNumber value => negb (JS.isNaN value)
  | TOp value => isOperatorChar value
  | TParen value => isParenChar value
  end.

(** The operands of a token sequence, in order. *)
Fixpoint numbersOf (tokens : list Token) : list JS.number :=
  match tokens with
  | [] => []
  | TNumber value :: rest => value :: numbersOf rest
  | _ :: rest => numbersOf rest
  end.

(** What moving tokens between the operator stack and the output keeps:
    the operands of the output, the number of operators in both together,
    and the absence of parentheses from the output. *)
Definition moved (ops output ops' output' : list Token) : Prop :=
  forallb opsEntry ops' = true
  /\ numbersOf output' = numbersOf output
  /\ (operatorCount output' + operatorCount ops'
      = operatorCount output + operatorCount ops)%nat
  /\ parenCount output' = parenCount output.

(** An expression in parentheses. *)
Definition parenthesised (expr : list ascii) : list ascii :=
  "("%char :: expr ++ [")"%char].

(** A word that starts with a lower-case letter. *)
Definition startsWithLetter (word : list ascii) : bool :=
  match word with
  | p :: _ => ((97 <=? codeOf p) && (codeOf p <=? 122))%nat
  | [] => false
  end.

(** What [QueryProcessor] answers when the evaluation of the candidate
    [expr] gives [result]: the formatted number when it is finite, and
    otherwise what the keyword handlers say. *)
Definition answerOf (result : outcome JS.number) (keywords : list ascii)
  : list ascii :=
  match result with
  | Return value => if JS.isFinite value then formatNumber value else keywords
  | _ => keywords
  end.

(** * Properties *)

(** ** The outcome monad *)

Lemma bind_not_OutOfFuel {A B : Type} (m : outcome A) (k : A -> outcome B) :
  m <> OutOfFuel -> (forall a, m = Return a -> k a <> OutOfFuel) ->
  bind m k <> OutOfFuel.
Proof. destruct m; simpl; intros Hm Hk; auto. discriminate. Qed.

(** ** The number scan *)

Lemma takeWhile_length {A : Type} (f : A -> bool) (l : list A) :
  (List.length (takeWhile f l) <= List.length l)%nat.
Proof. induction l as [|x r IH]; simpl; [lia|]. destruct (f x); simpl; lia. Qed.

Lemma takeWhile_app_stop {A : Type} (f : A -> bool) (run rest : list A) :
  Forall (fun x => f x = true) run ->
  match rest with [] => True | c :: _ => f c = false end ->
  takeWhile f (run ++ rest) = run.
Proof.
  induction 1 as [|x r Hx _ IH]; simpl; intros Hrest.
  - destruct rest as [|c rest]; simpl; [reflexivity|]. now rewrite Hrest.
  - rewrite Hx. f_equal. now apply IH.
Qed.

Lemma skipn_nth_error {A : Type} (l : list A) (j : nat) (c : A) :
  nth_error l j = Some c -> skipn j l = c :: skipn (S j) l.
Proof.
  revert j; induction l as [|x r IH]; intros [|j]; simpl; try discriminate.
  - now intros [= ->].
  - intros H. now apply IH.
Qed.

Lemma skipn_nth_error_None {A : Type} (l : list A) (j : nat) :
  nth_error l j = None -> skipn j l = [].
Proof. intros H. apply skipn_all2. now apply nth_error_None. Qed.

Lemma numberRun_length (expr : list ascii) (j : nat) :
  (j + List.length (numberRun expr j) <= Nat.max j (List.length expr))%nat.
Proof.
  unfold numberRun.
  pose proof (takeWhile_length isNumChar (skipn j expr)) as H.
  rewrite length_skipn in H. lia.
Qed.

Lemma scanNumber_spec (steps : nat) (expr : list ascii) :
  forall (j : nat) (numStr : list ascii),
    (List.length expr - j <= steps)%nat ->
    scanNumber steps expr j numStr
    = ((j + List.length (numberRun expr j))%nat, numStr ++ numberRun expr j).
Proof.
  induction steps as [|steps IH]; intros j numStr Hsteps; simpl.
  - unfold numberRun. rewrite skipn_all2 by lia. simpl.
    now rewrite Nat.add_0_r, app_nil_r.
  - unfold numberRun. destruct (nth_error expr j) as [c|] eqn:Hj.
    + rewrite (skipn_nth_error _ _ _ Hj). simpl.
      destruct (isNumChar c).
      * rewrite IH by lia. unfold numberRun. simpl.
        rewrite <- app_assoc. simpl. f_equal. lia.
      * simpl. now rewrite Nat.add_0_r, app_nil_r.
    + rewrite (skipn_nth_error_None _ _ Hj). simpl.
      now rewrite Nat.add_0_r, app_nil_r.
Qed.

(** ** The tokenizer loop makes progress *)

Lemma tokenizeStep_spec (expr : list ascii) (i : nat) (ch : ascii)
    (tokens : list Token) :
  tokenizeStep expr i ch tokens = tokenizeStepSpec expr i ch tokens.
Proof.
  unfold tokenizeStep, tokenizeStepSpec.
  destruct (isParenChar ch); [reflexivity|].
  destruct (isOperatorChar ch).
  - destruct (Ascii.eqb ch "-" && unaryPosition (lastToken tokens)); [|reflexivity].
    rewrite scanNumber_spec by lia.
    replace (i + 1)%nat with (S i) by lia.
    destruct (numberRun expr (S i)) as [|c run] eqn:Hrun.
    + simpl. destruct (list_eq_dec ascii_dec ["-"%char] ["-"%char]); congruence.
    + cbn [app].
      destruct (list_eq_dec ascii_dec ("-"%char :: c :: run) ["-"%char]) as [E|_];
        [discriminate|reflexivity].
  - destruct (isNumChar ch); [|reflexivity].
    rewrite scanNumber_spec by lia. reflexivity.
Qed.

Lemma tokenizeStep_progress (expr : list ascii) (i : nat) (ch : ascii)
    (tokens tokens' : list Token) (i' : nat) :
  nth_error expr i = Some ch ->
  tokenizeStep expr i ch tokens = Return (tokens', i') ->
  (i < i' <= List.length expr)%nat.
Proof.
  intros Hch. rewrite tokenizeStep_spec. unfold tokenizeStepSpec.
  assert (Hi : (i < List.length expr)%nat)
    by (apply nth_error_Some; congruence).
  pose proof (numberRun_length expr (S i)) as HS.
  pose proof (numberRun_length expr i) as Hi0.
  destruct (isParenChar ch); [intros [= <- <-]; lia|].
  destruct (isOperatorChar ch).
  - destruct (Ascii.eqb ch "-" && unaryPosition (lastToken tokens));
      [|intros [= <- <-]; lia].
    destruct (numberRun expr (S i)) as [|c run]; [intros [= <- <-]; lia|].
    destruct (JS.isNaN _); [discriminate|]. intros [= <- <-].
    cbn [List.length] in HS |- *. lia.
  - destruct (isNumChar ch) eqn:Hnum; [|discriminate].
    destruct (JS.isNaN _); [discriminate|]. intros [= <- <-].
    unfold numberRun in Hi0 |- *. rewrite (skipn_nth_error _ _ _ Hch) in Hi0 |- *.
    cbn [takeWhile] in Hi0 |- *. rewrite Hnum in Hi0 |- *.
    cbn [List.length] in Hi0 |- *. lia.
Qed.

Lemma tokenizeStep_not_OutOfFuel (expr : list ascii) (i : nat) (ch : ascii)
    (tokens : list Token) :
  tokenizeStep expr i ch tokens <> OutOfFuel.
Proof.
  rewrite tokenizeStep_spec. unfold tokenizeStepSpec.
  repeat match goal with
         | |- context [if ?b then _ else _] => destruct b
         | |- context [match ?l with [] => _ | _ :: _ => _ end] => destruct l
         end; discriminate.
Qed.

(** [expr.length - i] turns are enough: the loop does not run out of them. *)
Lemma tokenizeLoop_fuel (fuel : nat) (expr : list ascii) :
  forall (i : nat) (tokens : list Token),
    (List.length expr - i <= fuel)%nat ->
    tokenizeLoop fuel expr i tokens <> OutOfFuel.
Proof.
  induction fuel as [|fuel IH]; intros i tokens Hfuel; simpl.
  - destruct (nth_error expr i) eqn:Hi; [|discriminate].
    assert (i < List.length expr)%nat by (apply nth_error_Some; congruence). lia.
  - destruct (nth_error expr i) as [ch|] eqn:Hi; [|discriminate].
    apply bind_not_OutOfFuel; [apply tokenizeStep_not_OutOfFuel|].
    intros [tokens' i'] Hstep.
    apply IH. pose proof (tokenizeStep_progress _ _ _ _ _ _ Hi Hstep). lia.
Qed.

(** More turns than needed change nothing. *)
Lemma tokenizeLoop_fuel_irrelevant (fuel1 : nat) (expr : list ascii) :
  forall (fuel2 i : nat) (tokens : list Token),
    (List.length expr - i <= fuel1)%nat ->
    (List.length expr - i <= fuel2)%nat ->
    tokenizeLoop fuel1 expr i tokens = tokenizeLoop fuel2 expr i tokens.
Proof.
  induction fuel1 as [|fuel1 IH]; intros fuel2 i tokens H1 H2.
  - destruct fuel2; simpl; destruct (nth_error expr i) eqn:Hi; try reflexivity;
      assert (i < List.length expr)%nat by (apply nth_error_Some; congruence); lia.
  - destruct fuel2; simpl; destruct (nth_error expr i) as [ch|] eqn:Hi;
      try reflexivity.
    + assert (i < List.length expr)%nat by (apply nth_error_Some; congruence). lia.
    + destruct (tokenizeStep expr i ch tokens) as [[tokens' i']| |] eqn:Hstep;
        simpl; try reflexivity.
      pose proof (tokenizeStep_progress _ _ _ _ _ _ Hi Hstep).
      apply IH; lia.
Qed.

(** The loop, one turn unfolded. *)
Lemma tokenizeFrom_unfold (expr : list ascii) (i : nat) (tokens : list Token) :
  tokenizeFrom expr i tokens
  = match nth_error expr i with
    | None => Return tokens
    | Some ch =>
        '(tokens', i') <- tokenizeStepSpec expr i ch tokens ;;
        tokenizeFrom expr i' tokens'
    end.
Proof.
  unfold tokenizeFrom.
  destruct (nth_error expr i) as [ch|] eqn:Hi.
  - assert (Hlt : (i < List.length expr)%nat) by (apply nth_error_Some; congruence).
    destruct (List.length expr - i)%nat as [|fuel] eqn:Hfuel; [lia|].
    simpl. rewrite Hi, <- tokenizeStep_spec.
    destruct (tokenizeStep expr i ch tokens) as [[tokens' i']| |] eqn:Hstep;
      simpl; try reflexivity.
    pose proof (tokenizeStep_progress _ _ _ _ _ _ Hi Hstep).
    apply tokenizeLoop_fuel_irrelevant; lia.
  - destruct (List.length expr - i)%nat; simpl; now rewrite Hi.
Qed.

Lemma tokenize_tokenizeFrom (expr : list ascii) :
  tokenize expr = tokenizeFrom expr 0 [].
Proof. unfold tokenize, tokenizeFrom. now rewrite Nat.sub_0_r. Qed.

(** ** Rounding never invents a NaN *)

Lemma shr_1_nonneg (mrs : shr_record) :
  0 <= shr_m mrs -> 0 <= shr_m (shr_1 mrs).
Proof.
  destruct mrs as [m r s]; simpl.
  destruct m as [|[p|p|]|p]; simpl; lia.
Qed.

Lemma iter_pos_shr_1_nonneg (p : positive) :
  forall mrs, 0 <= shr_m mrs -> 0 <= shr_m (iter_pos shr_1 p mrs).
Proof.
  induction p as [p IH|p IH|]; intros mrs H; simpl.
  - apply IH, IH, shr_1_nonneg, H.
  - apply IH, IH, H.
  - apply shr_1_nonneg, H.
Qed.

Lemma shr_fexp_nonneg (m e : Z) (l : location) :
  0 <= m -> 0 <= shr_m (fst (shr_fexp JS.prec JS.emax m e l)).
Proof.
  intros Hm. unfold shr_fexp, shr.
  assert (H0 : 0 <= shr_m (shr_record_of_loc m l))
    by (destruct l as [|[]]; simpl; exact Hm).
  destruct (fexp JS.prec JS.emax (Zdigits2 m + e) - e); simpl; try exact H0.
  now apply iter_pos_shr_1_nonneg.
Qed.

Lemma round_nearest_even_nonneg (m : Z) (l : location) :
  0 <= m -> 0 <= round_nearest_even m l.
Proof.
  intros Hm. destruct l as [|[]]; simpl; try lia.
  destruct (Z.even m); lia.
Qed.

Lemma binary_round_aux_not_nan (s : bool) (m e : Z) (l : location) :
  0 <= m -> JS.isNaN (binary_round_aux JS.prec JS.emax s m e l) = false.
Proof.
  intros Hm. unfold binary_round_aux.
  pose proof (shr_fexp_nonneg m e l Hm) as H1.
  destruct (shr_fexp JS.prec JS.emax m e l) as [mrs' e'] eqn:E1. simpl in H1.
  pose proof (shr_fexp_nonneg _ e' loc_Exact
                (round_nearest_even_nonneg _ (loc_of_shr_record mrs') H1)) as H2.
  destruct (shr_fexp JS.prec JS.emax (round_nearest_even _ _) e' loc_Exact)
    as [mrs'' e''] eqn:E2. simpl in H2.
  destruct (shr_m mrs''); try reflexivity; [|lia].
  now destruct (e'' <=? JS.emax - JS.prec).
Qed.

Lemma binary_normalize_not_nan (m e : Z) (szero : bool) :
  JS.isNaN (binary_normalize JS.prec JS.emax m e szero) = false.
Proof.
  destruct m as [|p|p]; simpl; try reflexivity; unfold binary_round;
    destruct (shl_align _ _ _) as [mz ez];
    now apply binary_round_aux_not_nan.
Qed.

Lemma SFdiv_finite_not_nan (sx sy : bool) (mx my : positive) (ex ey : Z) :
  JS.isNaN (JS.div (S754_finite sx mx ex) (S754_finite sy my ey)) = false.
Proof.
  unfold JS.div, SFdiv, SFdiv_core_binary.
  set (m' := match _ - _ - _ with Z0 => Z.pos mx | Z.pos _ => _ | Z.neg _ => 0 end).
  assert (Hm' : 0 <= m').
  { subst m'. destruct (_ - _ - _); try lia. apply Z.shiftl_nonneg. lia. }
  pose proof (Z_div_mod m' (Z.pos my) eq_refl) as Hdiv.
  destruct (Z.div_eucl m' (Z.pos my)) as [q r].
  apply binary_round_aux_not_nan. nia.
Qed.

(** Arithmetic on finite operands gives a finite number or, on overflow, an
    infinity: never [NaN]. *)
Lemma add_finite_not_nan (a b : JS.number) :
  JS.isFinite a = true -> JS.isFinite b = true -> JS.isNaN (JS.add a b) = false.
Proof.
  destruct a as [sa|sa| |sa ma ea], b as [sb|sb| |sb mb eb]; try discriminate;
    intros _ _; simpl; try reflexivity.
  - now destruct sa, sb.
  - apply binary_normalize_not_nan.
Qed.

Lemma sub_finite_not_nan (a b : JS.number) :
  JS.isFinite a = true -> JS.isFinite b = true -> JS.isNaN (JS.sub a b) = false.
Proof.
  destruct a as [sa|sa| |sa ma ea], b as [sb|sb| |sb mb eb]; try discriminate;
    intros _ _; simpl; try reflexivity.
  - now destruct sa, sb.
  - apply binary_normalize_not_nan.
Qed.

Lemma mul_finite_not_nan (a b : JS.number) :
  JS.isFinite a = true -> JS.isFinite b = true -> JS.isNaN (JS.mul a b) = false.
Proof.
  destruct a as [sa|sa| |sa ma ea], b as [sb|sb| |sb mb eb]; try discriminate;
    intros _ _; simpl; try reflexivity.
  apply binary_round_aux_not_nan. lia.
Qed.

Lemma div_finite_not_nan (a b : JS.number) :
  JS.isFinite a = true -> JS.isFinite b = true ->
  JS.strictEq b JS.zero = false -> JS.isNaN (JS.div a b) = false.
Proof.
  destruct a as [sa|sa| |sa ma ea], b as [sb|sb| |sb mb eb]; try discriminate;
    intros _ _ Hb; try discriminate; try reflexivity.
  apply SFdiv_finite_not_nan.
Qed.

(** ** The postfix evaluator *)

Lemma evalPostfix_app (pre rest : list Token) :
  forall stack,
    evalPostfix (pre ++ rest) stack
    = (stack' <- evalPostfix pre stack ;; evalPostfix rest stack').
Proof.
  induction pre as [|t pre IH]; intros stack; simpl; [reflexivity|].
  destruct t as [v|v|v]; try apply IH.
  destruct stack as [|b [|a stack']]; try reflexivity.
  destruct (applyOperator v a b); simpl; [apply IH|reflexivity|reflexivity].
Qed.

Lemma isAdditive_cases (op : ascii) :
  isAdditive op = true -> op = "+"%char \/ op = "-"%char.
Proof.
  unfold isAdditive. intros H. apply orb_true_iff in H.
  destruct H as [H|H]; apply Ascii.eqb_eq in H; auto.
Qed.

Lemma isMultiplicative_cases (op : ascii) :
  isMultiplicative op = true -> op = "*"%char \/ op = "/"%char.
Proof.
  unfold isMultiplicative. intros H. apply orb_true_iff in H.
  destruct H as [H|H]; apply Ascii.eqb_eq in H; auto.
Qed.

Lemma evaluate_postfix_two_operators (x y z : JS.number) (inner outer : ascii) :
  (stack <- evalPostfix [TNumber x; TNumber y; TOp inner; TNumber z; TOp outer] [] ;;
   finalValue stack)
  = (r <- applyOperator inner x y ;; applyOperator outer r z).
Proof.
  simpl. destruct (applyOperator inner x y) as [r| |]; simpl; try reflexivity.
  destruct (applyOperator outer r z); reflexivity.
Qed.

Lemma evaluate_postfix_nested_operator (x y z : JS.number) (inner outer : ascii) :
  (stack <- evalPostfix [TNumber x; TNumber y; TNumber z; TOp inner; TOp outer] [] ;;
   finalValue stack)
  = (r <- applyOperator inner y z ;; applyOperator outer x r).
Proof.
  simpl. destruct (applyOperator inner y z) as [r| |]; simpl; try reflexivity.
  destruct (applyOperator outer x r); reflexivity.
Qed.

(** ** Precedence *)

(** C1: multiplication and division bind tighter than addition and
    subtraction.  ["2+3*4"] evaluates to 14 and ["(2+3)*4"] to 20; in
    general, for an additive operator [lo] and a multiplicative operator
    [hi], [a lo b hi c] is reordered to [a b c hi lo] and computes
    [a lo (b hi c)], while [a hi b lo c] is reordered to [a b hi c lo] and
    computes [(a hi b) lo c]. *)
Theorem precedence_multiplicative_binds_tighter :
  Returns (evaluateExpression "2+3*4") 14
  /\ Returns (evaluateExpression "(2+3)*4") 20
  /\ forall lo hi : ascii,
      isAdditive lo = true -> isMultiplicative hi = true ->
      (precedence lo < precedence hi)%nat
      /\ forall a b c : JS.number,
          toPostfix [TNumber a; TOp lo; TNumber b; TOp hi; TNumber c]
          = Return [TNumber a; TNumber b; TNumber c; TOp hi; TOp lo]
          /\ evaluateTokens [TNumber a; TOp lo; TNumber b; TOp hi; TNumber c]
             = (r <- applyOperator hi b c ;; applyOperator lo a r)
          /\ toPostfix [TNumber a; TOp hi; TNumber b; TOp lo; TNumber c]
             = Return [TNumber a; TNumber b; TOp hi; TNumber c; TOp lo]
          /\ evaluateTokens [TNumber a; TOp hi; TNumber b; TOp lo; TNumber c]
             = (r <- applyOperator hi a b ;; applyOperator lo r c).
Proof.
  split; [vm_compute; reflexivity|].
  split; [vm_compute; reflexivity|].
  intros lo hi Hlo Hhi.
  apply isAdditive_cases in Hlo. apply isMultiplicative_cases in Hhi.
  assert (Hpost : forall a b c,
             toPostfix [TNumber a; TOp lo; TNumber b; TOp hi; TNumber c]
             = Return [TNumber a; TNumber b; TNumber c; TOp hi; TOp lo]
             /\ toPostfix [TNumber a; TOp hi; TNumber b; TOp lo; TNumber c]
                = Return [TNumber a; TNumber b; TOp hi; TNumber c; TOp lo])
    by (intros a b c; destruct Hlo as [-> | ->], Hhi as [-> | ->];
        split; reflexivity).
  split; [destruct Hlo as [-> | ->], Hhi as [-> | ->]; cbv; lia|].
  intros a b c. destruct (Hpost a b c) as [H1 H2].
  unfold evaluateTokens. rewrite H1, H2.
  repeat split.
  - apply evaluate_postfix_nested_operator.
  - apply evaluate_postfix_two_operators.
Qed.

Lemma precedence_multiplicative_binds_tighter_witness :
  (precedence "-" < precedence "/")%nat
  /\ toPostfix [TNumber (JS.ofZ 9); TOp "-"; TNumber (JS.ofZ 8); TOp "/";
                TNumber (JS.ofZ 2)]
     = Return [TNumber (JS.ofZ 9); TNumber (JS.ofZ 8); TNumber (JS.ofZ 2);
               TOp "/"; TOp "-"].
Proof.
  destruct precedence_multiplicative_binds_tighter as [_ [_ H]].
  destruct (H "-"%char "/"%char eq_refl eq_refl) as [Hlt Hall].
  split; [exact Hlt|].
  exact (proj1 (Hall (JS.ofZ 9) (JS.ofZ 8) (JS.ofZ 2))).
Defined.

(** ** Division *)

(** C2: division by an operand that is exactly zero ([+0] or [-0]) fails
    with [DivisionByZero]: ["5/0"], ["5/-0"] and ["0/0"] do, and so does
    every evaluation in
    which a [/] of the postfix sequence finds a zero on top of the operand
    stack.  A division that succeeds had a non-zero divisor, so no [NaN] or
    infinity stands in for a division by zero.  ["7/2"] evaluates to 3.5. *)
Theorem division_by_zero_fails :
  evaluateExpression "5/0" = Throw DivisionByZero
  /\ evaluateExpression "5/-0" = Throw DivisionByZero
  /\ evaluateExpression "0/0" = Throw DivisionByZero
  /\ Returns (evaluateExpression "7/2") (7 # 2)
  /\ (forall a b : JS.number,
        JS.strictEq b JS.zero = true ->
        applyOperator "/" a b = Throw DivisionByZero)
  /\ (forall (expr : list ascii) (tokens pre rest : list Token)
             (a b : JS.number) (stack : list JS.number),
        tokenize expr = Return tokens ->
        toPostfix tokens = Return (pre ++ TOp "/" :: rest) ->
        evalPostfix pre [] = Return (b :: a :: stack) ->
        JS.strictEq b JS.zero = true ->
        evaluateChars expr = Throw DivisionByZero)
  /\ (forall a b r : JS.number,
        applyOperator "/" a b = Return r ->
        JS.strictEq b JS.zero = false /\ r = JS.div a b).
Proof.
  split; [reflexivity|]. split; [reflexivity|]. split; [reflexivity|].
  split; [vm_compute; reflexivity|].
  assert (Hstep : forall a b, JS.strictEq b JS.zero = true ->
                              applyOperator "/" a b = Throw DivisionByZero)
    by (intros a b Hb; unfold applyOperator; simpl; now rewrite Hb).
  split; [exact Hstep|].
  split.
  - intros expr tokens pre rest a b stack Htok Hpost Hpre Hb.
    unfold evaluateChars, evaluateTokens. rewrite Htok. simpl.
    rewrite Hpost. simpl. rewrite evalPostfix_app, Hpre. simpl.
    now rewrite (Hstep a b Hb).
  - intros a b r. unfold applyOperator. simpl.
    destruct (JS.strictEq b JS.zero); [discriminate|].
    intros [= <-]. split; reflexivity.
Qed.

Lemma division_by_zero_fails_witness :
  applyOperator "/" (JS.ofZ 5) (S754_zero true) = Throw DivisionByZero
  /\ evaluateChars (list_ascii_of_string "(1+2)/(3-3)*4") = Throw DivisionByZero.
Proof.
  destruct division_by_zero_fails as [_ [_ [_ [_ [Hstep [Hrun _]]]]]].
  split; [exact (Hstep (JS.ofZ 5) (S754_zero true) eq_refl)|].
  eapply (Hrun (list_ascii_of_string "(1+2)/(3-3)*4") _
               [TNumber (JS.ofZ 1); TNumber (JS.ofZ 2); TOp "+";
                TNumber (JS.ofZ 3); TNumber (JS.ofZ 3); TOp "-"]
               [TNumber (JS.ofZ 4); TOp "*"]
               (JS.ofZ 3) (S754_zero false) []);
    reflexivity.
Defined.

(** ** Parentheses *)

Lemma popOperators_ops (value : ascii) (ops : list Token) :
  forall output ops' output',
    popOperators value ops output = (ops', output') ->
    forallb opsEntry ops = true ->
    forallb opsEntry ops' = true /\ parenCount ops' = parenCount ops.
Proof.
  induction ops as [|t ops IH]; intros output ops' output' H Hops; simpl in H.
  - injection H as <- <-. auto.
  - destruct t as [v|top|v]; try (injection H as <- <-; auto).
    destruct ((precedence value <? precedence top)%nat
              || (precedence top =? precedence value)%nat).
    + simpl in Hops. apply IH in H; [simpl; exact H | exact Hops].
    + injection H as <- <-. auto.
Qed.

Lemma popToOpenParen_balanced (ops : list Token) :
  forall output,
    forallb opsEntry ops = true ->
    match parenCount ops with
    | O => popToOpenParen ops output = Throw MismatchedParentheses
    | S depth =>
        exists ops' output',
          popToOpenParen ops output = Return (ops', output')
          /\ forallb opsEntry ops' = true /\ parenCount ops' = depth
    end.
Proof.
  induction ops as [|t ops IH]; intros output Hops; simpl; [reflexivity|].
  simpl in Hops. apply andb_true_iff in Hops as [Ht Hops].
  destruct t as [v|v|v]; simpl in *; try discriminate.
  - apply IH, Hops.
  - rewrite Ht. eauto.
Qed.

Lemma drainOperators_balanced (ops : list Token) :
  forall output,
    forallb opsEntry ops = true ->
    match parenCount ops with
    | O => exists output', drainOperators ops output = Return output'
    | S _ => drainOperators ops output = Throw MismatchedParentheses
    end.
Proof.
  induction ops as [|t ops IH]; intros output Hops; simpl; [eauto|].
  simpl in Hops. apply andb_true_iff in Hops as [Ht Hops].
  destruct t as [v|v|v]; simpl in *; try discriminate; try reflexivity.
  apply IH, Hops.
Qed.

Lemma shuntingYard_balanced (tokens : list Token) :
  forall ops output,
    forallb opsEntry ops = true ->
    if balanced (parenCount ops) tokens
    then exists output',
        ('(ops', out) <- shuntingYard tokens ops output ;; drainOperators ops' out)
        = Return output'
    else ('(ops', out) <- shuntingYard tokens ops output ;; drainOperators ops' out)
         = Throw MismatchedParentheses.
Proof.
  induction tokens as [|t tokens IH]; intros ops output Hops; simpl.
  - pose proof (drainOperators_balanced ops output Hops) as H.
    destruct (parenCount ops); simpl; exact H.
  - destruct t as [v|v|v].
    + apply IH, Hops.
    + destruct (popOperators v ops output) as [ops' output'] eqn:Hpop.
      destruct (popOperators_ops _ _ _ _ _ Hpop Hops) as [Hops' Hcount].
      specialize (IH (TOp v :: ops') output'). simpl in IH.
      rewrite Hcount in IH. apply IH, Hops'.
    + destruct (Ascii.eqb v "(") eqn:Hv.
      * specialize (IH (TParen v :: ops) output). simpl in IH.
        rewrite Hv in IH. apply IH, Hops.
      * pose proof (popToOpenParen_balanced ops output Hops) as H.
        destruct (parenCount ops) as [|depth].
        -- now rewrite H.
        -- destruct H as (ops' & output' & -> & Hops' & Hcount). simpl.
           specialize (IH ops' output' Hops'). now rewrite Hcount in IH.
Qed.

Lemma toPostfix_balanced (tokens : list Token) :
  if balanced 0 tokens
  then exists output, toPostfix tokens = Return output
  else toPostfix tokens = Throw MismatchedParentheses.
Proof. exact (shuntingYard_balanced tokens [] [] eq_refl). Qed.

(** C3: unbalanced parentheses are rejected with [MismatchedParentheses]:
    ["(2+3"] leaves an opening parenthesis on the operator stack and
    ["2+3)"] empties the stack without finding one; so does every
    expression whose tokens do not nest properly, since a closing
    parenthesis with no opener on the stack and a parenthesis left on the
    stack at the end both throw. *)
Theorem unbalanced_parentheses_rejected :
  evaluateExpression "(2+3" = Throw MismatchedParentheses
  /\ evaluateExpression "2+3)" = Throw MismatchedParentheses
  /\ (forall (expr : list ascii) (tokens : list Token),
        tokenize expr = Return tokens ->
        balanced 0 tokens = false ->
        toPostfix tokens = Throw MismatchedParentheses
        /\ evaluateChars expr = Throw MismatchedParentheses)
  /\ (forall ops output : list Token,
        forallb opsEntry ops = true -> parenCount ops = O ->
        popToOpenParen ops output = Throw MismatchedParentheses)
  /\ (forall ops output : list Token,
        forallb opsEntry ops = true -> parenCount ops <> O ->
        drainOperators ops output = Throw MismatchedParentheses).
Proof.
  split; [reflexivity|]. split; [reflexivity|].
  split; [|split].
  - intros expr tokens Htok Hbal.
    pose proof (toPostfix_balanced tokens) as H. rewrite Hbal in H.
    split; [exact H|].
    unfold evaluateChars, evaluateTokens. rewrite Htok. simpl. now rewrite H.
  - intros ops output Hops Hcount.
    pose proof (popToOpenParen_balanced ops output Hops) as H.
    now rewrite Hcount in H.
  - intros ops output Hops Hcount.
    pose proof (drainOperators_balanced ops output Hops) as H.
    destruct (parenCount ops); [contradiction|exact H].
Qed.

Lemma unbalanced_parentheses_rejected_witness :
  evaluateChars (list_ascii_of_string "((1+2)*3") = Throw MismatchedParentheses
  /\ popToOpenParen [TOp "+"] [TNumber (JS.ofZ 2); TNumber (JS.ofZ 3)]
     = Throw MismatchedParentheses
  /\ drainOperators [TOp "+"; TParen "("] [TNumber (JS.ofZ 2); TNumber (JS.ofZ 3)]
     = Throw MismatchedParentheses.
Proof.
  destruct unbalanced_parentheses_rejected as [_ [_ [Hrun [Hclose Hdrain]]]].
  split; [|split].
  - exact (proj2 (Hrun (list_ascii_of_string "((1+2)*3") _ eq_refl eq_refl)).
  - exact (Hclose [TOp "+"%char] _ eq_refl eq_refl).
  - apply Hdrain; [reflexivity|discriminate].
Defined.

(** ** Associativity *)

Lemma popOperators_pending (value top : ascii) (ops output : list Token) :
  (precedence value <= precedence top)%nat ->
  popOperators value (TOp top :: ops) output
  = popOperators value ops (output ++ [TOp top]).
Proof.
  intros H. simpl.
  destruct (Nat.eq_dec (precedence top) (precedence value)) as [E|E].
  - rewrite E, Nat.eqb_refl, orb_true_r. reflexivity.
  - assert (Hlt : (precedence value <? precedence top)%nat = true)
      by (apply Nat.ltb_lt; lia).
    now rewrite Hlt.
Qed.

(** C4: operators of equal precedence group from the left: ["8-3-2"]
    evaluates to 3 and ["20/4/5"] to 1.  In the parser a pending operator
    whose precedence is greater than or equal to the incoming operator's is
    popped to the output before the incoming operator is pushed, so
    [a op1 b op2 c] with [op1] and [op2] of equal precedence is reordered to
    [a b op1 c op2] and computes [(a op1 b) op2 c]. *)
Theorem equal_precedence_left_associative :
  Returns (evaluateExpression "8-3-2") 3
  /\ Returns (evaluateExpression "20/4/5") 1
  /\ (forall (value top : ascii) (rest ops output : list Token),
        (precedence value <= precedence top)%nat ->
        popOperators value (TOp top :: ops) output
        = popOperators value ops (output ++ [TOp top])
        /\ shuntingYard (TOp value :: rest) (TOp top :: ops) output
           = shuntingYard (TOp value :: rest) ops (output ++ [TOp top]))
  /\ (forall (value : ascii) (rest ops output : list Token),
        shuntingYard (TOp value :: rest) ops output
        = shuntingYard rest (TOp value :: fst (popOperators value ops output))
            (snd (popOperators value ops output)))
  /\ (forall (op1 op2 : ascii) (a b c : JS.number),
        precedence op1 = precedence op2 ->
        toPostfix [TNumber a; TOp op1; TNumber b; TOp op2; TNumber c]
        = Return [TNumber a; TNumber b; TOp op1; TNumber c; TOp op2]
        /\ evaluateTokens [TNumber a; TOp op1; TNumber b; TOp op2; TNumber c]
           = (r <- applyOperator op1 a b ;; applyOperator op2 r c)).
Proof.
  split; [vm_compute; reflexivity|].
  split; [vm_compute; reflexivity|].
  split; [|split].
  - intros value top rest ops output H.
    pose proof (popOperators_pending value top ops output H) as Hpop.
    split; [exact Hpop|].
    cbn [shuntingYard]. now rewrite Hpop.
  - intros value rest ops output. cbn [shuntingYard].
    now destruct (popOperators value ops output).
  - intros op1 op2 a b c Hprec.
    assert (Hpost : toPostfix [TNumber a; TOp op1; TNumber b; TOp op2; TNumber c]
                    = Return [TNumber a; TNumber b; TOp op1; TNumber c; TOp op2]).
    { unfold toPostfix. cbn [shuntingYard app].
      change (popOperators op1 [] [TNumber a]) with ([] : list Token, [TNumber a]).
      cbn iota beta. cbn [shuntingYard app].
      rewrite popOperators_pending by lia. reflexivity. }
    split; [exact Hpost|].
    unfold evaluateTokens. rewrite Hpost.
    apply evaluate_postfix_two_operators.
Qed.

Lemma equal_precedence_left_associative_witness :
  shuntingYard [TOp "-"; TNumber (JS.ofZ 2)] [TOp "-"]
    [TNumber (JS.ofZ 8); TNumber (JS.ofZ 3)]
  = shuntingYard [TOp "-"; TNumber (JS.ofZ 2)] []
      [TNumber (JS.ofZ 8); TNumber (JS.ofZ 3); TOp "-"]
  /\ toPostfix [TNumber (JS.ofZ 20); TOp "/"; TNumber (JS.ofZ 4); TOp "*";
                TNumber (JS.ofZ 5)]
     = Return [TNumber (JS.ofZ 20); TNumber (JS.ofZ 4); TOp "/";
               TNumber (JS.ofZ 5); TOp "*"].
Proof.
  destruct equal_precedence_left_associative as [_ [_ [Hpop [_ Heq]]]].
  split.
  - apply (Hpop "-"%char "-"%char [TNumber (JS.ofZ 2)] []
                [TNumber (JS.ofZ 8); TNumber (JS.ofZ 3)]).
    vm_compute. lia.
  - apply (Heq "/"%char "*"%char). reflexivity.
Defined.

(** ** Number literals *)

Lemma binary_round_aux_sign (s : bool) (m e : Z) (l : location) :
  0 <= m -> JS.signBit (binary_round_aux JS.prec JS.emax s m e l) = s.
Proof.
  intros Hm. unfold binary_round_aux.
  pose proof (shr_fexp_nonneg m e l Hm) as H1.
  destruct (shr_fexp JS.prec JS.emax m e l) as [mrs' e'] eqn:E1. simpl in H1.
  pose proof (shr_fexp_nonneg _ e' loc_Exact
                (round_nearest_even_nonneg _ (loc_of_shr_record mrs') H1)) as H2.
  destruct (shr_fexp JS.prec JS.emax (round_nearest_even _ _) e' loc_Exact)
    as [mrs'' e''] eqn:E2. simpl in H2.
  destruct (shr_m mrs''); try reflexivity; [|lia].
  now destruct (e'' <=? JS.emax - JS.prec).
Qed.

Lemma decimalToNumber_not_nan (m : Z) (k : nat) :
  JS.isNaN (JS.decimalToNumber m k) = false.
Proof.
  destruct m; try reflexivity. apply SFdiv_finite_not_nan.
Qed.

Lemma decimalToNumber_sign (m : Z) (k : nat) :
  JS.signBit (JS.decimalToNumber m k) = false.
Proof.
  destruct m as [|p|p]; try reflexivity.
  unfold JS.decimalToNumber, SFdiv, SFdiv_core_binary.
  set (d := Z.to_pos (10 ^ Z.of_nat k)).
  set (m' := match _ - _ - _ with Z0 => Z.pos p | Z.pos _ => _ | Z.neg _ => 0 end).
  assert (Hm' : 0 <= m').
  { subst m'. destruct (_ - _ - _); try lia. apply Z.shiftl_nonneg. lia. }
  pose proof (Z_div_mod m' (Z.pos d) eq_refl) as Hdiv.
  destruct (Z.div_eucl m' (Z.pos d)) as [q r].
  apply binary_round_aux_sign. nia.
Qed.

Lemma unsignedLiteral_isNaN (s : list ascii) :
  JS.isNaN (JS.unsignedLiteral s) = negb (JS.isDecimalLiteral s).
Proof.
  unfold JS.unsignedLiteral.
  destruct (JS.splitAtDot s) as [int frac].
  destruct (JS.isDecimalLiteral s); [|reflexivity].
  apply decimalToNumber_not_nan.
Qed.

Lemma unsignedLiteral_sign (s : list ascii) :
  JS.signBit (JS.unsignedLiteral s) = false.
Proof.
  unfold JS.unsignedLiteral.
  destruct (JS.splitAtDot s) as [int frac].
  destruct (JS.isDecimalLiteral s); [|reflexivity].
  apply decimalToNumber_sign.
Qed.

Lemma isNaN_opp (x : JS.number) : JS.isNaN (SFopp x) = JS.isNaN x.
Proof. now destruct x. Qed.

Lemma splitAtDot_countDots (s : list ascii) :
  match JS.splitAtDot s with
  | (_, None) => countDots s = O
  | (_, Some frac) => countDots s = S (countDots frac)
  end.
Proof.
  unfold countDots. induction s as [|c s IH]; simpl; [reflexivity|].
  destruct (Ascii.eqb c ".") eqn:Hc.
  - apply Ascii.eqb_eq in Hc. subst c.
    destruct (ascii_dec "." "."); congruence.
  - apply Ascii.eqb_neq in Hc.
    destruct (JS.splitAtDot s) as [int [frac|]];
      destruct (ascii_dec c "."); congruence.
Qed.

Lemma forallb_isDigit_countDots (s : list ascii) :
  forallb JS.isDigit s = true -> countDots s = O.
Proof.
  unfold countDots. induction s as [|c s IH]; simpl; [reflexivity|].
  intros H. apply andb_true_iff in H as [Hc Hs].
  destruct (ascii_dec c ".") as [->|_]; [discriminate|]. now apply IH.
Qed.

(** A run with two decimal points is not a literal. *)
Lemma isDecimalLiteral_countDots (s : list ascii) :
  JS.isDecimalLiteral s = true -> (countDots s <= 1)%nat.
Proof.
  unfold JS.isDecimalLiteral. pose proof (splitAtDot_countDots s) as H.
  destruct (JS.splitAtDot s) as [int [frac|]]; [|lia].
  intros Hlit. apply andb_true_iff in Hlit as [Hlit _].
  apply andb_true_iff in Hlit as [_ Hfrac].
  apply forallb_isDigit_countDots in Hfrac. lia.
Qed.

Lemma Number_numChar_run (c : ascii) (run : list ascii) :
  isNumChar c = true -> JS.Number (c :: run) = JS.unsignedLiteral (c :: run).
Proof.
  intros Hc. unfold JS.Number.
  destruct (Ascii.eqb c "-") eqn:E; [|reflexivity].
  apply Ascii.eqb_eq in E. subst c. discriminate.
Qed.

Lemma Number_signed (run : list ascii) :
  JS.Number ("-"%char :: run) = SFopp (JS.unsignedLiteral run).
Proof. reflexivity. Qed.

(** ** Runs with several decimal points *)




(** ** The minus sign *)

Lemma lastToken_app (tokens : list Token) (t : Token) :
  lastToken (tokens ++ [t]) = Some t.
Proof.
  unfold lastToken. rewrite length_app. simpl.
  replace (List.length tokens + 1 - 1)%nat with (List.length tokens) by lia.
  rewrite nth_error_app2 by lia. now rewrite Nat.sub_diag.
Qed.

Lemma numberRun_stop (expr : list ascii) (j : nat) :
  match nth_error expr j with
  | Some c => isNumChar c = false
  | None => True
  end ->
  numberRun expr j = [].
Proof.
  unfold numberRun. destruct (nth_error expr j) as [c|] eqn:Hj; intros H.
  - rewrite (skipn_nth_error _ _ _ Hj). simpl. now rewrite H.
  - now rewrite (skipn_nth_error_None _ _ Hj).
Qed.

(** C6: a [-] immediately before an opening parenthesis is tokenized as a
    stand-alone operator token, whatever precedes it; so ["-(3+5)"] becomes
    the tokens [- ( 3 + 5 )], its postfix form ends in a [-] that finds a
    single operand, and the evaluation fails with [MalformedExpression]
    (an operator with fewer than two operands always does). *)
Theorem minus_before_parenthesis_is_operator :
  tokenize (list_ascii_of_string "-(3+5)")
  = Return [TOp "-"; TParen "("; TNumber (JS.ofZ 3); TOp "+";
            TNumber (JS.ofZ 5); TParen ")"]
  /\ evaluateExpression "-(3+5)" = Throw MalformedExpression
  /\ (forall (expr : list ascii) (i : nat) (tokens : list Token),
        nth_error expr i = Some "-"%char ->
        nth_error expr (S i) = Some "("%char ->
        tokenizeStep expr i "-" tokens = Return (tokens ++ [TOp "-"], S i))
  /\ (forall (value : ascii) (rest : list Token) (stack : list JS.number),
        (List.length stack < 2)%nat ->
        evalPostfix (TOp value :: rest) stack = Throw MalformedExpression).
Proof.
  split; [reflexivity|]. split; [reflexivity|]. split.
  - intros expr i tokens _ Hnext.
    rewrite tokenizeStep_spec. unfold tokenizeStepSpec.
    change (isParenChar "-") with false. change (isOperatorChar "-") with true.
    cbv iota. rewrite numberRun_stop by now rewrite Hnext.
    now destruct (_ && _).
  - intros value rest [|b [|a stack]] Hlen; try reflexivity.
    simpl in Hlen. lia.
Qed.

Lemma minus_before_parenthesis_is_operator_witness :
  tokenizeStep (list_ascii_of_string "2*-(3+5)") 2 "-" [TNumber (JS.ofZ 2); TOp "*"]
  = Return ([TNumber (JS.ofZ 2); TOp "*"] ++ [TOp "-"], 3%nat)
  /\ evalPostfix [TOp "-"] [JS.ofZ 8] = Throw MalformedExpression.
Proof.
  destruct minus_before_parenthesis_is_operator as [_ [_ [Hstep Harity]]].
  split.
  - apply (Hstep (list_ascii_of_string "2*-(3+5)") 2%nat); reflexivity.
  - apply Harity. simpl. lia.
Defined.



(** ** Well-formed token sequences evaluate *)

Lemma postfixHeight_app (pre rest : list Token) :
  forall h h',
    postfixHeight pre h = Some h' ->
    postfixHeight (pre ++ rest) h = postfixHeight rest h'.
Proof.
  induction pre as [|t pre IH]; intros h h' H; simpl in *.
  - now injection H as ->.
  - destruct t as [v|v|v]; try discriminate.
    + eapply IH, H.
    + destruct (isOperatorChar v); [|discriminate].
      destruct h as [|[|h0]]; try discriminate. eapply IH, H.
Qed.

Lemma applyOperator_known (value : ascii) (a b : JS.number) :
  isOperatorChar value = true ->
  applyOperator value a b = Throw DivisionByZero
  \/ exists r, applyOperator value a b = Return r.
Proof.
  unfold isOperatorChar, applyOperator. intros H.
  destruct (Ascii.eqb value "+"); [eauto|].
  destruct (Ascii.eqb value "-"); [eauto|].
  destruct (Ascii.eqb value "*"); [eauto|].
  destruct (Ascii.eqb value "/"); [|discriminate].
  destruct (JS.strictEq b JS.zero); eauto.
Qed.

Lemma evalPostfix_height (output : list Token) :
  forall (stack : list JS.number) (h : nat),
    postfixHeight output (List.length stack) = Some h ->
    evalPostfix output stack = Throw DivisionByZero
    \/ exists stack', evalPostfix output stack = Return stack'
                      /\ List.length stack' = h.
Proof.
  induction output as [|t output IH]; intros stack h H; simpl in *.
  - injection H as <-. eauto.
  - destruct t as [v|v|v]; try discriminate.
    + apply (IH (v :: stack)), H.
    + destruct (isOperatorChar v) eqn:Hv; [|discriminate].
      destruct stack as [|b [|a stack]]; try discriminate. simpl in H.
      destruct (applyOperator_known v a b Hv) as [-> | [r ->]]; simpl; [auto|].
      apply (IH (r :: stack)), H.
Qed.

Lemma popOperators_invariant (value : ascii) (ops : list Token) :
  forall output,
    invariant 1 ops output ->
    invariant 1 (fst (popOperators value ops output))
                (snd (popOperators value ops output))
    /\ parenCount (fst (popOperators value ops output)) = parenCount ops.
Proof.
  induction ops as [|t ops IH]; intros output [Hops Hh]; simpl.
  - split; [split|]; auto.
  - destruct t as [v|top|v]; try (split; [split|]; auto; fail).
    destruct (_ || _); [|split; [split|]; auto].
    simpl in Hops. apply andb_true_iff in Hops as [Htop Hops].
    apply IH. split; [exact Hops|].
    rewrite (postfixHeight_app _ _ _ _ Hh). simpl. rewrite Htop.
    simpl. replace (operatorCount ops + 1)%nat with (S (operatorCount ops)) by lia.
    reflexivity.
Qed.

Lemma popToOpenParen_invariant (ops : list Token) :
  forall output depth,
    invariant 1 ops output -> parenCount ops = S depth ->
    exists ops' output',
      popToOpenParen ops output = Return (ops', output')
      /\ invariant 1 ops' output' /\ parenCount ops' = depth.
Proof.
  induction ops as [|t ops IH]; intros output depth [Hops Hh] Hdepth;
    simpl in *; [discriminate|].
  apply andb_true_iff in Hops as [Ht Hops].
  destruct t as [v|v|v]; simpl in *; try discriminate.
  - apply IH; [|exact Hdepth]. split; [exact Hops|].
    rewrite (postfixHeight_app _ _ _ _ Hh). simpl. rewrite Ht. simpl.
    replace (operatorCount ops + 1)%nat with (S (operatorCount ops)) by lia.
    reflexivity.
  - rewrite Ht. exists ops, output. injection Hdepth as Hdepth.
    repeat split; assumption.
Qed.

Lemma drainOperators_invariant (ops : list Token) :
  forall output,
    invariant 1 ops output -> parenCount ops = O ->
    exists output',
      drainOperators ops output = Return output'
      /\ postfixHeight output' 0 = Some 1%nat.
Proof.
  induction ops as [|t ops IH]; intros output [Hops Hh] Hdepth; simpl in *.
  - eauto.
  - apply andb_true_iff in Hops as [Ht Hops].
    destruct t as [v|v|v]; simpl in *; try discriminate.
    apply IH; [|exact Hdepth]. split; [exact Hops|].
    rewrite (postfixHeight_app _ _ _ _ Hh). simpl. rewrite Ht. simpl.
    replace (operatorCount ops + 1)%nat with (S (operatorCount ops)) by lia.
    reflexivity.
Qed.

Lemma shuntingYard_wellFormed (tokens : list Token) :
  forall (operand : bool) (ops output : list Token),
    invariant (if operand then 0 else 1) ops output ->
    wellFormedTokens operand (parenCount ops) tokens = true ->
    exists output',
      ('(ops', out) <- shuntingYard tokens ops output ;; drainOperators ops' out)
      = Return output'
      /\ postfixHeight output' 0 = Some 1%nat.
Proof.
  induction tokens as [|t tokens IH]; intros operand ops output Hinv Hwf;
    simpl in Hwf |- *.
  - apply andb_true_iff in Hwf as [Hoperand Hdepth].
    destruct operand; [discriminate|].
    apply drainOperators_invariant; [exact Hinv|].
    now apply Nat.eqb_eq.
  - destruct t as [v|v|v].
    + apply andb_true_iff in Hwf as [Hoperand Hwf].
      destruct operand; [|discriminate].
      apply (IH false); [|exact Hwf].
      destruct Hinv as [Hops Hh]. split; [exact Hops|].
      rewrite (postfixHeight_app _ _ _ _ Hh). simpl. f_equal. lia.
    + apply andb_true_iff in Hwf as [Hoperand Hwf].
      apply andb_true_iff in Hoperand as [Hoperand Hv].
      destruct operand; [discriminate|].
      destruct (popOperators_invariant v ops output Hinv) as [[Hops Hh] Hdepth].
      destruct (popOperators v ops output) as [ops' output']. simpl in *.
      apply (IH true); [|simpl; now rewrite Hdepth].
      split; [simpl; now rewrite Hv|].
      simpl. rewrite Hh. f_equal. lia.
    + destruct (Ascii.eqb v "(") eqn:Hv.
      * apply andb_true_iff in Hwf as [Hoperand Hwf].
        destruct operand; [|discriminate].
        apply (IH true); [|exact Hwf].
        destruct Hinv as [Hops Hh]. split; [simpl; now rewrite Hv|exact Hh].
      * apply andb_true_iff in Hwf as [Hoperand Hwf].
        destruct operand; [discriminate|].
        destruct (parenCount ops) as [|depth] eqn:Hdepth; [discriminate|].
        destruct (popToOpenParen_invariant ops output depth Hinv Hdepth)
          as (ops' & output' & -> & Hinv' & Hdepth').
        simpl. apply (IH false); [exact Hinv'|now rewrite Hdepth'].
Qed.

(** A well-formed token sequence is converted to postfix form and
    evaluated to a number, unless a division by zero stops it. *)
Lemma evaluateTokens_wellFormed (tokens : list Token) :
  wellFormedTokens true 0 tokens = true ->
  evaluateTokens tokens = Throw DivisionByZero
  \/ exists value, evaluateTokens tokens = Return value.
Proof.
  intros Hwf.
  destruct (shuntingYard_wellFormed tokens true [] [] (conj eq_refl eq_refl) Hwf)
    as (output & Hpost & Hh).
  unfold evaluateTokens, toPostfix. rewrite Hpost. simpl.
  destruct (evalPostfix_height output [] 1 Hh) as [-> | (stack & -> & Hlen)];
    simpl; [auto|].
  destruct stack as [|v [|w stack]]; try discriminate Hlen.
  right. exists v. reflexivity.
Qed.

(** ** Well-formed expressions are tokenized *)

(** The character classes do not overlap. *)
Lemma isDigit_classes (c : ascii) :
  JS.isDigit c = true ->
  isParenChar c = false /\ isOperatorChar c = false /\ isNumChar c = true
  /\ Ascii.eqb c "-" = false /\ Ascii.eqb c "(" = false /\ Ascii.eqb c "." = false.
Proof.
  destruct c as [[] [] [] [] [] [] [] []]; vm_compute; intros H;
    first [discriminate H | repeat split].
Qed.

Lemma isOperatorChar_classes (c : ascii) :
  isOperatorChar c = true ->
  isParenChar c = false /\ isNumChar c = false /\ JS.isDigit c = false.
Proof.
  destruct c as [[] [] [] [] [] [] [] []]; vm_compute; intros H;
    first [discriminate H | repeat split].
Qed.

Lemma afterOperand_stops (c : ascii) (x y : bool) :
  (if isOperatorChar c then x else if Ascii.eqb c ")" then y else false) = true ->
  isNumChar c = false.
Proof.
  destruct (isOperatorChar c) eqn:Hop.
  - intros _. now apply isOperatorChar_classes.
  - destruct (Ascii.eqb c ")") eqn:Hc; [|discriminate].
    apply Ascii.eqb_eq in Hc. now subst c.
Qed.

Lemma wellFormedFrom_InFraction (s : list ascii) (depth : nat) :
  wellFormedFrom InFraction depth s = true ->
  exists run rest,
    s = run ++ rest /\ forallb JS.isDigit run = true /\ stops rest
    /\ wellFormedFrom AfterClose depth rest = true.
Proof.
  induction s as [|c s IH]; intros H.
  - exists [], []. repeat split. exact H.
  - simpl in H. destruct (JS.isDigit c) eqn:Hc.
    + destruct (IH H) as (run & rest & -> & Hrun & Hstop & Hrest).
      exists (c :: run), rest. simpl. rewrite Hc. repeat split; assumption.
    + exists [], (c :: s). repeat split.
      * exact (afterOperand_stops _ _ _ H).
      * exact H.
Qed.

Lemma splitAtDot_digits (s : list ascii) :
  forallb JS.isDigit s = true -> JS.splitAtDot s = (s, None).
Proof.
  induction s as [|c s IH]; simpl; [reflexivity|].
  intros H. apply andb_true_iff in H as [Hc Hs].
  destruct (isDigit_classes c Hc) as (_ & _ & _ & _ & _ & ->).
  now rewrite (IH Hs).
Qed.

Lemma splitAtDot_point (int frac : list ascii) :
  forallb JS.isDigit int = true ->
  JS.splitAtDot (int ++ "."%char :: frac) = (int, Some frac).
Proof.
  induction int as [|c int IH]; simpl; [reflexivity|].
  intros H. apply andb_true_iff in H as [Hc Hint].
  destruct (isDigit_classes c Hc) as (_ & _ & _ & _ & _ & ->).
  now rewrite (IH Hint).
Qed.

Lemma forallb_isDigit_isNumChar (s : list ascii) :
  forallb JS.isDigit s = true -> forallb isNumChar s = true.
Proof.
  induction s as [|c s IH]; simpl; [reflexivity|].
  intros H. apply andb_true_iff in H as [Hc Hs].
  unfold isNumChar at 1. now rewrite Hc, IH.
Qed.

Lemma wellFormedFrom_InInteger (s : list ascii) (depth : nat) :
  wellFormedFrom InInteger depth s = true ->
  exists run rest,
    s = run ++ rest /\ forallb isNumChar run = true /\ stops rest
    /\ wellFormedFrom AfterClose depth rest = true
    /\ forall int, int <> [] -> forallb JS.isDigit int = true ->
                   JS.isDecimalLiteral (int ++ run) = true.
Proof.
  induction s as [|c s IH]; intros H.
  - exists [], []. repeat split; [exact H|].
    intros int Hne Hint. rewrite app_nil_r. unfold JS.isDecimalLiteral.
    rewrite (splitAtDot_digits _ Hint), Hint. simpl.
    destruct int; [contradiction|reflexivity].
  - simpl in H. destruct (JS.isDigit c) eqn:Hc.
    + destruct (IH H) as (run & rest & -> & Hrun & Hstop & Hrest & Hlit).
      exists (c :: run), rest. simpl. unfold isNumChar at 1. rewrite Hc.
      repeat split; try assumption.
      intros int Hne Hint.
      change (int ++ c :: run) with (int ++ [c] ++ run). rewrite app_assoc.
      apply Hlit; [now destruct int|].
      rewrite forallb_app, Hint. simpl. now rewrite Hc.
    + destruct (Ascii.eqb c ".") eqn:Hpoint.
      * apply Ascii.eqb_eq in Hpoint. subst c.
        destruct s as [|c2 s]; [discriminate|]. simpl in H.
        destruct (JS.isDigit c2) eqn:Hc2; [|discriminate].
        destruct (wellFormedFrom_InFraction _ _ H)
          as (run & rest & -> & Hrun & Hstop & Hrest).
        exists ("."%char :: c2 :: run), rest.
        repeat split; try assumption.
        -- simpl. unfold isNumChar at 1. rewrite Hc2. simpl.
           now apply forallb_isDigit_isNumChar.
        -- intros int Hne Hint. unfold JS.isDecimalLiteral.
           rewrite (splitAtDot_point _ _ Hint), Hint. simpl.
           rewrite Hc2, Hrun. simpl.
           rewrite Nat.add_succ_r. reflexivity.
      * exists [], (c :: s). repeat split.
        -- exact (afterOperand_stops _ _ _ H).
        -- exact H.
        -- intros int Hne Hint. rewrite app_nil_r. unfold JS.isDecimalLiteral.
           rewrite (splitAtDot_digits _ Hint), Hint. simpl.
           destruct int; [contradiction|reflexivity].
Qed.

Lemma skipn_length_app {A : Type} (a b : list A) :
  skipn (List.length a) (a ++ b) = b.
Proof. induction a; simpl; auto. Qed.

Lemma forallb_Forall_true {A : Type} (f : A -> bool) (l : list A) :
  forallb f l = true -> Forall (fun x => f x = true) l.
Proof. intros H. now apply Forall_forall, forallb_forall. Qed.

(** The run the tokenizer scans when a literal [run] follows index [j]. *)
Lemma numberRun_literal (expr : list ascii) (j : nat) (run rest : list ascii) :
  skipn j expr = run ++ rest -> forallb isNumChar run = true -> stops rest ->
  numberRun expr j = run
  /\ skipn (j + List.length run) expr = rest.
Proof.
  intros Hskip Hrun Hstop. unfold numberRun. rewrite Hskip. split.
  - apply takeWhile_app_stop; [now apply forallb_Forall_true|exact Hstop].
  - rewrite Nat.add_comm, <- skipn_skipn, Hskip. apply skipn_length_app.
Qed.

Lemma tokenizeStepSpec_minus_literal (expr : list ascii) (i : nat)
    (tokens : list Token) :
  unaryPosition (lastToken tokens) = true ->
  JS.isDecimalLiteral (numberRun expr (S i)) = true ->
  tokenizeStepSpec expr i "-" tokens
  = Return (tokens ++ [TNumber (SFopp (JS.unsignedLiteral (numberRun expr (S i))))],
            (S i + List.length (numberRun expr (S i)))%nat).
Proof.
  intros Hunary Hlit. unfold tokenizeStepSpec.
  change (isParenChar "-") with false. change (isOperatorChar "-") with true.
  cbv iota. rewrite Hunary. cbn [Ascii.eqb Bool.eqb andb].
  destruct (numberRun expr (S i)) as [|c run] eqn:Hrun; [discriminate|].
  cbv zeta. rewrite Number_signed, isNaN_opp, unsignedLiteral_isNaN, Hlit.
  reflexivity.
Qed.

Lemma tokenizeStepSpec_literal (expr : list ascii) (i : nat) (ch : ascii)
    (tokens : list Token) :
  JS.isDigit ch = true ->
  JS.isDecimalLiteral (numberRun expr i) = true ->
  nth_error expr i = Some ch ->
  tokenizeStepSpec expr i ch tokens
  = Return (tokens ++ [TNumber (JS.unsignedLiteral (numberRun expr i))],
            (i + List.length (numberRun expr i))%nat).
Proof.
  intros Hch Hlit Hi. unfold tokenizeStepSpec.
  destruct (isDigit_classes ch Hch) as (-> & -> & Hnum & _). rewrite Hnum.
  assert (Hrun : numberRun expr i = ch :: numberRun expr (S i)).
  { unfold numberRun. rewrite (skipn_nth_error _ _ _ Hi). simpl. now rewrite Hnum. }
  cbv zeta. rewrite Hrun in Hlit |- *.
  rewrite Number_numChar_run by exact Hnum.
  now rewrite unsignedLiteral_isNaN, Hlit.
Qed.

Lemma tokenizeFrom_end (expr : list ascii) (i : nat) (tokens : list Token) :
  nth_error expr i = None -> tokenizeFrom expr i tokens = Return tokens.
Proof. intros H. now rewrite tokenizeFrom_unfold, H. Qed.

Lemma tokenizeFrom_step (expr : list ascii) (i i' : nat) (ch : ascii)
    (tokens : list Token) (t : Token) (more : list Token) :
  nth_error expr i = Some ch ->
  tokenizeStepSpec expr i ch tokens = Return (tokens ++ [t], i') ->
  tokenizeFrom expr i' (tokens ++ [t]) = Return ((tokens ++ [t]) ++ more) ->
  tokenizeFrom expr i tokens = Return (tokens ++ t :: more).
Proof.
  intros Hi Hstep Hrest. rewrite tokenizeFrom_unfold, Hi, Hstep. simpl.
  rewrite Hrest, <- app_assoc. reflexivity.
Qed.

(** The tokenizer follows the automaton: at the start of an operand the
    last token is none, an operator or an opening parenthesis, and after an
    operand it is a number or a closing parenthesis. *)
Lemma tokenizeFrom_wellFormed (n : nat) :
  forall (expr : list ascii) (i : nat) (tokens : list Token) (depth : nat),
    (List.length expr - i <= n)%nat ->
    (wellFormedFrom ExpectOperand depth (skipn i expr) = true ->
     unaryPosition (lastToken tokens) = true ->
     exists more,
       tokenizeFrom expr i tokens = Return (tokens ++ more)
       /\ wellFormedTokens true depth more = true)
    /\ (wellFormedFrom AfterClose depth (skipn i expr) = true ->
        unaryPosition (lastToken tokens) = false ->
        exists more,
          tokenizeFrom expr i tokens = Return (tokens ++ more)
          /\ wellFormedTokens false depth more = true).
Proof.
  induction n as [|n IH]; intros expr i tokens depth Hn;
    (destruct (nth_error expr i) as [ch|] eqn:Hi;
     [ assert (Hlt : (i < List.length expr)%nat)
         by (apply nth_error_Some; congruence)
     | rewrite (skipn_nth_error_None _ _ Hi); split;
       [ discriminate
       | intros Hwf _; exists []; rewrite app_nil_r;
         split; [now apply tokenizeFrom_end|exact Hwf] ] ]);
    [lia|].
  rewrite (skipn_nth_error _ _ _ Hi). split.
  - (* an operand starts here *)
    intros Hwf Hunary. cbn [wellFormedFrom] in Hwf.
    destruct (Ascii.eqb ch "(") eqn:Hopen.
    + apply Ascii.eqb_eq in Hopen. subst ch.
      destruct (IH expr (S i) (tokens ++ [TParen "("]) (S depth)) as [IHop _];
        [lia|].
      destruct (IHop Hwf) as (more & Hmore & Hwfmore);
        [now rewrite lastToken_app|].
      exists (TParen "(" :: more). split; [|exact Hwfmore].
      eapply tokenizeFrom_step; [exact Hi|reflexivity|exact Hmore].
    + destruct (Ascii.eqb ch "-") eqn:Hminus.
      * apply Ascii.eqb_eq in Hminus. subst ch.
        destruct (skipn (S i) expr) as [|c s] eqn:Hskip;
          [cbn [wellFormedFrom] in Hwf; discriminate Hwf|].
        cbn [wellFormedFrom] in Hwf. destruct (JS.isDigit c) eqn:Hc; [|discriminate Hwf].
        destruct (wellFormedFrom_InInteger _ _ Hwf)
          as (run & rest & -> & Hrun & Hstop & Hrest & Hlit).
        destruct (numberRun_literal expr (S i) (c :: run) rest Hskip) as [Hnr Hsk];
          [simpl; unfold isNumChar at 1; now rewrite Hc|exact Hstop|].
        assert (Hlen : (S i + List.length (c :: run) <= List.length expr)%nat).
        { pose proof (f_equal (@List.length ascii) Hskip) as Hl.
          rewrite length_skipn in Hl. cbn [List.length] in Hl |- *.
          rewrite length_app in Hl. lia. }
        pose proof (tokenizeStepSpec_minus_literal expr i tokens Hunary) as Hstep.
        rewrite Hnr in Hstep.
        assert (Hvalid : JS.isDecimalLiteral (c :: run) = true)
          by (apply (Hlit [c]); [discriminate|simpl; now rewrite Hc]).
        specialize (Hstep Hvalid).
        destruct (IH expr (S i + List.length (c :: run))%nat
                    (tokens ++ [TNumber (SFopp (JS.unsignedLiteral (c :: run)))])
                    depth) as [_ IHafter]; [simpl in Hlen |- *; lia|].
        rewrite Hsk in IHafter.
        destruct (IHafter Hrest) as (more & Hmore & Hwfmore);
          [now rewrite lastToken_app|].
        exists (TNumber (SFopp (JS.unsignedLiteral (c :: run))) :: more).
        split; [|exact Hwfmore].
        eapply tokenizeFrom_step; [exact Hi|exact Hstep|exact Hmore].
      * destruct (JS.isDigit ch) eqn:Hch; [|cbn [wellFormedFrom] in Hwf; discriminate Hwf].
        destruct (wellFormedFrom_InInteger _ _ Hwf)
          as (run & rest & Hskip & Hrun & Hstop & Hrest & Hlit).
        assert (Hskip' : skipn i expr = (ch :: run) ++ rest)
          by (rewrite (skipn_nth_error _ _ _ Hi), Hskip; reflexivity).
        destruct (numberRun_literal expr i (ch :: run) rest Hskip') as [Hnr Hsk];
          [simpl; unfold isNumChar at 1; now rewrite Hch|exact Hstop|].
        assert (Hlen : (i + List.length (ch :: run) <= List.length expr)%nat).
        { pose proof (f_equal (@List.length ascii) Hskip') as Hl.
          rewrite length_skipn, length_app in Hl. lia. }
        pose proof (tokenizeStepSpec_literal expr i ch tokens Hch) as Hstep.
        rewrite Hnr in Hstep.
        assert (Hvalid : JS.isDecimalLiteral (ch :: run) = true)
          by (apply (Hlit [ch]); [discriminate|simpl; now rewrite Hch]).
        specialize (Hstep Hvalid Hi).
        destruct (IH expr (i + List.length (ch :: run))%nat
                    (tokens ++ [TNumber (JS.unsignedLiteral (ch :: run))])
                    depth) as [_ IHafter]; [simpl in Hlen |- *; lia|].
        rewrite Hsk in IHafter.
        destruct (IHafter Hrest) as (more & Hmore & Hwfmore);
          [now rewrite lastToken_app|].
        exists (TNumber (JS.unsignedLiteral (ch :: run)) :: more).
        split; [|exact Hwfmore].
        eapply tokenizeFrom_step; [exact Hi|exact Hstep|exact Hmore].
  - (* an operand has ended here *)
    intros Hwf Hbinary. cbn [wellFormedFrom] in Hwf.
    destruct (isOperatorChar ch) eqn:Hop.
    + destruct (isOperatorChar_classes ch Hop) as (Hparen & _).
      destruct (IH expr (S i) (tokens ++ [TOp ch]) depth) as [IHop _]; [lia|].
      destruct (IHop Hwf) as (more & Hmore & Hwfmore);
        [now rewrite lastToken_app|].
      exists (TOp ch :: more). split; [|simpl; now rewrite Hop].
      eapply tokenizeFrom_step; [exact Hi| |exact Hmore].
      unfold tokenizeStepSpec. rewrite Hparen, Hop, Hbinary, andb_false_r.
      reflexivity.
    + destruct (Ascii.eqb ch ")") eqn:Hclose; [|cbn [wellFormedFrom] in Hwf; discriminate Hwf].
      apply Ascii.eqb_eq in Hclose. subst ch.
      destruct depth as [|depth]; [cbn [wellFormedFrom] in Hwf; discriminate Hwf|].
      destruct (IH expr (S i) (tokens ++ [TParen ")"]) depth) as [_ IHafter];
        [lia|].
      destruct (IHafter Hwf) as (more & Hmore & Hwfmore);
        [now rewrite lastToken_app|].
      exists (TParen ")" :: more). split; [|exact Hwfmore].
      eapply tokenizeFrom_step; [exact Hi|reflexivity|exact Hmore].
Qed.

(** A well-formed expression is tokenized, and its tokens are well formed. *)
Lemma tokenize_wellFormed (expr : list ascii) :
  wellFormedFrom ExpectOperand 0 expr = true ->
  exists tokens,
    tokenize expr = Return tokens /\ wellFormedTokens true 0 tokens = true.
Proof.
  intros Hwf.
  destruct (tokenizeFrom_wellFormed (List.length expr) expr 0 [] 0) as [H _];
    [lia|].
  destruct (H Hwf eq_refl) as (more & Hmore & Hwfmore).
  exists more. rewrite tokenize_tokenizeFrom. split; assumption.
Qed.

(** ** Termination *)

Lemma popToOpenParen_not_OutOfFuel (ops : list Token) :
  forall output, popToOpenParen ops output <> OutOfFuel.
Proof.
  induction ops as [|t ops IH]; intros output; simpl; [discriminate|].
  destruct (isOpenParen t); [discriminate|apply IH].
Qed.

Lemma shuntingYard_not_OutOfFuel (tokens : list Token) :
  forall ops output, shuntingYard tokens ops output <> OutOfFuel.
Proof.
  induction tokens as [|t tokens IH]; intros ops output; simpl; [discriminate|].
  destruct t as [v|v|v]; [apply IH| |].
  - destruct (popOperators v ops output). apply IH.
  - destruct (Ascii.eqb v "("); [apply IH|].
    apply bind_not_OutOfFuel; [apply popToOpenParen_not_OutOfFuel|].
    intros [ops' output'] _. apply IH.
Qed.

Lemma drainOperators_not_OutOfFuel (ops : list Token) :
  forall output, drainOperators ops output <> OutOfFuel.
Proof.
  induction ops as [|t ops IH]; intros output; simpl; [discriminate|].
  destruct t; try apply IH. discriminate.
Qed.

Lemma applyOperator_not_OutOfFuel (value : ascii) (a b : JS.number) :
  applyOperator value a b <> OutOfFuel.
Proof.
  unfold applyOperator.
  repeat match goal with
         | |- context [if ?c then _ else _] => destruct c
         end; discriminate.
Qed.

Lemma evalPostfix_not_OutOfFuel (output : list Token) :
  forall stack, evalPostfix output stack <> OutOfFuel.
Proof.
  induction output as [|t output IH]; intros stack; simpl; [discriminate|].
  destruct t as [v|v|v]; try apply IH.
  destruct stack as [|b [|a stack]]; try discriminate.
  apply bind_not_OutOfFuel; [apply applyOperator_not_OutOfFuel|].
  intros r _. apply IH.
Qed.

Lemma evaluateTokens_not_OutOfFuel (tokens : list Token) :
  evaluateTokens tokens <> OutOfFuel.
Proof.
  unfold evaluateTokens, toPostfix.
  apply bind_not_OutOfFuel.
  - apply bind_not_OutOfFuel; [apply shuntingYard_not_OutOfFuel|].
    intros [ops output] _. apply drainOperators_not_OutOfFuel.
  - intros output _.
    apply bind_not_OutOfFuel; [apply evalPostfix_not_OutOfFuel|].
    intros [|v [|w stack]] _; discriminate.
Qed.

(** The three loops end on every input: the evaluation returns or throws. *)
Lemma evaluateChars_not_OutOfFuel (expr : list ascii) :
  evaluateChars expr <> OutOfFuel.
Proof.
  unfold evaluateChars, tokenize.
  apply bind_not_OutOfFuel; [apply tokenizeLoop_fuel; lia|].
  intros tokens _. apply evaluateTokens_not_OutOfFuel.
Qed.

Lemma evaluateChars_wellFormed (expr : list ascii) :
  wellFormedFrom ExpectOperand 0 expr = true ->
  evaluateChars expr = Throw DivisionByZero
  \/ exists value, evaluateChars expr = Return value.
Proof.
  intros Hwf. destruct (tokenize_wellFormed expr Hwf) as (tokens & Htok & Hwft).
  unfold evaluateChars. rewrite Htok. simpl.
  now apply evaluateTokens_wellFormed.
Qed.

Lemma applyOperator_finite_not_nan (value : ascii) (a b r : JS.number) :
  JS.isFinite a = true -> JS.isFinite b = true ->
  applyOperator value a b = Return r -> JS.isNaN r = false.
Proof.
  intros Ha Hb. unfold applyOperator.
  destruct (Ascii.eqb value "+"); [intros [= <-]; now apply add_finite_not_nan|].
  destruct (Ascii.eqb value "-"); [intros [= <-]; now apply sub_finite_not_nan|].
  destruct (Ascii.eqb value "*"); [intros [= <-]; now apply mul_finite_not_nan|].
  destruct (Ascii.eqb value "/"); [|discriminate].
  destruct (JS.strictEq b JS.zero) eqn:Hz; [discriminate|].
  intros [= <-]. now apply div_finite_not_nan.
Qed.

(** ** Where a result that is not finite comes from *)

(** The tokenizer's [Number.isNaN] checks keep [NaN] out of the tokens. *)
Lemma tokenizeStep_notNaN (expr : list ascii) (i i' : nat) (ch : ascii)
    (tokens tokens' : list Token) :
  tokenizeStep expr i ch tokens = Return (tokens', i') ->
  Forall notNaN tokens -> Forall notNaN tokens'.
Proof.
  rewrite tokenizeStep_spec. unfold tokenizeStepSpec. intros H Htokens.
  assert (Hpush : forall t, notNaN t -> Forall notNaN (tokens ++ [t]))
    by (intros t Ht; apply Forall_app; split; [exact Htokens|now constructor]).
  destruct (isParenChar ch); [injection H as <- _; now apply Hpush|].
  destruct (isOperatorChar ch).
  - destruct (Ascii.eqb ch "-" && unaryPosition (lastToken tokens));
      [|injection H as <- _; now apply Hpush].
    destruct (numberRun expr (S i)) as [|c run];
      [injection H as <- _; now apply Hpush|].
    destruct (JS.isNaN _) eqn:Hnan; [discriminate|].
    injection H as <- _. now apply Hpush.
  - destruct (isNumChar ch); [|discriminate].
    destruct (JS.isNaN _) eqn:Hnan; [discriminate|].
    injection H as <- _. now apply Hpush.
Qed.

Lemma tokenizeLoop_notNaN (fuel : nat) (expr : list ascii) :
  forall (i : nat) (tokens result : list Token),
    tokenizeLoop fuel expr i tokens = Return result ->
    Forall notNaN tokens -> Forall notNaN result.
Proof.
  induction fuel as [|fuel IH]; intros i tokens result H Htokens; simpl in H;
    destruct (nth_error expr i) as [ch|]; try discriminate;
    try (injection H as <-; exact Htokens).
  destruct (tokenizeStep expr i ch tokens) as [[tokens' i']| |] eqn:Hstep;
    try discriminate.
  simpl in H. eapply IH; [exact H|].
  eapply tokenizeStep_notNaN; eassumption.
Qed.

(** The conversion to postfix form only moves tokens. *)
Lemma popOperators_notNaN (value : ascii) (ops : list Token) :
  forall output,
    Forall notNaN ops -> Forall notNaN output ->
    Forall notNaN (fst (popOperators value ops output))
    /\ Forall notNaN (snd (popOperators value ops output)).
Proof.
  induction ops as [|t ops IH]; intros output Hops Hout; simpl; [auto|].
  destruct t as [v|top|v]; auto.
  destruct (_ || _); auto.
  apply IH; [now inversion Hops|].
  apply Forall_app. split; [exact Hout|now constructor].
Qed.

Lemma popToOpenParen_notNaN (ops : list Token) :
  forall output ops' output',
    popToOpenParen ops output = Return (ops', output') ->
    Forall notNaN ops -> Forall notNaN output ->
    Forall notNaN ops' /\ Forall notNaN output'.
Proof.
  induction ops as [|t ops IH]; intros output ops' output' H Hops Hout;
    simpl in H; [discriminate|].
  inversion Hops as [|? ? Ht Hops']; subst.
  destruct (isOpenParen t).
  - injection H as <- <-. auto.
  - eapply IH; [exact H|exact Hops'|].
    apply Forall_app. split; [exact Hout|now constructor].
Qed.

Lemma drainOperators_notNaN (ops : list Token) :
  forall output output',
    drainOperators ops output = Return output' ->
    Forall notNaN ops -> Forall notNaN output -> Forall notNaN output'.
Proof.
  induction ops as [|t ops IH]; intros output output' H Hops Hout; simpl in H.
  - now injection H as <-.
  - inversion Hops as [|? ? Ht Hops']; subst.
    destruct t as [v|v|v]; try discriminate;
      (eapply IH; [exact H|exact Hops'|]);
      apply Forall_app; (split; [exact Hout|now constructor]).
Qed.

Lemma shuntingYard_notNaN (tokens : list Token) :
  forall ops output ops' output',
    shuntingYard tokens ops output = Return (ops', output') ->
    Forall notNaN tokens -> Forall notNaN ops -> Forall notNaN output ->
    Forall notNaN ops' /\ Forall notNaN output'.
Proof.
  induction tokens as [|t tokens IH];
    intros ops output ops' output' H Htokens Hops Hout; simpl in H.
  - injection H as <- <-. auto.
  - inversion Htokens as [|? ? Ht Htokens']; subst.
    destruct t as [v|v|v].
    + eapply IH; [exact H|exact Htokens'|exact Hops|].
      apply Forall_app. split; [exact Hout|now constructor].
    + destruct (popOperators_notNaN v ops output Hops Hout) as [Hops1 Hout1].
      destruct (popOperators v ops output) as [ops1 output1]. simpl in *.
      eapply IH; [exact H|exact Htokens'| |exact Hout1].
      now constructor.
    + destruct (Ascii.eqb v "(").
      * eapply IH; [exact H|exact Htokens'| |exact Hout]. now constructor.
      * destruct (popToOpenParen ops output) as [[ops1 output1]| |] eqn:Hpop;
          try discriminate.
        destruct (popToOpenParen_notNaN _ _ _ _ Hpop Hops Hout) as [Hops1 Hout1].
        simpl in H. eapply IH; eassumption.
Qed.

Lemma toPostfix_notNaN (tokens output : list Token) :
  toPostfix tokens = Return output ->
  Forall notNaN tokens -> Forall notNaN output.
Proof.
  unfold toPostfix. intros H Htokens.
  destruct (shuntingYard tokens [] []) as [[ops out]| |] eqn:Hsy; try discriminate.
  destruct (shuntingYard_notNaN _ _ _ _ _ Hsy Htokens) as [Hops Hout];
    try constructor.
  simpl in H. eapply drainOperators_notNaN; eassumption.
Qed.

(** While every value pushed is finite, so is the stack. *)
Lemma firstNonFinite_None (output : list Token) :
  forall stack stack',
    Forall (fun x => JS.isFinite x = true) stack ->
    firstNonFinite output stack = None ->
    evalPostfix output stack = Return stack' ->
    Forall (fun x => JS.isFinite x = true) stack'.
Proof.
  induction output as [|t output IH]; intros stack stack' Hstack Hnone Heval;
    simpl in *.
  - now injection Heval as <-.
  - destruct t as [v|v|v].
    + destruct (JS.isFinite v) eqn:Hv; [|discriminate].
      eapply IH; [|exact Hnone|exact Heval]. now constructor.
    + destruct stack as [|b [|a stack]]; try discriminate.
      destruct (applyOperator v a b) as [res| |]; try discriminate.
      simpl in Heval. destruct (JS.isFinite res) eqn:Hres; [|discriminate].
      eapply IH; [|exact Hnone|exact Heval].
      constructor; [exact Hres|].
      inversion Hstack as [|? ? _ Hstack']; subst. now inversion Hstack'.
    + eapply IH; eassumption.
Qed.

(** The first value that is not finite is an infinity: a literal beyond the
    range of the doubles, or the overflow of an operation on finite
    operands. *)
Lemma firstNonFinite_Some (output : list Token) :
  forall stack w,
    Forall (fun x => JS.isFinite x = true) stack ->
    Forall notNaN output ->
    firstNonFinite output stack = Some w ->
    exists s, w = S754_infinity s.
Proof.
  assert (Hinf : forall w, JS.isFinite w = false -> JS.isNaN w = false ->
                           exists s, w = S754_infinity s)
    by (intros [s|s| |s m e]; try discriminate; eauto).
  induction output as [|t output IH]; intros stack w Hstack Hout Hsome;
    simpl in *; [discriminate|].
  inversion Hout as [|? ? Ht Hout']; subst.
  destruct t as [v|v|v].
  - destruct (JS.isFinite v) eqn:Hv.
    + eapply IH; [|exact Hout'|exact Hsome]. now constructor.
    + injection Hsome as <-. now apply Hinf.
  - destruct stack as [|b [|a stack]]; try discriminate.
    destruct (applyOperator v a b) as [res| |] eqn:Hop; try discriminate.
    inversion Hstack as [|? ? Hb Hstack']; subst.
    inversion Hstack' as [|? ? Ha Hstack'']; subst.
    destruct (JS.isFinite res) eqn:Hres.
    + eapply IH; [|exact Hout'|exact Hsome]. now constructor.
    + injection Hsome as <-. apply Hinf; [exact Hres|].
      exact (applyOperator_finite_not_nan v a b _ Ha Hb Hop).
  - eapply IH; eassumption.
Qed.

(** A returned number is finite unless some literal or some intermediate
    result overflowed to an infinity. *)
Lemma evaluateChars_finite_or_overflow (expr : list ascii) (value : JS.number) :
  evaluateChars expr = Return value ->
  exists tokens output,
    tokenize expr = Return tokens
    /\ toPostfix tokens = Return output
    /\ match firstNonFinite output [] with
       | None => JS.isFinite value = true
       | Some w => exists s, w = S754_infinity s
       end.
Proof.
  unfold evaluateChars, evaluateTokens. intros H.
  destruct (tokenize expr) as [tokens| |] eqn:Htok; try discriminate.
  simpl in H.
  destruct (toPostfix tokens) as [output| |] eqn:Hpost; try discriminate.
  simpl in H.
  destruct (evalPostfix output []) as [stack| |] eqn:Heval; try discriminate.
  simpl in H. exists tokens, output.
  split; [reflexivity|]. split; [exact Hpost|].
  destruct (firstNonFinite output []) as [w|] eqn:Hfirst.
  - eapply firstNonFinite_Some; [constructor| |exact Hfirst].
    eapply toPostfix_notNaN; [exact Hpost|].
    eapply tokenizeLoop_notNaN; [exact Htok|constructor].
  - pose proof (firstNonFinite_None _ _ _ (Forall_nil _) Hfirst Heval) as Hstack.
    destruct stack as [|v [|? ?]]; try discriminate.
    injection H as <-. now inversion Hstack.
Qed.




(** ** Determinism *)



(** ** The caller never throws *)

Lemma tryEvaluate_returns (expr : list ascii) :
  exists answer, tryEvaluate expr = Return answer.
Proof.
  unfold tryEvaluate.
  pose proof (evaluateChars_not_OutOfFuel expr) as Hfuel.
  destruct (evaluateChars expr) as [value|e|]; simpl;
    [|eexists; reflexivity|contradiction].
  destruct (JS.isFinite value); eexists; reflexivity.
Qed.

Lemma tryEvaluate_catches (expr : list ascii) (e : Error) :
  evaluateChars expr = Throw e -> tryEvaluate expr = Return None.
Proof. intros H. unfold tryEvaluate. now rewrite H. Qed.

Lemma mathAnswer_returns (q : list ascii) :
  exists answer, mathAnswer q = Return answer.
Proof.
  unfold mathAnswer.
  destruct (matchCandidate (preprocessWords q)) as [candidate|];
    [|eexists; reflexivity].
  destruct (isExpression _); [apply tryEvaluate_returns|eexists; reflexivity].
Qed.

(** C10: [QueryProcessor] returns a string for every input string, the
    empty one included, and never throws: an error thrown by the expression
    evaluator is caught, after which the keyword handlers answer, with the
    empty string when no keyword occurs in the query. *)
Theorem QueryProcessor_never_throws :
  (forall query : string, exists answer : string,
      QueryProcessor query = Return answer)
  /\ (forall (expr : list ascii) (e : Error),
        evaluateChars expr = Throw e -> tryEvaluate expr = Return None)
  /\ (forall (query : string) (candidate : list ascii) (e : Error),
        let q := list_ascii_of_string query in
        largestAnswer q (toLowerCase q) = None ->
        matchCandidate (preprocessWords q) = Some candidate ->
        evaluateChars (removeWhitespace (trim candidate)) = Throw e ->
        QueryProcessor query
        = Return (string_of_list_ascii (keywordAnswer (toLowerCase q))))
  /\ (forall lower : list ascii,
        includes lower (lit "shakespeare") = false ->
        includes lower (lit "gameid") = false ->
        includes lower (lit "playerid") = false ->
        includes lower (lit "your name") = false ->
        includes lower (lit "name") = false ->
        includes lower (lit "my andrewid") = false ->
        keywordAnswer lower = [])
  /\ QueryProcessor EmptyString = Return EmptyString.
Proof.
  split; [|split; [|split; [|split]]].
  - intros query. unfold QueryProcessor.
    destruct (largestAnswer _ _); [eexists; reflexivity|].
    destruct (mathAnswer_returns (list_ascii_of_string query)) as [answer ->].
    simpl. destruct answer; eexists; reflexivity.
  - exact tryEvaluate_catches.
  - intros query candidate e q Hlargest Hcandidate Hthrow.
    unfold QueryProcessor. fold q. rewrite Hlargest.
    unfold mathAnswer. rewrite Hcandidate.
    destruct (isExpression _); [|reflexivity].
    now rewrite (tryEvaluate_catches _ _ Hthrow).
  - intros lower H1 H2 H3 H4 H5 H6. unfold keywordAnswer.
    now rewrite H1, H2, H3, H4, H5, H6.
  - reflexivity.
Qed.

Lemma QueryProcessor_never_throws_witness :
  QueryProcessor "What is (2 + 3 in your name?" = Return "Rohan"%string
  /\ keywordAnswer (lit "what is 1 / 0?") = [].
Proof.
  destruct QueryProcessor_never_throws as [_ [_ [Hcatch [Hnone _]]]].
  split.
  - apply (Hcatch "What is (2 + 3 in your name?"%string (lit "(2 + 3 ")
                  MismatchedParentheses); reflexivity.
  - apply Hnone; reflexivity.
Defined.

(** ** The repository's tests, run on the model *)

Example test_returns_a_string :
  QueryProcessor "test" = Return EmptyString.
Proof. reflexivity. Qed.

Example test_shakespeare :
  QueryProcessor "shakespeare"
  = Return ("William Shakespeare (26 April 1564 - 23 April 1616) was an "
            ++ "English poet, playwright, and actor, widely regarded as the greatest "
            ++ "writer in the English language and the world's pre-eminent dramatist.")%string.
Proof. reflexivity. Qed.

Example test_name :
  QueryProcessor "What is your name?" = Return "Rohan"%string.
Proof. reflexivity. Qed.

Example test_andrewid :
  QueryProcessor "What is my andrewid?" = Return "andremil"%string.
Proof. reflexivity. Qed.

Example test_addition :
  QueryProcessor "What is 98 + 52?" = Return "150"%string.
Proof. vm_compute. reflexivity. Qed.

Example test_subtraction :
  QueryProcessor "What is 5 - 12?" = Return "-7"%string.
Proof. vm_compute. reflexivity. Qed.

Example test_precedence :
  QueryProcessor "What is 2 + 3 * 4?" = Return "14"%string
  /\ QueryProcessor "What is (2 + 3) * 4?" = Return "20"%string.
Proof. split; vm_compute; reflexivity. Qed.

Example test_decimal :
  QueryProcessor "What is 7 / 2?" = Return "3.5"%string.
Proof. vm_compute. reflexivity. Qed.

Example test_word_operator :
  QueryProcessor "What is 45 plus 53?" = Return "98"%string.
Proof. vm_compute. reflexivity. Qed.

Example test_largest :
  QueryProcessor "Which of the following numbers is the largest: 19, 27, 44?"
  = Return "44"%string.
Proof. vm_compute. reflexivity. Qed.

(** * Further properties *)

(** ** The evaluator computes the value of the expression tree *)

Lemma precedence_range (op : ascii) :
  (1 <= precedence op <= 2)%nat.
Proof. unfold precedence. destruct (_ || _); lia. Qed.

Lemma level_positive (e : Expr) : (1 <= level e)%nat.
Proof.
  destruct e as [n d|op l r|i]; simpl; try lia. apply precedence_range.
Qed.

Lemma shuntingYard_app (pre rest : list Token) :
  forall ops output,
    shuntingYard (pre ++ rest) ops output
    = ('(ops', output') <- shuntingYard pre ops output ;;
       shuntingYard rest ops' output').
Proof.
  induction pre as [|t pre IH]; intros ops output; simpl; [reflexivity|].
  destruct t as [v|v|v]; [apply IH| |].
  - destruct (popOperators v ops output). apply IH.
  - destruct (Ascii.eqb v "("); [apply IH|].
    destruct (popToOpenParen ops output) as [[ops1 output1]| |]; simpl;
      [apply IH|reflexivity|reflexivity].
Qed.

(** An incoming operator pops the waiting operators that bind at least as
    tightly and stops at the first that does not. *)
Lemma popOperators_waiting (value : ascii) (waiting : list Token) :
  forall ops output,
    Forall (operatorAtLeast (precedence value)) waiting ->
    (topPrecedence ops < precedence value)%nat ->
    popOperators value (waiting ++ ops) output = (ops, output ++ waiting).
Proof.
  induction waiting as [|t waiting IH]; intros ops output Hwaiting Htop.
  - simpl. rewrite app_nil_r.
    destruct ops as [|[v|top|v] ops]; simpl in *; try reflexivity.
    assert (H1 : (precedence value <? precedence top)%nat = false)
      by (apply Nat.ltb_ge; lia).
    assert (H2 : (precedence top =? precedence value)%nat = false)
      by (apply Nat.eqb_neq; lia).
    now rewrite H1, H2.
  - inversion Hwaiting as [|? ? Ht Hrest]; subst.
    destruct t as [v|top|v]; simpl in Ht; try contradiction.
    change ((TOp top :: waiting) ++ ops) with (TOp top :: (waiting ++ ops)).
    rewrite popOperators_pending by exact Ht.
    rewrite IH by assumption.
    now rewrite <- app_assoc.
Qed.

Lemma popToOpenParen_waiting (waiting : list Token) (p : nat) :
  forall ops output,
    Forall (operatorAtLeast p) waiting ->
    popToOpenParen (waiting ++ TParen "(" :: ops) output
    = Return (ops, output ++ waiting).
Proof.
  induction waiting as [|t waiting IH]; intros ops output Hwaiting; simpl.
  - now rewrite app_nil_r.
  - inversion Hwaiting as [|? ? Ht Hrest]; subst.
    destruct t as [v|top|v]; simpl in Ht; try contradiction.
    simpl. rewrite IH by assumption. now rewrite <- app_assoc.
Qed.

Lemma drainOperators_waiting (waiting : list Token) (p : nat) :
  forall output,
    Forall (operatorAtLeast p) waiting ->
    drainOperators waiting output = Return (output ++ waiting).
Proof.
  induction waiting as [|t waiting IH]; intros output Hwaiting; simpl.
  - now rewrite app_nil_r.
  - inversion Hwaiting as [|? ? Ht Hrest]; subst.
    destruct t as [v|top|v]; simpl in Ht; try contradiction.
    rewrite IH by assumption. now rewrite <- app_assoc.
Qed.

Lemma operatorAtLeast_weaken (p q : nat) (waiting : list Token) :
  (q <= p)%nat ->
  Forall (operatorAtLeast p) waiting -> Forall (operatorAtLeast q) waiting.
Proof.
  intros Hqp H. eapply Forall_impl; [|exact H].
  intros [v|op|v]; simpl; try tauto. lia.
Qed.

(** The shunting-yard loop on the tokens of a tree, below which only
    operators that bind less tightly wait: it emits a part of the tree's
    postfix form and leaves the rest, operators of the tree's own level or
    above, waiting on the stack. *)
Lemma shuntingYard_tokensOf (e : Expr) :
  properExpr e = true ->
  forall ops output,
    (topPrecedence ops < level e)%nat ->
    exists emitted waiting,
      shuntingYard (tokensOf e) ops output
      = Return (waiting ++ ops, output ++ emitted)
      /\ emitted ++ waiting = postfixOf e
      /\ Forall (operatorAtLeast (level e)) waiting.
Proof.
  induction e as [negative digits|op lhs IHl rhs IHr|inner IH];
    intros Hproper ops output Htop.
  - exists [TNumber (literalValue negative digits)], []. repeat split.
    constructor.
  - simpl in Hproper.
    apply andb_true_iff in Hproper as [Hproper Hright].
    apply andb_true_iff in Hproper as [Hproper Hleft].
    apply andb_true_iff in Hproper as [Hproper Hlr].
    apply andb_true_iff in Hproper as [Hop Hll].
    apply Nat.leb_le in Hll. apply Nat.ltb_lt in Hlr. simpl in Htop.
    destruct (IHl Hleft ops output) as (el & wl & Hl & Hel & Hwl); [lia|].
    destruct (IHr Hright (TOp op :: ops) (output ++ el ++ wl))
      as (er & wr & Hr & Her & Hwr); [simpl; lia|].
    exists (el ++ wl ++ er), (wr ++ [TOp op]).
    repeat split.
    + cbn [tokensOf]. rewrite shuntingYard_app, Hl. cbn [bind shuntingYard].
      rewrite (popOperators_waiting op wl ops (output ++ el));
        [|eapply operatorAtLeast_weaken; [exact Hll|exact Hwl]|exact Htop].
      rewrite <- (app_assoc output el wl). rewrite Hr.
      now rewrite <- !app_assoc.
    + cbn [postfixOf]. rewrite <- Hel, <- Her. now rewrite <- !app_assoc.
    + apply Forall_app. split.
      * eapply operatorAtLeast_weaken; [|exact Hwr]. simpl. lia.
      * constructor; [simpl; lia|constructor].
  - simpl in Hproper.
    destruct (IH Hproper (TParen "(" :: ops) output) as (ei & wi & Hi & Hei & Hwi);
      [simpl; apply level_positive|].
    exists (ei ++ wi), []. repeat split.
    + cbn [tokensOf shuntingYard]. change (Ascii.eqb "(" "(") with true. cbv iota.
      rewrite shuntingYard_app, Hi. cbn [bind shuntingYard].
      change (Ascii.eqb ")" "(") with false. cbv iota.
      rewrite (popToOpenParen_waiting wi _ ops (output ++ ei) Hwi).
      cbn [bind]. now rewrite <- app_assoc.
    + rewrite app_nil_r. exact Hei.
    + constructor.
Qed.

Lemma toPostfix_tokensOf (e : Expr) :
  properExpr e = true -> toPostfix (tokensOf e) = Return (postfixOf e).
Proof.
  intros Hproper.
  destruct (shuntingYard_tokensOf e Hproper [] []) as (em & wa & H & Hem & Hwa);
    [simpl; apply level_positive|].
  unfold toPostfix. rewrite H. cbn [bind app]. rewrite app_nil_r.
  rewrite (drainOperators_waiting wa _ em Hwa). now rewrite Hem.
Qed.

Lemma evalPostfix_postfixOf (e : Expr) :
  forall rest stack,
    evalPostfix (postfixOf e ++ rest) stack
    = (v <- valueOf e ;; evalPostfix rest (v :: stack)).
Proof.
  induction e as [negative digits|op lhs IHl rhs IHr|inner IH];
    intros rest stack; simpl.
  - reflexivity.
  - rewrite <- app_assoc, IHl.
    destruct (valueOf lhs) as [a| |]; simpl; try reflexivity.
    rewrite <- app_assoc, IHr.
    destruct (valueOf rhs) as [b| |]; simpl; try reflexivity.
  - apply IH.
Qed.

Lemma evaluateTokens_tokensOf (e : Expr) :
  properExpr e = true -> evaluateTokens (tokensOf e) = valueOf e.
Proof.
  intros Hproper. unfold evaluateTokens.
  rewrite (toPostfix_tokensOf e Hproper). cbn [bind].
  rewrite <- (app_nil_r (postfixOf e)), evalPostfix_postfixOf.
  destruct (valueOf e); reflexivity.
Qed.

Lemma isNumChar_classes (c : ascii) :
  isNumChar c = true -> isParenChar c = false /\ isOperatorChar c = false.
Proof.
  destruct c as [[] [] [] [] [] [] [] []]; vm_compute; intros H;
    first [discriminate H | split; reflexivity].
Qed.

Lemma isDecimalLiteral_isNumChar (s : list ascii) :
  JS.isDecimalLiteral s = true -> forallb isNumChar s = true.
Proof.
  unfold JS.isDecimalLiteral.
  assert (Hsplit : forall s int frac,
             JS.splitAtDot s = (int, frac) ->
             s = int ++ match frac with
                        | Some f => "."%char :: f
                        | None => []
                        end).
  { clear. induction s as [|c s IH]; intros int frac H; simpl in H.
    - now injection H as <- <-.
    - destruct (Ascii.eqb c ".") eqn:Hc.
      + apply Ascii.eqb_eq in Hc. subst c. now injection H as <- <-.
      + destruct (JS.splitAtDot s) as [a b]. injection H as <- <-.
        simpl. f_equal. now apply IH. }
  destruct (JS.splitAtDot s) as [int frac] eqn:Hs.
  rewrite (Hsplit _ _ _ Hs). intros H.
  apply andb_true_iff in H as [H _]. apply andb_true_iff in H as [Hint Hfrac].
  rewrite forallb_app, (forallb_isDigit_isNumChar _ Hint).
  destruct frac as [f|]; [|reflexivity].
  simpl. now apply forallb_isDigit_isNumChar.
Qed.

Lemma tokenizeStepSpec_number (expr : list ascii) (i : nat) (ch : ascii)
    (tokens : list Token) :
  isNumChar ch = true ->
  JS.isDecimalLiteral (numberRun expr i) = true ->
  nth_error expr i = Some ch ->
  tokenizeStepSpec expr i ch tokens
  = Return (tokens ++ [TNumber (JS.unsignedLiteral (numberRun expr i))],
            (i + List.length (numberRun expr i))%nat).
Proof.
  intros Hnum Hlit Hi. unfold tokenizeStepSpec.
  destruct (isNumChar_classes ch Hnum) as [-> ->]. rewrite Hnum.
  assert (Hrun : numberRun expr i = ch :: numberRun expr (S i)).
  { unfold numberRun. rewrite (skipn_nth_error _ _ _ Hi). simpl. now rewrite Hnum. }
  cbv zeta. rewrite Hrun in Hlit |- *.
  rewrite Number_numChar_run by exact Hnum.
  now rewrite unsignedLiteral_isNaN, Hlit.
Qed.

Lemma tokenizeFrom_advance (expr : list ascii) (i i' : nat) (ch : ascii)
    (tokens tokens' : list Token) :
  nth_error expr i = Some ch ->
  tokenizeStepSpec expr i ch tokens = Return (tokens', i') ->
  tokenizeFrom expr i tokens = tokenizeFrom expr i' tokens'.
Proof. intros Hi Hstep. now rewrite tokenizeFrom_unfold, Hi, Hstep. Qed.

Lemma skipn_cons_nth_error {A : Type} (l rest : list A) (i : nat) (c : A) :
  skipn i l = c :: rest -> nth_error l i = Some c /\ skipn (S i) l = rest.
Proof.
  revert i; induction l as [|x l IH]; intros [|i] H; simpl in *;
    try discriminate.
  - injection H as -> ->. auto.
  - now apply IH.
Qed.

Lemma skipn_app_advance {A : Type} (l a b : list A) (i : nat) :
  skipn i l = a ++ b -> skipn (i + List.length a) l = b.
Proof.
  intros H. rewrite Nat.add_comm, <- skipn_skipn, H. apply skipn_length_app.
Qed.

Lemma lastToken_tokensOf (e : Expr) (tokens : list Token) :
  unaryPosition (lastToken (tokens ++ tokensOf e)) = false.
Proof.
  revert tokens; induction e as [negative digits|op lhs IHl rhs IHr|inner IH];
    intros tokens; simpl.
  - now rewrite lastToken_app.
  - change (tokens ++ tokensOf lhs ++ TOp op :: tokensOf rhs)
      with (tokens ++ tokensOf lhs ++ [TOp op] ++ tokensOf rhs).
    rewrite !app_assoc. apply IHr.
  - change (tokens ++ TParen "(" :: tokensOf inner ++ [TParen ")"])
      with (tokens ++ (TParen "(" :: tokensOf inner) ++ [TParen ")"]).
    rewrite app_assoc. now rewrite lastToken_app.
Qed.

(** The tokenizer reads a written-out tree as the tree's tokens, wherever
    the tree stands as an operand: at the start, after an operator or
    after an opening parenthesis, and before anything that is not a digit
    or a decimal point. *)
Lemma tokenizeFrom_render (e : Expr) :
  properExpr e = true ->
  forall (expr : list ascii) (i : nat) (tokens : list Token) (post : list ascii),
    skipn i expr = render e ++ post -> stops post ->
    unaryPosition (lastToken tokens) = true ->
    tokenizeFrom expr i tokens
    = tokenizeFrom expr (i + List.length (render e)) (tokens ++ tokensOf e).
Proof.
  induction e as [negative digits|op lhs IHl rhs IHr|inner IH];
    intros Hproper expr i tokens post Hskip Hstop Hunary.
  - (* a literal *)
    cbn [properExpr] in Hproper. cbn [render tokensOf] in *.
    pose proof (isDecimalLiteral_isNumChar _ Hproper) as Hnum.
    destruct negative; cbn [app] in Hskip.
    + apply skipn_cons_nth_error in Hskip as [Hi Hskip].
      destruct (numberRun_literal expr (S i) digits post Hskip Hnum Hstop)
        as [Hrun _].
      pose proof (tokenizeStepSpec_minus_literal expr i tokens Hunary) as Hstep.
      rewrite Hrun in Hstep. specialize (Hstep Hproper).
      rewrite (tokenizeFrom_advance _ _ _ _ _ _ Hi Hstep).
      cbn [List.length app literalValue]. f_equal. lia.
    + destruct digits as [|ch digits]; [discriminate Hproper|].
      cbn [app] in Hskip.
      pose proof (proj1 (skipn_cons_nth_error _ _ _ _ Hskip)) as Hi.
      destruct (numberRun_literal expr i (ch :: digits) post Hskip Hnum Hstop)
        as [Hrun _].
      simpl in Hnum. apply andb_true_iff in Hnum as [Hch _].
      pose proof (tokenizeStepSpec_number expr i ch tokens Hch) as Hstep.
      rewrite Hrun in Hstep. specialize (Hstep Hproper Hi).
      rewrite (tokenizeFrom_advance _ _ _ _ _ _ Hi Hstep).
      reflexivity.
  - (* a binary operation *)
    cbn [properExpr] in Hproper.
    apply andb_true_iff in Hproper as [Hproper Hright].
    apply andb_true_iff in Hproper as [Hproper Hleft].
    apply andb_true_iff in Hproper as [Hproper _].
    apply andb_true_iff in Hproper as [Hop _].
    destruct (isOperatorChar_classes op Hop) as (Hparen & Hnum & _).
    cbn [render tokensOf] in *. rewrite <- app_assoc in Hskip.
    rewrite (IHl Hleft expr i tokens (op :: render rhs ++ post) Hskip Hnum Hunary).
    pose proof (skipn_app_advance _ _ _ _ Hskip) as Hskip1.
    apply skipn_cons_nth_error in Hskip1 as [Hi1 Hskip2].
    rewrite (tokenizeFrom_advance expr (i + List.length (render lhs))
               (S (i + List.length (render lhs))) op
               (tokens ++ tokensOf lhs) ((tokens ++ tokensOf lhs) ++ [TOp op]) Hi1).
    + rewrite (IHr Hright expr _ _ post Hskip2 Hstop)
        by now rewrite lastToken_app.
      rewrite length_app. cbn [List.length].
      rewrite <- !app_assoc. cbn [app]. f_equal. lia.
    + unfold tokenizeStepSpec.
      rewrite Hparen, Hop, (lastToken_tokensOf lhs tokens), andb_false_r.
      reflexivity.
  - (* a group *)
    cbn [properExpr] in Hproper. cbn [render tokensOf] in *.
    cbn [app] in Hskip. apply skipn_cons_nth_error in Hskip as [Hi Hskip].
    rewrite (tokenizeFrom_advance expr i (S i) "(" tokens
               (tokens ++ [TParen "("]) Hi eq_refl).
    rewrite <- app_assoc in Hskip.
    rewrite (IH Hproper expr (S i) _ (")"%char :: post) Hskip eq_refl)
      by now rewrite lastToken_app.
    pose proof (skipn_app_advance _ _ _ _ Hskip) as Hskip1.
    apply skipn_cons_nth_error in Hskip1 as [Hi1 _].
    rewrite (tokenizeFrom_advance expr _ (S (S i + List.length (render inner)))
               ")" _ (((tokens ++ [TParen "("]) ++ tokensOf inner)
                        ++ [TParen ")"]) Hi1 eq_refl).
    cbn [List.length]. rewrite length_app. cbn [List.length].
    rewrite <- !app_assoc. cbn [app]. f_equal. lia.
Qed.

Lemma tokenize_render (e : Expr) :
  properExpr e = true -> tokenize (render e) = Return (tokensOf e).
Proof.
  intros Hproper. rewrite tokenize_tokenizeFrom.
  rewrite (tokenizeFrom_render e Hproper (render e) 0 [] []);
    [|now rewrite app_nil_r|exact I|reflexivity].
  apply tokenizeFrom_end. apply nth_error_None. simpl. lia.
Qed.

(** X1: the evaluator computes the value of the expression it is given.
    For every expression tree written out without redundant parentheses
    (literals, the four operators, groups in parentheses), evaluating the
    written-out string gives what the tree denotes: operands are evaluated
    from the first to the last, [*] and [/] before [+] and [-], operators
    of equal precedence from the left, parenthesised groups first; a
    division by zero in the tree is the [DivisionByZero] of the
    evaluation. *)
Theorem evaluateExpression_computes_the_tree (e : Expr) :
  properExpr e = true ->
  tokenize (render e) = Return (tokensOf e)
  /\ toPostfix (tokensOf e) = Return (postfixOf e)
  /\ evaluateExpression (string_of_list_ascii (render e)) = valueOf e.
Proof.
  intros Hproper.
  split; [now apply tokenize_render|].
  split; [now apply toPostfix_tokensOf|].
  unfold evaluateExpression, evaluateChars.
  rewrite list_ascii_of_string_of_list_ascii, (tokenize_render e Hproper).
  cbn [bind]. now apply evaluateTokens_tokensOf.
Qed.

Lemma evaluateExpression_computes_the_tree_witness :
  evaluateExpression "1-(2-3)*4/-5"
  = valueOf
      (Binary "-" (Literal false ["1"%char])
         (Binary "/"
            (Binary "*"
               (Group (Binary "-" (Literal false ["2"%char])
                                  (Literal false ["3"%char])))
               (Literal false ["4"%char]))
            (Literal true ["5"%char]))).
Proof.
  exact (proj2 (proj2 (evaluateExpression_computes_the_tree
                         (Binary "-" (Literal false ["1"%char])
                            (Binary "/"
                               (Binary "*"
                                  (Group (Binary "-" (Literal false ["2"%char])
                                                     (Literal false ["3"%char])))
                                  (Literal false ["4"%char]))
                               (Literal true ["5"%char])))
                         eq_refl))).
Defined.

(** ** Characters outside the alphabet *)

Lemma takeWhile_stops_at {A : Type} (f : A -> bool) (a b : list A) (c : A) :
  f c = false ->
  (List.length (takeWhile f (a ++ c :: b)) <= List.length a)%nat.
Proof.
  intros Hc. induction a as [|x a IH]; simpl.
  - rewrite Hc. simpl. lia.
  - destruct (f x); simpl; lia.
Qed.

Lemma isExpressionChar_cases (c : ascii) :
  isExpressionChar c = true ->
  isParenChar c = true \/ isOperatorChar c = true \/ isNumChar c = true.
Proof.
  unfold isExpressionChar, isNumChar.
  destruct (JS.isDigit c), (isOperatorChar c), (isParenChar c), (Ascii.eqb c ".");
    simpl; intros H; auto; discriminate.
Qed.

Lemma isExpressionChar_false (c : ascii) :
  isExpressionChar c = false ->
  isParenChar c = false /\ isOperatorChar c = false /\ isNumChar c = false.
Proof.
  unfold isExpressionChar, isNumChar.
  destruct (JS.isDigit c), (isOperatorChar c), (isParenChar c), (Ascii.eqb c ".");
    simpl; intros H; auto; discriminate.
Qed.

(** One turn at an index before the first character [c] outside the
    alphabet stays before it, or throws [InvalidNumber]. *)
Lemma tokenizeStepSpec_before (pre post : list ascii) (c ch : ascii)
    (i : nat) (tokens : list Token) :
  forallb isExpressionChar pre = true -> isExpressionChar c = false ->
  nth_error (pre ++ c :: post) i = Some ch -> (i < List.length pre)%nat ->
  tokenizeStepSpec (pre ++ c :: post) i ch tokens = Throw InvalidNumber
  \/ exists tokens' i',
      tokenizeStepSpec (pre ++ c :: post) i ch tokens = Return (tokens', i')
      /\ (i < i' <= List.length pre)%nat.
Proof.
  intros Hpre Hc Hi Hlt.
  destruct (isExpressionChar_false c Hc) as (_ & _ & Hcnum).
  assert (Hch : isExpressionChar ch = true).
  { rewrite nth_error_app1 in Hi by exact Hlt.
    apply nth_error_In in Hi. rewrite forallb_forall in Hpre. now apply Hpre. }
  assert (Hrun : forall j, (j <= List.length pre)%nat ->
                           (j + List.length (numberRun (pre ++ c :: post) j)
                            <= List.length pre)%nat).
  { intros j Hj. unfold numberRun. rewrite skipn_app.
    replace (j - List.length pre)%nat with O by lia. cbn [skipn].
    pose proof (takeWhile_stops_at isNumChar (skipn j pre) post c Hcnum) as H.
    rewrite length_skipn in H. lia. }
  pose proof (progress := tokenizeStep_progress (pre ++ c :: post) i ch tokens).
  rewrite tokenizeStep_spec in progress.
  unfold tokenizeStepSpec in *.
  destruct (isParenChar ch) eqn:Hp; [right; eexists _, _; split; [reflexivity|lia]|].
  destruct (isOperatorChar ch) eqn:Ho.
  - destruct (Ascii.eqb ch "-" && unaryPosition (lastToken tokens));
      [|right; eexists _, _; split; [reflexivity|lia]].
    pose proof (Hrun (S i) Hlt) as Hr.
    destruct (numberRun (pre ++ c :: post) (S i)) as [|d run];
      [right; eexists _, _; split; [reflexivity|lia]|].
    destruct (JS.isNaN _); [now left|].
    right. eexists _, _. split; [reflexivity|]. cbn [List.length] in Hr |- *. lia.
  - destruct (isNumChar ch) eqn:Hnum.
    + pose proof (Hrun i (Nat.lt_le_incl _ _ Hlt)) as Hr.
      cbv zeta in *. destruct (JS.isNaN _); [now left|].
      right. eexists _, _. split; [reflexivity|].
      specialize (progress _ _ Hi eq_refl). lia.
    + destruct (isExpressionChar_cases ch Hch) as [H|[H|H]]; congruence.
Qed.

Lemma tokenizeFrom_invalid_character (pre post : list ascii) (c : ascii)
    (n : nat) :
  forallb isExpressionChar pre = true -> isExpressionChar c = false ->
  forall (i : nat) (tokens : list Token),
    (List.length pre - i <= n)%nat -> (i <= List.length pre)%nat ->
    tokenizeFrom (pre ++ c :: post) i tokens = Throw InvalidNumber
    \/ tokenizeFrom (pre ++ c :: post) i tokens = Throw (InvalidCharacter c).
Proof.
  intros Hpre Hc.
  assert (Hat : forall tokens,
             tokenizeFrom (pre ++ c :: post) (List.length pre) tokens
             = Throw (InvalidCharacter c)).
  { intros tokens. rewrite tokenizeFrom_unfold.
    rewrite nth_error_app2, Nat.sub_diag by lia. cbn [nth_error].
    unfold tokenizeStepSpec.
    destruct (isExpressionChar_false c Hc) as (-> & -> & ->). reflexivity. }
  induction n as [|n IH]; intros i tokens Hn Hi.
  - replace i with (List.length pre) by lia. right. apply Hat.
  - destruct (Nat.eq_dec i (List.length pre)) as [->|Hne]; [right; apply Hat|].
    assert (Hlt : (i < List.length pre)%nat) by lia.
    destruct (nth_error (pre ++ c :: post) i) as [ch|] eqn:Hch.
    + rewrite tokenizeFrom_unfold, Hch.
      destruct (tokenizeStepSpec_before pre post c ch i tokens Hpre Hc Hch Hlt)
        as [-> | (tokens' & i' & -> & Hi')]; [now left|].
      cbn [bind]. apply IH; lia.
    + apply nth_error_None in Hch. rewrite length_app in Hch. lia.
Qed.

Lemma forallb_first_failure {A : Type} (f : A -> bool) (l : list A) :
  forallb f l = false ->
  exists pre c post, l = pre ++ c :: post /\ forallb f pre = true /\ f c = false.
Proof.
  induction l as [|x l IH]; simpl; [discriminate|].
  destruct (f x) eqn:Hx; simpl; intros H.
  - destruct (IH H) as (pre & c & post & -> & Hpre & Hc).
    exists (x :: pre), c, post. simpl. now rewrite Hx.
  - exists [], x, l. auto.
Qed.



(** ** What the tokenizer returns *)

Lemma tokenizeStepSpec_push (expr : list ascii) (i i' : nat) (ch : ascii)
    (tokens tokens' : list Token) :
  tokenizeStepSpec expr i ch tokens = Return (tokens', i') ->
  exists t, tokens' = tokens ++ [t] /\ validToken t = true.
Proof.
  unfold tokenizeStepSpec.
  destruct (isParenChar ch) eqn:Hp; [intros [= <- _]; eauto|].
  destruct (isOperatorChar ch) eqn:Ho.
  - destruct (Ascii.eqb ch "-" && unaryPosition (lastToken tokens));
      [|intros [= <- _]; eauto].
    destruct (numberRun expr (S i)) as [|c run]; [intros [= <- _]; eauto|].
    destruct (JS.isNaN _) eqn:Hnan; [discriminate|].
    intros [= <- _]. eexists. split; [reflexivity|]. apply negb_true_iff. exact Hnan.
  - destruct (isNumChar ch); [|discriminate].
    cbv zeta. destruct (JS.isNaN _) eqn:Hnan; [discriminate|].
    intros [= <- _]. eexists. split; [reflexivity|]. apply negb_true_iff. exact Hnan.
Qed.

Lemma tokenizeFrom_valid (n : nat) (expr : list ascii) :
  forall (i : nat) (tokens result : list Token),
    (List.length expr - i <= n)%nat ->
    tokenizeFrom expr i tokens = Return result ->
    forallb validToken tokens = true ->
    forallb validToken result = true
    /\ (List.length result <= List.length tokens + (List.length expr - i))%nat.
Proof.
  induction n as [|n IH]; intros i tokens result Hn H Htokens;
    rewrite tokenizeFrom_unfold in H;
    destruct (nth_error expr i) as [ch|] eqn:Hi;
    try (injection H as <-; split; [exact Htokens|lia]).
  - assert (i < List.length expr)%nat by (apply nth_error_Some; congruence). lia.
  - destruct (tokenizeStepSpec expr i ch tokens) as [[tokens' i']| |] eqn:Hstep;
      try discriminate.
    cbn [bind] in H.
    pose proof (Hstep' := Hstep). rewrite <- tokenizeStep_spec in Hstep'.
    pose proof (tokenizeStep_progress _ _ _ _ _ _ Hi Hstep') as Hprogress.
    destruct (tokenizeStepSpec_push _ _ _ _ _ _ Hstep) as (t & -> & Ht).
    destruct (IH i' (tokens ++ [t]) result) as [Hvalid Hlen]; [lia|exact H| |].
    + rewrite forallb_app, Htokens. simpl. now rewrite Ht.
    + split; [exact Hvalid|]. rewrite length_app in Hlen. simpl in Hlen. lia.
Qed.

(** X3: every token the tokenizer returns is a number that is not [NaN],
    one of the operators [+ - * /], or a parenthesis, and there is at most
    one token for each character of the expression. *)
Theorem tokenize_returns_valid_tokens (expr : list ascii) (tokens : list Token) :
  tokenize expr = Return tokens ->
  forallb validToken tokens = true
  /\ (List.length tokens <= List.length expr)%nat.
Proof.
  rewrite tokenize_tokenizeFrom. intros H.
  destruct (tokenizeFrom_valid (List.length expr) expr 0 [] tokens) as [Hv Hl];
    [lia|exact H|reflexivity|].
  split; [exact Hv|]. simpl in Hl. lia.
Qed.

Lemma tokenize_returns_valid_tokens_witness :
  forallb validToken
    [TNumber (SFopp (JS.ofZ 3)); TOp "*"; TParen "("; TNumber (JS.ofZ 2);
     TParen ")"] = true
  /\ (List.length [TNumber (SFopp (JS.ofZ 3)); TOp "*"; TParen "(";
                   TNumber (JS.ofZ 2); TParen ")"]
      <= List.length (list_ascii_of_string "-3*(2)"))%nat.
Proof.
  exact (tokenize_returns_valid_tokens (list_ascii_of_string "-3*(2)") _ eq_refl).
Defined.

(** ** The shape of the postfix form *)

Lemma numbersOf_app (a b : list Token) :
  numbersOf (a ++ b) = numbersOf a ++ numbersOf b.
Proof.
  induction a as [|t a IH]; simpl; [reflexivity|].
  destruct t; simpl; now rewrite IH.
Qed.

Lemma operatorCount_app (a b : list Token) :
  operatorCount (a ++ b) = (operatorCount a + operatorCount b)%nat.
Proof.
  induction a as [|t a IH]; simpl; [reflexivity|].
  destruct t; simpl; now rewrite IH.
Qed.

Lemma parenCount_app (a b : list Token) :
  parenCount (a ++ b) = (parenCount a + parenCount b)%nat.
Proof.
  induction a as [|t a IH]; simpl; [reflexivity|].
  destruct t; simpl; now rewrite IH.
Qed.

Lemma popOperators_moved (value : ascii) (ops : list Token) :
  forall output,
    forallb opsEntry ops = true ->
    moved ops output (fst (popOperators value ops output))
          (snd (popOperators value ops output)).
Proof.
  unfold moved.
  induction ops as [|t ops IH]; intros output Hops; simpl; [auto|].
  destruct t as [v|top|v]; try (simpl; auto; fail).
  destruct (_ || _); [|simpl; auto].
  simpl in Hops.
  destruct (IH (output ++ [TOp top]) Hops) as (H1 & H2 & H3 & H4).
  rewrite numbersOf_app, operatorCount_app, parenCount_app in *.
  simpl in *. rewrite app_nil_r in H2. repeat split; try assumption; lia.
Qed.

Lemma popToOpenParen_moved (ops : list Token) :
  forall output ops' output',
    popToOpenParen ops output = Return (ops', output') ->
    forallb opsEntry ops = true ->
    moved ops output ops' output'.
Proof.
  unfold moved.
  induction ops as [|t ops IH]; intros output ops' output' H Hops;
    simpl in H; [discriminate|].
  simpl in Hops. apply andb_true_iff in Hops as [Ht Hops].
  destruct t as [v|top|v]; simpl in *; try discriminate.
  - destruct (IH _ _ _ H Hops) as (H1 & H2 & H3 & H4).
    rewrite numbersOf_app, operatorCount_app, parenCount_app in *.
    simpl in *. rewrite app_nil_r in H2. repeat split; try assumption; lia.
  - rewrite Ht in H. injection H as <- <-. repeat split; auto.
Qed.

Lemma drainOperators_moved (ops : list Token) :
  forall output output',
    drainOperators ops output = Return output' ->
    forallb opsEntry ops = true ->
    moved ops output [] output'.
Proof.
  unfold moved.
  induction ops as [|t ops IH]; intros output output' H Hops; simpl in H.
  - injection H as <-. repeat split; simpl; lia.
  - simpl in Hops. apply andb_true_iff in Hops as [Ht Hops].
    destruct t as [v|top|v]; simpl in *; try discriminate.
    destruct (IH _ _ H Hops) as (H1 & H2 & H3 & H4).
    rewrite numbersOf_app, operatorCount_app, parenCount_app in *.
    simpl in *. rewrite app_nil_r in H2. repeat split; try assumption; lia.
Qed.

Lemma shuntingYard_shape (tokens : list Token) :
  forall ops output ops' output',
    shuntingYard tokens ops output = Return (ops', output') ->
    forallb opsEntry ops = true ->
    forallb opsEntry ops' = true
    /\ numbersOf output' = numbersOf output ++ numbersOf tokens
    /\ (operatorCount output' + operatorCount ops'
        = operatorCount output + operatorCount ops + operatorCount tokens)%nat
    /\ parenCount output' = parenCount output.
Proof.
  induction tokens as [|t tokens IH]; intros ops output ops' output' H Hops;
    simpl in H.
  - injection H as <- <-. rewrite app_nil_r. repeat split; auto; simpl; lia.
  - destruct t as [v|v|v].
    + destruct (IH _ _ _ _ H Hops) as (H1 & H2 & H3 & H4).
      rewrite numbersOf_app, operatorCount_app, parenCount_app in *.
      simpl in *. rewrite <- app_assoc in H2. repeat split; try assumption; lia.
    + pose proof (popOperators_moved v ops output Hops) as (M1 & M2 & M3 & M4).
      destruct (popOperators v ops output) as [ops1 output1]. simpl in *.
      destruct (IH _ _ _ _ H M1) as (H1 & H2 & H3 & H4).
      simpl in *. rewrite M2 in H2. repeat split; try assumption; lia.
    + destruct (Ascii.eqb v "(") eqn:Hv.
      * destruct (IH _ _ _ _ H) as (H1 & H2 & H3 & H4);
          [simpl; now rewrite Hv|].
        simpl in *. repeat split; try assumption; lia.
      * destruct (popToOpenParen ops output) as [[ops1 output1]| |] eqn:Hpop;
          try discriminate.
        destruct (popToOpenParen_moved _ _ _ _ Hpop Hops) as (M1 & M2 & M3 & M4).
        cbn [bind] in H.
        destruct (IH _ _ _ _ H M1) as (H1 & H2 & H3 & H4).
        simpl in *. rewrite M2 in H2. repeat split; try assumption; lia.
Qed.



(** X5: the conversion to postfix form succeeds exactly on the token
    sequences whose parentheses nest properly; [MismatchedParentheses] is
    the only error it throws. *)
Theorem toPostfix_returns_iff_balanced (tokens : list Token) :
  (balanced 0 tokens = true <-> exists output, toPostfix tokens = Return output)
  /\ (forall e, toPostfix tokens = Throw e -> e = MismatchedParentheses)
  /\ toPostfix tokens <> OutOfFuel.
Proof.
  pose proof (toPostfix_balanced tokens) as H.
  destruct (balanced 0 tokens).
  - destruct H as [output H]. rewrite H. repeat split; eauto; discriminate.
  - rewrite H. repeat split; try discriminate.
    + intros [output Hout]. discriminate.
    + now intros e [= <-].
Qed.

Lemma toPostfix_returns_iff_balanced_witness :
  exists output,
    toPostfix [TParen "("; TNumber (JS.ofZ 1); TParen ")"] = Return output.
Proof.
  exact (proj1 (proj1 (toPostfix_returns_iff_balanced
                         [TParen "("; TNumber (JS.ofZ 1); TParen ")"]))
               eq_refl).
Defined.

(** ** The errors of an evaluation *)

Section MovedTokens.

Variable P : Token -> Prop.

Lemma popOperators_Forall (value : ascii) (ops : list Token) :
  forall output,
    Forall P ops -> Forall P output ->
    Forall P (fst (popOperators value ops output))
    /\ Forall P (snd (popOperators value ops output)).
Proof.
  induction ops as [|t ops IH]; intros output Hops Hout; simpl; [auto|].
  destruct t as [v|top|v]; auto.
  destruct (_ || _); auto.
  apply IH; [now inversion Hops|].
  apply Forall_app. split; [exact Hout|].
  constructor; [now inversion Hops|constructor].
Qed.

Lemma popToOpenParen_Forall (ops : list Token) :
  forall output ops' output',
    popToOpenParen ops output = Return (ops', output') ->
    Forall P ops -> Forall P output ->
    Forall P ops' /\ Forall P output'.
Proof.
  induction ops as [|t ops IH]; intros output ops' output' H Hops Hout;
    simpl in H; [discriminate|].
  inversion Hops as [|? ? Ht Hops']; subst.
  destruct (isOpenParen t).
  - injection H as <- <-. auto.
  - eapply IH; [exact H|exact Hops'|].
    apply Forall_app. split; [exact Hout|now constructor].
Qed.

Lemma drainOperators_Forall (ops : list Token) :
  forall output output',
    drainOperators ops output = Return output' ->
    Forall P ops -> Forall P output -> Forall P output'.
Proof.
  induction ops as [|t ops IH]; intros output output' H Hops Hout; simpl in H.
  - now injection H as <-.
  - inversion Hops as [|? ? Ht Hops']; subst.
    destruct t as [v|v|v]; try discriminate;
      (eapply IH; [exact H|exact Hops'|]);
      apply Forall_app; (split; [exact Hout|now constructor]).
Qed.

Lemma shuntingYard_Forall (tokens : list Token) :
  forall ops output ops' output',
    shuntingYard tokens ops output = Return (ops', output') ->
    Forall P tokens -> Forall P ops -> Forall P output ->
    Forall P ops' /\ Forall P output'.
Proof.
  induction tokens as [|t tokens IH];
    intros ops output ops' output' H Htokens Hops Hout; simpl in H.
  - injection H as <- <-. auto.
  - inversion Htokens as [|? ? Ht Htokens']; subst.
    destruct t as [v|v|v].
    + eapply IH; [exact H|exact Htokens'|exact Hops|].
      apply Forall_app. split; [exact Hout|now constructor].
    + destruct (popOperators_Forall v ops output Hops Hout) as [Hops1 Hout1].
      destruct (popOperators v ops output) as [ops1 output1]. simpl in *.
      eapply IH; [exact H|exact Htokens'| |exact Hout1].
      now constructor.
    + destruct (Ascii.eqb v "(").
      * eapply IH; [exact H|exact Htokens'| |exact Hout]. now constructor.
      * destruct (popToOpenParen ops output) as [[ops1 output1]| |] eqn:Hpop;
          try discriminate.
        destruct (popToOpenParen_Forall _ _ _ _ Hpop Hops Hout) as [Hops1 Hout1].
        simpl in H. eapply IH; eassumption.
Qed.

(** The postfix form holds tokens of the expression only. *)
Lemma toPostfix_Forall (tokens output : list Token) :
  toPostfix tokens = Return output -> Forall P tokens -> Forall P output.
Proof.
  unfold toPostfix. intros H Htokens.
  destruct (shuntingYard tokens [] []) as [[ops out]| |] eqn:Hsy; try discriminate.
  destruct (shuntingYard_Forall _ _ _ _ _ Hsy Htokens) as [Hops Hout];
    try constructor.
  simpl in H. eapply drainOperators_Forall; eassumption.
Qed.

End MovedTokens.

Lemma tokenizeStepSpec_throws (expr : list ascii) (i : nat) (ch : ascii)
    (tokens : list Token) (e : Error) :
  tokenizeStepSpec expr i ch tokens = Throw e ->
  e = InvalidNumber \/ (e = InvalidCharacter ch /\ isExpressionChar ch = false).
Proof.
  unfold tokenizeStepSpec.
  destruct (isParenChar ch) eqn:Hp; [discriminate|].
  destruct (isOperatorChar ch) eqn:Ho.
  - destruct (_ && _); [|discriminate].
    destruct (numberRun expr (S i)); [discriminate|].
    destruct (JS.isNaN _); [|discriminate]. intros [= <-]. now left.
  - destruct (isNumChar ch) eqn:Hnum.
    + cbv zeta. destruct (JS.isNaN _); [|discriminate]. intros [= <-]. now left.
    + intros [= <-]. right. split; [reflexivity|].
      unfold isExpressionChar. unfold isNumChar in Hnum.
      apply orb_false_iff in Hnum as [-> ->]. now rewrite Ho, Hp.
Qed.

Lemma tokenizeFrom_throws (n : nat) (expr : list ascii) :
  forall (i : nat) (tokens : list Token) (e : Error),
    (List.length expr - i <= n)%nat ->
    tokenizeFrom expr i tokens = Throw e ->
    e = InvalidNumber
    \/ exists ch, e = InvalidCharacter ch /\ In ch expr
                  /\ isExpressionChar ch = false.
Proof.
  induction n as [|n IH]; intros i tokens e Hn H;
    rewrite tokenizeFrom_unfold in H;
    destruct (nth_error expr i) as [ch|] eqn:Hi; try discriminate.
  - assert (i < List.length expr)%nat by (apply nth_error_Some; congruence). lia.
  - destruct (tokenizeStepSpec expr i ch tokens) as [[tokens' i']| |] eqn:Hstep;
      try discriminate.
    + cbn [bind] in H.
      pose proof (Hstep' := Hstep). rewrite <- tokenizeStep_spec in Hstep'.
      pose proof (tokenizeStep_progress _ _ _ _ _ _ Hi Hstep').
      eapply IH; [|exact H]. lia.
    + cbn [bind] in H. injection H as <-.
      destruct (tokenizeStepSpec_throws _ _ _ _ _ Hstep) as [->|[-> Hch]];
        [now left|].
      right. exists ch. repeat split; [|exact Hch].
      eapply nth_error_In, Hi.
Qed.

Lemma evalPostfix_throws (output : list Token) :
  forall (stack : list JS.number) (e : Error),
    Forall (fun t => validToken t = true) output ->
    evalPostfix output stack = Throw e ->
    e = DivisionByZero \/ e = MalformedExpression.
Proof.
  induction output as [|t output IH]; intros stack e Hout H; simpl in H;
    [discriminate|].
  inversion Hout as [|? ? Ht Hout']; subst.
  destruct t as [v|v|v]; try (eapply IH; eassumption).
  destruct stack as [|b [|a stack]]; try (injection H as <-; now right).
  simpl in Ht.
  destruct (applyOperator_known v a b Ht) as [Hop | [r Hop]]; rewrite Hop in H.
  - injection H as <-. now left.
  - cbn [bind] in H. eapply IH; eassumption.
Qed.

Lemma tokenize_Forall_valid (expr : list ascii) (tokens : list Token) :
  tokenize expr = Return tokens -> Forall (fun t => validToken t = true) tokens.
Proof.
  rewrite tokenize_tokenizeFrom. intros H.
  destruct (tokenizeFrom_valid (List.length expr) expr 0 [] tokens) as [Hv _];
    [lia|exact H|reflexivity|].
  now apply forallb_Forall_true.
Qed.

Lemma evaluateChars_throws (expr : list ascii) (e : Error) :
  evaluateChars expr = Throw e ->
  e = InvalidNumber
  \/ (exists ch, e = InvalidCharacter ch /\ In ch expr
                 /\ isExpressionChar ch = false)
  \/ e = MismatchedParentheses
  \/ e = DivisionByZero
  \/ e = MalformedExpression.
Proof.
  intros H. unfold evaluateChars in H.
  destruct (tokenize expr) as [tokens|e'|] eqn:Htok; try discriminate.
  - cbn [bind] in H. unfold evaluateTokens in H.
    pose proof (tokenize_Forall_valid _ _ Htok) as Hvalid.
    destruct (toPostfix tokens) as [output|e'|] eqn:Hpost; try discriminate.
    + cbn [bind] in H.
      pose proof (toPostfix_Forall _ _ _ Hpost Hvalid) as Hout.
      destruct (evalPostfix output []) as [stack|e'|] eqn:Heval;
        try discriminate.
      * cbn [bind] in H. destruct stack as [|v [|w stack]];
          try discriminate; injection H as <-; auto.
      * cbn [bind] in H. injection H as <-.
        destruct (evalPostfix_throws _ _ _ Hout Heval) as [-> | ->]; auto.
    + cbn [bind] in H. injection H as <-.
      pose proof (toPostfix_balanced tokens) as Hb. rewrite Hpost in Hb.
      destruct (balanced 0 tokens); [destruct Hb; discriminate|].
      injection Hb as ->. auto.
  - cbn [bind] in H. injection H as <-.
    rewrite tokenize_tokenizeFrom in Htok.
    destruct (tokenizeFrom_throws _ _ _ _ _ (Nat.le_refl _) Htok)
      as [-> | Hch]; auto.
Qed.

(** X6: an evaluation that fails throws one of five errors, each from its
    own stage: [InvalidNumber], or [InvalidCharacter] for a character of
    the expression outside the alphabet, from the tokenizer;
    [MismatchedParentheses] from the conversion to postfix form;
    [DivisionByZero] or [MalformedExpression] from the postfix evaluation.
    The ['Unknown operator'] error of the [switch] is never thrown. *)
Theorem evaluation_errors (expr : string) (e : Error) :
  evaluateExpression expr = Throw e ->
  (e = InvalidNumber
   \/ (exists ch, e = InvalidCharacter ch
                  /\ In ch (list_ascii_of_string expr)
                  /\ isExpressionChar ch = false)
   \/ e = MismatchedParentheses
   \/ e = DivisionByZero
   \/ e = MalformedExpression)
  /\ forall op, e <> UnknownOperator op.
Proof.
  intros H. apply evaluateChars_throws in H.
  split; [exact H|].
  intros op ->.
  destruct H as [H1|[(ch & H1 & _)|[H1|[H1|H1]]]]; discriminate.
Qed.

Lemma evaluation_errors_witness :
  (MalformedExpression = InvalidNumber
   \/ (exists ch, MalformedExpression = InvalidCharacter ch
                  /\ In ch (list_ascii_of_string "2+")
                  /\ isExpressionChar ch = false)
   \/ MalformedExpression = MismatchedParentheses
   \/ MalformedExpression = DivisionByZero
   \/ MalformedExpression = MalformedExpression)
  /\ forall op, MalformedExpression <> UnknownOperator op.
Proof.
  exact (evaluation_errors "2+" MalformedExpression eq_refl).
Defined.

(** ** Parentheses around an expression *)

Lemma popOperators_bottom (value : ascii) (bottom : Token) (ops : list Token) :
  isOpenParen bottom = true ->
  forall output,
    popOperators value (ops ++ [bottom]) output
    = (fst (popOperators value ops output) ++ [bottom],
       snd (popOperators value ops output)).
Proof.
  intros Hbottom. induction ops as [|t ops IH]; intros output; simpl.
  - destruct bottom as [v|v|v]; try discriminate. reflexivity.
  - destruct t as [v|top|v]; try reflexivity.
    destruct (_ || _); [apply IH|reflexivity].
Qed.

Lemma popToOpenParen_bottom (bottom : Token) (ops : list Token) :
  forall output ops' output',
    popToOpenParen ops output = Return (ops', output') ->
    popToOpenParen (ops ++ [bottom]) output = Return (ops' ++ [bottom], output').
Proof.
  induction ops as [|t ops IH]; intros output ops' output' H; simpl in *;
    [discriminate|].
  destruct (isOpenParen t); [now injection H as <- <-|now apply IH].
Qed.

(** An opening parenthesis below the operator stack is not touched by a
    conversion that succeeds without it. *)
Lemma shuntingYard_bottom (bottom : Token) (tokens : list Token) :
  isOpenParen bottom = true ->
  forall ops output ops' output',
    shuntingYard tokens ops output = Return (ops', output') ->
    shuntingYard tokens (ops ++ [bottom]) output
    = Return (ops' ++ [bottom], output').
Proof.
  intros Hbottom.
  induction tokens as [|t tokens IH]; intros ops output ops' output' H;
    simpl in *.
  - now injection H as <- <-.
  - destruct t as [v|v|v].
    + now apply IH.
    + rewrite (popOperators_bottom v bottom ops Hbottom).
      destruct (popOperators v ops output) as [ops1 output1]. simpl.
      now apply (IH (TOp v :: ops1)).
    + destruct (Ascii.eqb v "(").
      * now apply (IH (TParen v :: ops)).
      * destruct (popToOpenParen ops output) as [[ops1 output1]| |] eqn:Hpop;
          try discriminate.
        rewrite (popToOpenParen_bottom _ _ _ _ _ Hpop). simpl in *.
        now apply IH.
Qed.

Lemma popToOpenParen_drains (ops : list Token) :
  forall output output',
    drainOperators ops output = Return output' ->
    popToOpenParen (ops ++ [TParen "("]) output = Return ([], output').
Proof.
  induction ops as [|t ops IH]; intros output output' H; simpl in *.
  - now injection H as <-.
  - destruct t as [v|v|v]; try discriminate; simpl; now apply IH.
Qed.

Lemma toPostfix_parenthesised (tokens output : list Token) :
  toPostfix tokens = Return output ->
  toPostfix (TParen "(" :: tokens ++ [TParen ")"]) = Return output.
Proof.
  unfold toPostfix. intros H.
  destruct (shuntingYard tokens [] []) as [[ops out]| |] eqn:Hsy; try discriminate.
  cbn [bind] in H.
  cbn [shuntingYard]. change (Ascii.eqb "(" "(") with true. cbv iota.
  rewrite shuntingYard_app.
  pose proof (shuntingYard_bottom (TParen "(") tokens eq_refl [] [] ops out Hsy)
    as Hbottom.
  cbn [app] in Hbottom. rewrite Hbottom.
  cbn [bind shuntingYard]. change (Ascii.eqb ")" "(") with false. cbv iota.
  rewrite (popToOpenParen_drains _ _ _ H). reflexivity.
Qed.

Lemma takeWhile_app_false {A : Type} (f : A -> bool) (s : list A) (c : A) :
  f c = false -> takeWhile f (s ++ [c]) = takeWhile f s.
Proof.
  intros Hc. induction s as [|x s IH]; simpl; [now rewrite Hc|].
  destruct (f x); [now rewrite IH|reflexivity].
Qed.

Lemma numberRun_parenthesised (expr : list ascii) (j : nat) :
  (j <= List.length expr)%nat ->
  numberRun (parenthesised expr) (S j) = numberRun expr j.
Proof.
  intros Hj. unfold numberRun, parenthesised. cbn [skipn].
  rewrite skipn_app. replace (j - List.length expr)%nat with O by lia.
  cbn [skipn]. now apply takeWhile_app_false.
Qed.

Lemma unaryPosition_after_paren (tokens : list Token) :
  unaryPosition (lastToken (TParen "(" :: tokens))
  = unaryPosition (lastToken tokens).
Proof.
  destruct tokens as [|t tokens]; [reflexivity|].
  unfold lastToken. cbn [List.length Nat.sub nth_error].
  now rewrite Nat.sub_0_r.
Qed.

(** One turn inside the parentheses is the turn on the bare expression. *)
Lemma tokenizeStepSpec_parenthesised (expr : list ascii) (i : nat) (ch : ascii)
    (tokens : list Token) :
  (i < List.length expr)%nat ->
  tokenizeStepSpec (parenthesised expr) (S i) ch (TParen "(" :: tokens)
  = ('(tokens', i') <- tokenizeStepSpec expr i ch tokens ;;
     Return (TParen "(" :: tokens', S i')).
Proof.
  intros Hi. unfold tokenizeStepSpec.
  rewrite unaryPosition_after_paren.
  rewrite !numberRun_parenthesised by lia.
  destruct (isParenChar ch); [reflexivity|].
  destruct (isOperatorChar ch).
  - destruct (_ && _); [|reflexivity].
    destruct (numberRun expr (S i)); [reflexivity|].
    cbv zeta. destruct (JS.isNaN _); reflexivity.
  - destruct (isNumChar ch); [|reflexivity].
    cbv zeta. destruct (JS.isNaN _); reflexivity.
Qed.

Lemma tokenizeFrom_parenthesised (expr : list ascii) (n : nat) :
  forall (i : nat) (tokens : list Token),
    (List.length expr - i <= n)%nat -> (i <= List.length expr)%nat ->
    tokenizeFrom (parenthesised expr) (S i) (TParen "(" :: tokens)
    = (result <- tokenizeFrom expr i tokens ;;
       Return (TParen "(" :: result ++ [TParen ")"])).
Proof.
  assert (Hend : forall tokens,
             tokenizeFrom (parenthesised expr) (S (List.length expr))
               (TParen "(" :: tokens)
             = Return (TParen "(" :: tokens ++ [TParen ")"])).
  { intros tokens. rewrite tokenizeFrom_unfold. unfold parenthesised at 1.
    cbn [nth_error]. rewrite nth_error_app2, Nat.sub_diag by lia.
    cbn [nth_error].
    change (tokenizeStepSpec (parenthesised expr) (S (List.length expr)) ")"
              (TParen "(" :: tokens))
      with (Return ((TParen "(" :: tokens) ++ [TParen ")"],
                    S (S (List.length expr)))
            : outcome (list Token * nat)).
    cbn [bind]. apply tokenizeFrom_end. apply nth_error_None.
    unfold parenthesised. cbn [List.length]. rewrite length_app. simpl. lia. }
  induction n as [|n IH]; intros i tokens Hn Hi.
  - replace i with (List.length expr) by lia.
    rewrite Hend, tokenizeFrom_end by (apply nth_error_None; lia). reflexivity.
  - destruct (nth_error expr i) as [ch|] eqn:Hch.
    + assert (Hlt : (i < List.length expr)%nat)
        by (apply nth_error_Some; congruence).
      rewrite (tokenizeFrom_unfold expr), Hch, tokenizeFrom_unfold.
      unfold parenthesised at 1. cbn [nth_error].
      rewrite nth_error_app1, Hch by exact Hlt.
      rewrite tokenizeStepSpec_parenthesised by exact Hlt.
      destruct (tokenizeStepSpec expr i ch tokens) as [[tokens' i']| |] eqn:Hstep;
        try reflexivity.
      cbn [bind].
      pose proof (Hstep' := Hstep). rewrite <- tokenizeStep_spec in Hstep'.
      pose proof (tokenizeStep_progress _ _ _ _ _ _ Hch Hstep').
      apply IH; lia.
    + apply nth_error_None in Hch. replace i with (List.length expr) by lia.
      rewrite Hend, tokenizeFrom_end by (apply nth_error_None; lia).
      reflexivity.
Qed.

Lemma tokenize_parenthesised (expr : list ascii) :
  tokenize (parenthesised expr)
  = (tokens <- tokenize expr ;; Return (TParen "(" :: tokens ++ [TParen ")"])).
Proof.
  rewrite !tokenize_tokenizeFrom, tokenizeFrom_unfold.
  unfold parenthesised at 1. cbn [nth_error].
  change (tokenizeStepSpec (parenthesised expr) 0 "(" [])
    with (Return ([TParen "("], 1%nat) : outcome (list Token * nat)).
  cbn [bind].
  apply (tokenizeFrom_parenthesised expr (List.length expr) 0 []); lia.
Qed.

(** X7: parentheses around a whole expression do not change its outcome:
    whenever the evaluation of an expression does not fail with
    [MismatchedParentheses], the expression in parentheses evaluates to the
    same number or fails with the same error. *)
Theorem parentheses_keep_the_outcome (expr : list ascii) :
  evaluateChars expr <> Throw MismatchedParentheses ->
  evaluateChars (parenthesised expr) = evaluateChars expr.
Proof.
  unfold evaluateChars. rewrite tokenize_parenthesised.
  destruct (tokenize expr) as [tokens| |]; cbn [bind]; try reflexivity.
  unfold evaluateTokens.
  pose proof (toPostfix_balanced tokens) as Hb.
  destruct (toPostfix tokens) as [output|e|] eqn:Hpost.
  - intros _. now rewrite (toPostfix_parenthesised _ _ Hpost).
  - destruct (balanced 0 tokens); [destruct Hb; discriminate|].
    injection Hb as ->. cbn [bind]. contradiction.
  - destruct (balanced 0 tokens); [destruct Hb|]; discriminate.
Qed.

Lemma parentheses_keep_the_outcome_witness :
  evaluateChars (parenthesised (list_ascii_of_string "7/2-1"))
  = evaluateChars (list_ascii_of_string "7/2-1").
Proof.
  apply (parentheses_keep_the_outcome (list_ascii_of_string "7/2-1")).
  discriminate.
Defined.

(** ** The candidate expression of a query *)

Lemma takeWhile_all {A : Type} (f : A -> bool) (l : list A) :
  Forall (fun x => f x = true) (takeWhile f l).
Proof.
  induction l as [|x l IH]; simpl; [constructor|].
  destruct (f x) eqn:Hx; constructor; assumption.
Qed.

Lemma In_dropWhile {A : Type} (f : A -> bool) (l : list A) (x : A) :
  In x (dropWhile f l) -> In x l.
Proof.
  induction l as [|y l IH]; simpl; [tauto|].
  destruct (f y); simpl; tauto.
Qed.

Lemma dropWhile_keeps_last {A : Type} (f : A -> bool) (l : list A) (c : A) :
  f c = false -> In c (dropWhile f (l ++ [c])).
Proof.
  intros Hc. induction l as [|y l IH]; simpl.
  - rewrite Hc. now left.
  - destruct (f y); [exact IH|]. right. apply in_or_app. right. now left.
Qed.

Lemma candidate_start (c : ascii) :
  JS.isDigit c || Ascii.eqb c "(" = true ->
  isWhitespace c = false /\ isExpressionChar c = true.
Proof.
  destruct c as [[] [] [] [] [] [] [] []]; vm_compute; intros H;
    first [discriminate H | split; reflexivity].
Qed.

Lemma matchCandidate_shape (s candidate : list ascii) :
  matchCandidate s = Some candidate ->
  exists c rest,
    candidate = c :: rest
    /\ JS.isDigit c || Ascii.eqb c "(" = true
    /\ Forall (fun x => isExpressionChar x || isWhitespace x = true) rest.
Proof.
  induction s as [|c s IH]; simpl; [discriminate|].
  destruct (JS.isDigit c || Ascii.eqb c "(") eqn:Hc; [|exact IH].
  intros [= <-]. eexists _, _. split; [reflexivity|].
  split; [exact Hc|apply takeWhile_all].
Qed.

(** The candidate, trimmed and without white space, passes the test
    [/^[0-9+\-*/().]+$/]. *)
Lemma candidate_isExpression (s candidate : list ascii) :
  matchCandidate s = Some candidate ->
  isExpression (removeWhitespace (trim candidate)) = true.
Proof.
  intros H. destruct (matchCandidate_shape _ _ H) as (c & rest & -> & Hc & Hrest).
  destruct (candidate_start c Hc) as [Hws Hexpr].
  assert (Hin : In c (removeWhitespace (trim (c :: rest)))).
  { unfold removeWhitespace, trim. apply filter_In. split; [|now rewrite Hws].
    apply -> in_rev. cbn [dropWhile]. rewrite Hws. cbn [rev].
    now apply dropWhile_keeps_last. }
  assert (Hall : forallb isExpressionChar (removeWhitespace (trim (c :: rest)))
                 = true).
  { apply forallb_forall. intros x Hx.
    unfold removeWhitespace, trim in Hx. apply filter_In in Hx as [Hx Hxws].
    apply in_rev, In_dropWhile, in_rev, In_dropWhile in Hx.
    destruct Hx as [<-|Hx]; [exact Hexpr|].
    rewrite Forall_forall in Hrest. specialize (Hrest x Hx).
    apply negb_true_iff in Hxws. rewrite Hxws, orb_false_r in Hrest.
    exact Hrest. }
  unfold isExpression.
  destruct (removeWhitespace (trim (c :: rest))); [contradiction|exact Hall].
Qed.

(** X8: the expression [QueryProcessor] hands to the evaluator always
    passes its character test: the candidate matched in the query, trimmed
    and with its white space removed, is a non-empty string over the
    evaluator's alphabet.  So the evaluator is called for every candidate,
    and from [QueryProcessor] it never throws [InvalidCharacter]. *)
Theorem candidate_always_valid (q candidate : list ascii) :
  matchCandidate (preprocessWords q) = Some candidate ->
  let expr := removeWhitespace (trim candidate) in
  isExpression expr = true
  /\ mathAnswer q = tryEvaluate expr
  /\ forall ch, evaluateChars expr <> Throw (InvalidCharacter ch).
Proof.
  intros H expr.
  pose proof (candidate_isExpression _ _ H) as Hexpr. fold expr in Hexpr.
  split; [exact Hexpr|]. split.
  - unfold mathAnswer. rewrite H. fold expr. now rewrite Hexpr.
  - intros ch Hthrow. apply evaluateChars_throws in Hthrow.
    assert (Hall : forallb isExpressionChar expr = true)
      by (unfold isExpression in Hexpr; destruct expr; [discriminate|exact Hexpr]).
    rewrite forallb_forall in Hall.
    destruct Hthrow as [H1|[(c & H1 & Hin & Hc)|[H1|[H1|H1]]]];
      try discriminate.
    rewrite (Hall c Hin) in Hc. discriminate.
Qed.

Lemma candidate_always_valid_witness :
  isExpression (removeWhitespace (trim (lit "98 + 52"))) = true.
Proof.
  exact (proj1 (candidate_always_valid (lit "What is 98 plus 52?")
                  (lit "98 + 52") eq_refl)).
Defined.

(** ** Queries without an expression *)

Lemma replaceWords_In (words : list (list ascii)) (replacement : list ascii)
    (x : ascii) (s : list ascii) :
  forall prev skip,
    In x (replaceWords words replacement prev skip s) ->
    In x s \/ In x replacement.
Proof.
  induction s as [|c s IH]; intros prev skip H; simpl in H; [tauto|].
  destruct skip as [|k].
  - destruct (matchWordAt words prev (c :: s)) as [[|k]|].
    + destruct H as [<-|H]; [left; now left|].
      destruct (IH _ _ H); [left; now right|now right].
    + apply in_app_or in H as [H|H]; [now right|].
      destruct (IH _ _ H); [left; now right|now right].
    + destruct H as [<-|H]; [left; now left|].
      destruct (IH _ _ H); [left; now right|now right].
  - destruct (IH _ _ H); [left; now right|now right].
Qed.

Lemma preprocessWords_In (q : list ascii) (x : ascii) :
  In x (preprocessWords q) -> In x q \/ isOperatorChar x = true.
Proof.
  unfold preprocessWords. intros H.
  repeat match goal with
         | H : In x (replaceWords _ _ _ _ _) |- _ =>
             apply replaceWords_In in H as [H|H]
         | H : In x (lit _) |- _ =>
             right; destruct H as [<-|[]]; reflexivity
         end.
  now left.
Qed.

Lemma matchCandidate_None (s : list ascii) :
  (forall x, In x s -> JS.isDigit x || Ascii.eqb x "(" = false) ->
  matchCandidate s = None.
Proof.
  induction s as [|c s IH]; intros H; simpl; [reflexivity|].
  rewrite (H c (or_introl eq_refl)). apply IH. intros x Hx. apply H. now right.
Qed.

Lemma matchNumberAt_no_digit (s : list ascii) :
  match s with
  | c :: r => JS.isDigit c = false
              /\ match r with
                 | d :: _ => Ascii.eqb c "-" = false \/ JS.isDigit d = false
                 | [] => True
                 end
  | [] => True
  end ->
  matchNumberAt s = None.
Proof.
  unfold matchNumberAt. destruct s as [|c r]; [reflexivity|].
  intros [Hc Hr]. destruct (Ascii.eqb c "-") eqn:Hminus.
  - destruct r as [|d r]; [reflexivity|].
    destruct Hr as [Hr|Hr]; [discriminate|]. simpl. now rewrite Hr.
  - simpl. now rewrite Hc.
Qed.

Lemma matchAllNumbers_no_digit (s : list ascii) :
  (forall x, In x s -> JS.isDigit x = false) ->
  forall skip, matchAllNumbers skip s = [].
Proof.
  induction s as [|c s IH]; intros H skip; simpl; [reflexivity|].
  assert (Hs : forall x, In x s -> JS.isDigit x = false)
    by (intros x Hx; apply H; now right).
  destruct skip as [|k]; [|now apply IH].
  rewrite matchNumberAt_no_digit; [now apply IH|].
  split; [apply H; now left|].
  destruct s as [|d s]; [exact I|]. right. apply Hs. now left.
Qed.

(** X9: a query without a digit and without an opening parenthesis is
    answered by the keyword handlers alone: the word operators that are
    replaced bring in no digit, so there is no candidate expression, and
    the "largest" branch finds no number. *)
Theorem query_without_digits (query : string) :
  let q := list_ascii_of_string query in
  (forall x, In x q -> JS.isDigit x = false /\ x <> "("%char) ->
  largestAnswer q (toLowerCase q) = None
  /\ mathAnswer q = Return None
  /\ QueryProcessor query
     = Return (string_of_list_ascii (keywordAnswer (toLowerCase q))).
Proof.
  intros q Hq.
  assert (Hlargest : largestAnswer q (toLowerCase q) = None).
  { unfold largestAnswer. destruct (_ || _); [|reflexivity].
    rewrite matchAllNumbers_no_digit; [reflexivity|].
    intros x Hx. now apply Hq. }
  assert (Hmath : mathAnswer q = Return None).
  { unfold mathAnswer. rewrite matchCandidate_None; [reflexivity|].
    intros x Hx. apply preprocessWords_In in Hx as [Hx|Hx].
    - destruct (Hq x Hx) as [Hd Hp]. rewrite Hd.
      now apply Ascii.eqb_neq in Hp as ->.
    - destruct (isOperatorChar_classes x Hx) as (Hparen & _ & Hd).
      rewrite Hd. unfold isParenChar in Hparen.
      now apply orb_false_iff in Hparen as [-> _]. }
  split; [exact Hlargest|]. split; [exact Hmath|].
  unfold QueryProcessor. fold q. now rewrite Hlargest, Hmath.
Qed.

Lemma query_without_digits_witness :
  QueryProcessor "Is the largest name minus your name my andrewid?"
  = Return "Rohan"%string.
Proof.
  refine (proj2 (proj2 (query_without_digits
            "Is the largest name minus your name my andrewid?" _))).
  intros x Hx. simpl in Hx.
  repeat (destruct Hx as [<-|Hx]; [split; [reflexivity|discriminate]|]).
  contradiction.
Defined.

(** ** A query that is an expression *)

Lemma isExpressionChar_plain (c : ascii) :
  isExpressionChar c = true ->
  toLowerChar c = c /\ isWhitespace c = false
  /\ (forall p, ((97 <=? codeOf p) && (codeOf p <=? 122))%nat = true ->
                eqbIgnoreCase p c = false).
Proof.
  intros Hc.
  assert (H : toLowerChar c = c /\ isWhitespace c = false
              /\ ((65 <=? codeOf c) && (codeOf c <=? 90))%nat = false
              /\ ((97 <=? codeOf c) && (codeOf c <=? 122))%nat = false)
    by (revert Hc; destruct c as [[] [] [] [] [] [] [] []]; vm_compute;
        intros Hc; first [discriminate Hc | repeat split]).
  destruct H as (H1 & H2 & H3 & H4). repeat split; try assumption.
  intros p Hp. unfold eqbIgnoreCase. rewrite H3.
  destruct (Ascii.eqb p c) eqn:Hpc; [|reflexivity].
  apply Ascii.eqb_eq in Hpc. subst p. congruence.
Qed.

Lemma includes_In (s p : list ascii) (h : ascii) :
  includes s (h :: p) = true -> In h s.
Proof.
  induction s as [|c s IH]; simpl; [discriminate|].
  destruct (Ascii.eqb h c) eqn:Hhc.
  - intros _. left. apply Ascii.eqb_eq in Hhc. now subst.
  - simpl. intros H. right. now apply IH.
Qed.

Lemma letter_not_expression (h : ascii) :
  ((97 <=? codeOf h) && (codeOf h <=? 122))%nat = true ->
  isExpressionChar h = false.
Proof.
  destruct h as [[] [] [] [] [] [] [] []]; vm_compute; intros H;
    first [discriminate H | reflexivity].
Qed.

Lemma includes_letter (s : list ascii) (word : string) :
  forallb isExpressionChar s = true ->
  startsWithLetter (lit word) = true ->
  includes s (lit word) = false.
Proof.
  intros Hs Hword. destruct (lit word) as [|h p]; [discriminate|].
  destruct (includes s (h :: p)) eqn:H; [|reflexivity].
  apply includes_In in H. rewrite forallb_forall in Hs.
  specialize (Hs h H). rewrite (letter_not_expression h Hword) in Hs.
  discriminate.
Qed.

Lemma matchWordAt_expression (words : list (list ascii)) (prev : option ascii)
    (c : ascii) (s : list ascii) :
  forallb startsWithLetter words = true -> isExpressionChar c = true ->
  matchWordAt words prev (c :: s) = None.
Proof.
  intros Hwords Hc. induction words as [|word words IH]; [reflexivity|].
  simpl in Hwords. apply andb_true_iff in Hwords as [Hword Hwords].
  destruct word as [|p word]; [discriminate|].
  cbn [matchWordAt matchLiteral].
  destruct (isExpressionChar_plain c Hc) as (_ & _ & Hcase).
  rewrite (Hcase p Hword). now apply IH.
Qed.

Lemma replaceWords_expression (words : list (list ascii))
    (replacement s : list ascii) :
  forallb startsWithLetter words = true ->
  forallb isExpressionChar s = true ->
  forall prev, replaceWords words replacement prev O s = s.
Proof.
  intros Hwords. induction s as [|c s IH]; intros Hs prev; [reflexivity|].
  simpl in Hs. apply andb_true_iff in Hs as [Hc Hs].
  cbn [replaceWords]. rewrite (matchWordAt_expression _ _ _ _ Hwords Hc).
  now rewrite IH.
Qed.

Lemma preprocessWords_expression (s : list ascii) :
  forallb isExpressionChar s = true -> preprocessWords s = s.
Proof.
  intros Hs. unfold preprocessWords. cbv zeta.
  rewrite !(replaceWords_expression _ _ s) by first [exact Hs | reflexivity].
  reflexivity.
Qed.

Lemma takeWhile_whole {A : Type} (f : A -> bool) (l : list A) :
  forallb f l = true -> takeWhile f l = l.
Proof.
  induction l as [|x l IH]; simpl; [reflexivity|].
  intros H. apply andb_true_iff in H as [-> H]. now rewrite IH.
Qed.

Lemma dropWhile_none {A : Type} (f : A -> bool) (l : list A) :
  forallb (fun x => negb (f x)) l = true -> dropWhile f l = l.
Proof.
  destruct l as [|x l]; simpl; [reflexivity|].
  intros H. apply andb_true_iff in H as [Hx _].
  apply negb_true_iff in Hx. now rewrite Hx.
Qed.

Lemma filter_whole {A : Type} (f : A -> bool) (l : list A) :
  forallb f l = true -> filter f l = l.
Proof.
  induction l as [|x l IH]; simpl; [reflexivity|].
  intros H. apply andb_true_iff in H as [-> H]. now rewrite IH.
Qed.

Lemma expression_no_whitespace (s : list ascii) :
  forallb isExpressionChar s = true ->
  forallb (fun c => negb (isWhitespace c)) s = true.
Proof.
  intros H. apply forallb_forall. intros x Hx.
  rewrite forallb_forall in H.
  destruct (isExpressionChar_plain x (H x Hx)) as (_ & -> & _). reflexivity.
Qed.

Lemma forallb_rev {A : Type} (f : A -> bool) (l : list A) :
  forallb f l = true -> forallb f (rev l) = true.
Proof.
  intros H. apply forallb_forall. intros x Hx. apply in_rev in Hx.
  rewrite forallb_forall in H. now apply H.
Qed.

(** X10: a query that is itself an expression (characters of the
    evaluator's alphabet only, the first a digit or an opening parenthesis)
    is handed to the evaluator unchanged, and the answer is the formatted
    number when the evaluation returns a finite number, and the empty
    string otherwise: when the evaluator throws, or returns [Infinity] or
    [NaN]. *)
Theorem query_that_is_an_expression (c : ascii) (rest : list ascii) :
  JS.isDigit c || Ascii.eqb c "(" = true ->
  forallb isExpressionChar rest = true ->
  let q := c :: rest in
  mathAnswer q = tryEvaluate q
  /\ QueryProcessor (string_of_list_ascii q)
     = Return (string_of_list_ascii (answerOf (evaluateChars q) [])).
Proof.
  intros Hc Hrest q.
  destruct (candidate_start c Hc) as [Hws Hexpr].
  assert (Hq : forallb isExpressionChar q = true)
    by (simpl; now rewrite Hexpr, Hrest).
  pose proof (expression_no_whitespace q Hq) as Hnows.
  assert (Hmath : mathAnswer q = tryEvaluate q).
  { unfold mathAnswer. rewrite (preprocessWords_expression q Hq).
    unfold q at 1. cbn [matchCandidate]. rewrite Hc.
    rewrite takeWhile_whole
      by (apply forallb_forall; intros x Hx; rewrite forallb_forall in Hrest;
          now rewrite (Hrest x Hx)).
    fold q. unfold trim.
    rewrite (dropWhile_none _ q Hnows).
    rewrite (dropWhile_none _ (rev q) (forallb_rev _ _ Hnows)), rev_involutive.
    unfold removeWhitespace. rewrite (filter_whole _ q Hnows).
    unfold isExpression. fold q in Hq. unfold q at 1. now rewrite Hq. }
  split; [exact Hmath|].
  assert (Hlower : toLowerCase q = q).
  { unfold toLowerCase. rewrite <- (map_id q) at 2. apply map_ext_in.
    intros x Hx. rewrite forallb_forall in Hq.
    now destruct (isExpressionChar_plain x (Hq x Hx)) as (-> & _). }
  unfold QueryProcessor.
  rewrite list_ascii_of_string_of_list_ascii, Hlower.
  unfold largestAnswer.
  rewrite !(includes_letter q) by first [exact Hq | reflexivity].
  cbn [orb]. rewrite Hmath. unfold tryEvaluate, keywordAnswer.
  rewrite !(includes_letter q) by first [exact Hq | reflexivity].
  pose proof (evaluateChars_not_OutOfFuel q) as Hfuel.
  destruct (evaluateChars q) as [value|e|]; cbn [bind try_catch answerOf];
    [|reflexivity|contradiction].
  destruct (JS.isFinite value); reflexivity.
Qed.

Lemma query_that_is_an_expression_witness :
  QueryProcessor "(2+3)*4/0"
  = Return (string_of_list_ascii
              (answerOf (evaluateChars (lit "(2+3)*4/0")) [])).
Proof.
  exact (proj2 (query_that_is_an_expression "("%char (lit "2+3)*4/0")
                  eq_refl eq_refl)).
Defined.

(** ** The numbers of a "largest" query *)

Lemma takeWhile_skipn {A : Type} (f : A -> bool) (l : list A) :
  l = takeWhile f l ++ skipn (List.length (takeWhile f l)) l.
Proof.
  induction l as [|x l IH]; simpl; [reflexivity|].
  destruct (f x); simpl; [now rewrite <- IH|reflexivity].
Qed.

Lemma firstn_takeWhile {A : Type} (f : A -> bool) (l : list A) :
  firstn (List.length (takeWhile f l)) l = takeWhile f l.
Proof.
  induction l as [|x l IH]; simpl; [reflexivity|].
  destruct (f x); simpl; [now rewrite IH|reflexivity].
Qed.

Lemma takeWhile_forallb {A : Type} (f : A -> bool) (l : list A) :
  forallb f (takeWhile f l) = true.
Proof.
  induction l as [|x l IH]; simpl; [reflexivity|].
  destruct (f x) eqn:Hx; simpl; [now rewrite Hx|reflexivity].
Qed.

(** What [\d+\.?\d*] matches at the start of [s] is a decimal literal. *)
Lemma matchDigits_literal (s : list ascii) :
  let int := takeWhile JS.isDigit s in
  let frac :=
    match skipn (List.length int) s with
    | c :: r =>
        if Ascii.eqb c "." then S (List.length (takeWhile JS.isDigit r)) else O
    | [] => O
    end in
  int <> [] ->
  JS.isDecimalLiteral (firstn (List.length int + frac) s) = true.
Proof.
  intros int frac Hint.
  assert (Hdigits : forallb JS.isDigit int = true) by apply takeWhile_forallb.
  assert (Hplain : JS.isDecimalLiteral int = true).
  { unfold JS.isDecimalLiteral. rewrite (splitAtDot_digits _ Hdigits), Hdigits.
    simpl. destruct int; [contradiction|reflexivity]. }
  pose proof (takeWhile_skipn JS.isDigit s) as Hs. fold int in Hs.
  subst frac. destruct (skipn (List.length int) s) as [|c r] eqn:Hskip.
  - rewrite Nat.add_0_r. unfold int. now rewrite firstn_takeWhile.
  - destruct (Ascii.eqb c ".") eqn:Hc.
    + apply Ascii.eqb_eq in Hc. subst c. rewrite Hs at 1.
      rewrite firstn_app_2. cbn [firstn]. rewrite firstn_takeWhile.
      unfold JS.isDecimalLiteral.
      rewrite (splitAtDot_point _ _ Hdigits), Hdigits, takeWhile_forallb.
      simpl. destruct int; [contradiction|reflexivity].
    + rewrite Nat.add_0_r. unfold int. now rewrite firstn_takeWhile.
Qed.

Lemma matchNumberAt_literal (s : list ascii) (n : nat) :
  matchNumberAt s = Some n -> JS.isNaN (JS.Number (firstn n s)) = false.
Proof.
  unfold matchNumberAt.
  destruct s as [|c r]; [discriminate|].
  destruct (Ascii.eqb c "-") eqn:Hminus.
  - apply Ascii.eqb_eq in Hminus. subst c.
    pose proof (matchDigits_literal r) as Hlit. cbv zeta in Hlit.
    remember (takeWhile JS.isDigit r) as int eqn:Hint.
    remember (match skipn (List.length int) r with
              | [] => O
              | c :: r0 =>
                  if Ascii.eqb c "."
                  then S (List.length (takeWhile JS.isDigit r0)) else O
              end) as frac eqn:Hfrac.
    destruct int as [|d int]; [discriminate|].
    intros [= <-].
    match goal with
    | |- context [firstn ?k ("-"%char :: r)] =>
        replace (firstn k ("-"%char :: r))
          with ("-"%char :: firstn (List.length (d :: int) + frac) r)
          by reflexivity
    end.
    rewrite Number_signed, isNaN_opp, unsignedLiteral_isNaN.
    rewrite Hlit by discriminate. reflexivity.
  - pose proof (matchDigits_literal (c :: r)) as Hlit. cbv zeta in Hlit.
    assert (Hc : takeWhile JS.isDigit (c :: r) <> [] -> isNumChar c = true).
    { simpl. destruct (JS.isDigit c) eqn:Hd; [|congruence].
      intros _. unfold isNumChar. now rewrite Hd. }
    remember (takeWhile JS.isDigit (c :: r)) as int eqn:Hint.
    remember (match skipn (List.length int) (c :: r) with
              | [] => O
              | c0 :: r0 =>
                  if Ascii.eqb c0 "."
                  then S (List.length (takeWhile JS.isDigit r0)) else O
              end) as frac eqn:Hfrac.
    destruct int as [|d int]; [discriminate|].
    intros [= <-].
    specialize (Hlit ltac:(discriminate)). specialize (Hc ltac:(discriminate)).
    change (firstn (List.length (d :: int) + frac) (c :: r))
      with (c :: firstn (List.length int + frac) r) in Hlit.
    match goal with
    | |- context [firstn ?k (c :: r)] =>
        change (firstn k (c :: r)) with (c :: firstn (List.length int + frac) r)
    end.
    rewrite Number_numChar_run by exact Hc.
    now rewrite unsignedLiteral_isNaN, Hlit.
Qed.

Lemma matchAllNumbers_In (s : list ascii) (m : list ascii) :
  forall skip,
    In m (matchAllNumbers skip s) ->
    exists s' n, matchNumberAt s' = Some n /\ m = firstn n s'.
Proof.
  induction s as [|c s IH]; intros skip H; simpl in H; [contradiction|].
  destruct skip as [|k]; [|now apply (IH k)].
  destruct (matchNumberAt (c :: s)) as [n|] eqn:Hmatch.
  - destruct H as [<-|H]; [eauto|now apply (IH (n - 1)%nat)].
  - now apply (IH O).
Qed.

Lemma matchAllNumbers_digit (s : list ascii) :
  existsb JS.isDigit s = true -> matchAllNumbers O s <> [].
Proof.
  induction s as [|c s IH]; simpl; [discriminate|].
  destruct (matchNumberAt (c :: s)) as [n|] eqn:Hmatch; [discriminate|].
  destruct (JS.isDigit c) eqn:Hc; [|exact IH].
  exfalso. unfold matchNumberAt in Hmatch.
  destruct (isDigit_classes c Hc) as (_ & _ & _ & Hminus & _).
  rewrite Hminus in Hmatch. simpl in Hmatch. rewrite Hc in Hmatch.
  discriminate.
Qed.

Lemma filter_In_whole {A : Type} (f : A -> bool) (l : list A) :
  (forall x, In x l -> f x = true) -> filter f l = l.
Proof.
  intros H. apply filter_whole. now apply forallb_forall.
Qed.

(** X11: every number a "largest" query is searched for is a number: each
    match of [-?\d+\.?\d*] converts to a value that is not [NaN], so the
    [filter] drops nothing.  A query that says "largest" and has a digit
    is answered with the formatted greatest of these values, whatever else
    it says; one without a digit is not answered by this branch. *)
Theorem largest_query (q : list ascii) :
  (forall m, In m (matchAllNumbers O q) -> JS.isNaN (JS.Number m) = false)
  /\ (includes (toLowerCase q) (lit "largest") = true ->
      existsb JS.isDigit q = true ->
      QueryProcessor (string_of_list_ascii q)
      = Return (string_of_list_ascii
                  (formatNumber (JS.max (map JS.Number (matchAllNumbers O q))))))
  /\ (existsb JS.isDigit q = false ->
      largestAnswer q (toLowerCase q) = None).
Proof.
  assert (Hvalid : forall m, In m (matchAllNumbers O q) ->
                             JS.isNaN (JS.Number m) = false).
  { intros m Hm. apply matchAllNumbers_In in Hm as (s' & n & Hmatch & ->).
    now apply matchNumberAt_literal. }
  split; [exact Hvalid|]. split.
  - intros Hlargest Hdigit.
    unfold QueryProcessor. rewrite list_ascii_of_string_of_list_ascii.
    unfold largestAnswer. rewrite Hlargest. cbn [orb].
    rewrite filter_In_whole.
    + pose proof (matchAllNumbers_digit q Hdigit) as Hne.
      destruct (matchAllNumbers O q) as [|m ms]; [contradiction|reflexivity].
    + intros x Hx. apply in_map_iff in Hx as (m & <- & Hm).
      now rewrite (Hvalid m Hm).
  - intros Hdigit. unfold largestAnswer. destruct (_ || _); [|reflexivity].
    rewrite matchAllNumbers_no_digit; [reflexivity|].
    intros x Hx. destruct (JS.isDigit x) eqn:Hd; [|reflexivity].
    assert (existsb JS.isDigit q = true)
      by (apply existsb_exists; eauto).
    congruence.
Qed.

Lemma largest_query_witness :
  QueryProcessor "Largest of 3, -7.5 and 12?"
  = Return (string_of_list_ascii
              (formatNumber
                 (JS.max (map JS.Number
                            (matchAllNumbers O (lit "Largest of 3, -7.5 and 12?")))))).
Proof.
  exact (proj1 (proj2 (largest_query (lit "Largest of 3, -7.5 and 12?")))
               eq_refl eq_refl).
Defined.

(** ** Operands and operators *)

Lemma evalPostfix_counts (output : list Token) :
  forall stack stack',
    evalPostfix output stack = Return stack' ->
    (List.length stack' + operatorCount output
     = List.length stack + List.length (numbersOf output))%nat.
Proof.
  induction output as [|t output IH]; intros stack stack' H; simpl in H.
  - injection H as <-. simpl. lia.
  - destruct t as [v|v|v].
    + apply IH in H. simpl in *. lia.
    + destruct stack as [|b [|a stack]]; try discriminate.
      destruct (applyOperator v a b) as [r| |]; try discriminate.
      cbn [bind] in H. apply IH in H. simpl in *. lia.
    + apply IH in H. simpl in *. lia.
Qed.

(** X12: an expression that evaluates to a number has exactly one operand
    more than it has operators, and its parentheses nest; an expression
    with any other count of operands does not evaluate to a number. *)
Theorem evaluated_expression_counts (expr : list ascii) (value : JS.number) :
  evaluateChars expr = Return value ->
  exists tokens,
    tokenize expr = Return tokens
    /\ List.length (numbersOf tokens) = S (operatorCount tokens)
    /\ balanced 0 tokens = true.
Proof.
  unfold evaluateChars, evaluateTokens. intros H.
  destruct (tokenize expr) as [tokens| |]; try discriminate.
  cbn [bind] in H. exists tokens. split; [reflexivity|].
  pose proof (toPostfix_balanced tokens) as Hb.
  destruct (toPostfix tokens) as [output| |] eqn:Hpost; try discriminate.
  cbn [bind] in H.
  destruct (evalPostfix output []) as [stack| |] eqn:Heval; try discriminate.
  cbn [bind] in H. destruct stack as [|v [|w stack]]; try discriminate.
  apply evalPostfix_counts in Heval. simpl in Heval.
  unfold toPostfix in Hpost.
  destruct (shuntingYard tokens [] []) as [[ops out]| |] eqn:Hsy; try discriminate.
  cbn [bind] in Hpost.
  destruct (shuntingYard_shape _ _ _ _ _ Hsy eq_refl) as (H1 & H2 & H3 & _).
  destruct (drainOperators_moved _ _ _ Hpost H1) as (_ & D2 & D3 & _).
  simpl in *. split.
  - rewrite <- H2, <- D2. lia.
  - destruct (balanced 0 tokens); [reflexivity|discriminate].
Qed.

Lemma evaluated_expression_counts_witness :
  exists tokens,
    tokenize (list_ascii_of_string "2(3)+") = Return tokens
    /\ List.length (numbersOf tokens) = S (operatorCount tokens)
    /\ balanced 0 tokens = true.
Proof.
  exact (evaluated_expression_counts (list_ascii_of_string "2(3)+")
           (JS.ofZ 5) eq_refl).
Defined.

(** ** An operator after its operands *)

Lemma level_three_waiting (a : Expr) (waiting : list Token) :
  level a = 3%nat -> Forall (operatorAtLeast (level a)) waiting -> waiting = [].
Proof.
  intros Hlevel Hwaiting. rewrite Hlevel in Hwaiting.
  destruct waiting as [|t waiting]; [reflexivity|].
  inversion Hwaiting as [|? ? Ht _]; subst.
  destruct t as [v|op|v]; simpl in Ht; try contradiction.
  pose proof (precedence_range op). lia.
Qed.

(** X13: the evaluator also accepts an operator after its operands: for a
    literal or group [a], any expression [b] and an operator, the string
    [a(b)op] is not rejected as malformed but evaluates to [a op b]. *)
Theorem operator_after_operands_accepted (a b : Expr) (op : ascii) :
  properExpr a = true -> properExpr b = true -> level a = 3%nat ->
  isOperatorChar op = true ->
  evaluateChars (render a ++ "("%char :: render b ++ [")"%char; op])
  = (x <- valueOf a ;; y <- valueOf b ;; applyOperator op x y).
Proof.
  intros Ha Hb Hlevel Hop.
  set (expr := render a ++ "("%char :: render b ++ [")"%char; op]).
  destruct (isOperatorChar_classes op Hop) as (Hparen & _).
  assert (Htok : tokenize expr
                 = Return (tokensOf a ++ TParen "(" :: tokensOf b
                             ++ [TParen ")"; TOp op])).
  { rewrite tokenize_tokenizeFrom.
    rewrite (tokenizeFrom_render a Ha expr 0 []
               ("("%char :: render b ++ [")"%char; op]) eq_refl eq_refl eq_refl).
    cbn [Nat.add app].
    assert (Hskip : skipn (List.length (render a)) expr
                    = "("%char :: render b ++ [")"%char; op])
      by apply skipn_length_app.
    pose proof (skipn_cons_nth_error _ _ _ _ Hskip) as [Hi Hskip1].
    rewrite (tokenizeFrom_advance expr _ (S (List.length (render a))) "("
               (tokensOf a) (tokensOf a ++ [TParen "("]) Hi eq_refl).
    rewrite (tokenizeFrom_render b Hb expr _ _ [")"%char; op] Hskip1 eq_refl)
      by now rewrite lastToken_app.
    pose proof (skipn_app_advance _ _ _ _ Hskip1) as Hskip2.
    pose proof (skipn_cons_nth_error _ _ _ _ Hskip2) as [Hi2 Hskip3].
    rewrite (tokenizeFrom_advance expr _
               (S (S (List.length (render a)) + List.length (render b))) ")"
               _ (((tokensOf a ++ [TParen "("]) ++ tokensOf b) ++ [TParen ")"])
               Hi2 eq_refl).
    pose proof (skipn_cons_nth_error _ _ _ _ Hskip3) as [Hi3 Hskip4].
    rewrite (tokenizeFrom_advance expr _
               (S (S (S (List.length (render a)) + List.length (render b)))) op
               _ ((((tokensOf a ++ [TParen "("]) ++ tokensOf b) ++ [TParen ")"])
                    ++ [TOp op]) Hi3).
    - rewrite tokenizeFrom_end.
      + rewrite <- !app_assoc. reflexivity.
      + apply nth_error_None.
        pose proof (f_equal (@List.length ascii) Hskip4) as Hl.
        rewrite length_skipn in Hl. simpl in Hl. lia.
    - unfold tokenizeStepSpec. rewrite Hparen, Hop, lastToken_app.
      cbn [unaryPosition]. change (Ascii.eqb ")" "(") with false.
      rewrite andb_false_r. reflexivity. }
  assert (Hpost : toPostfix (tokensOf a ++ TParen "(" :: tokensOf b
                               ++ [TParen ")"; TOp op])
                  = Return (postfixOf a ++ postfixOf b ++ [TOp op])).
  { unfold toPostfix.
    destruct (shuntingYard_tokensOf a Ha [] []) as (ea & wa & Hsa & Hea & Hwa);
      [simpl; apply level_positive|].
    pose proof (level_three_waiting a wa Hlevel Hwa). subst wa.
    rewrite app_nil_r in Hea. subst ea.
    rewrite shuntingYard_app, Hsa. cbn [bind app shuntingYard].
    change (Ascii.eqb "(" "(") with true. cbv iota.
    destruct (shuntingYard_tokensOf b Hb [TParen "("] (postfixOf a))
      as (eb & wb & Hsb & Heb & Hwb); [simpl; apply level_positive|].
    rewrite shuntingYard_app, Hsb. cbn [bind shuntingYard].
    change (Ascii.eqb ")" "(") with false. cbv iota.
    rewrite (popToOpenParen_waiting wb _ [] _ Hwb). cbn [bind popOperators].
    cbn [drainOperators]. rewrite <- !app_assoc, <- Heb.
    now rewrite <- !app_assoc. }
  unfold evaluateChars. rewrite Htok. cbn [bind].
  unfold evaluateTokens. rewrite Hpost. cbn [bind].
  rewrite evalPostfix_postfixOf.
  destruct (valueOf a) as [x| |]; cbn [bind]; try reflexivity.
  rewrite evalPostfix_postfixOf.
  destruct (valueOf b) as [y| |]; cbn [bind]; try reflexivity.
  cbn [evalPostfix].
  destruct (applyOperator op x y); reflexivity.
Qed.

Lemma operator_after_operands_accepted_witness :
  evaluateChars (list_ascii_of_string "2(3*4)+")
  = (x <- Return (JS.ofZ 2) ;;
     y <- valueOf (Binary "*" (Literal false ["3"%char]) (Literal false ["4"%char])) ;;
     applyOperator "+" x y).
Proof.
  exact (operator_after_operands_accepted
           (Literal false ["2"%char])
           (Binary "*" (Literal false ["3"%char]) (Literal false ["4"%char]))
           "+"%char eq_refl eq_refl eq_refl eq_refl).
Defined.
